(** * Retrieval-and-fusion engine of the audit-finding RAG service

    A shallow embedding of

      - [rag/src/retrieval/vector-search.ts]  (class [VectorSearchService]:
        [search], [hybridSearch], [keywordSearch], [mergeAndRerankResults],
        [buildFilterStages]) and
      - [rag/src/indexing/document-processor.ts]  (class [DocumentProcessor]:
        [processAuditFinding], [extractSections], [chunkText],
        [enrichChunkContext], [splitIntoSentences], [estimateTokens],
        [getOverlapSentences]),

    together with the properties the specification states about them.

    Modelling conventions.

      - A JavaScript [number] that holds a score is the rational it
        denotes.  The fusion engine is embedded twice.  [Fusion] computes
        [1 / (k + rank + 1)] and [+=] exactly, which is what the formulas
        of the specification speak of.  [Fusion64] rounds every operation
        to binary64, as the code does, and is what [hybridSearch] calls.
        The two hold the same documents with the same payloads; their
        scores differ by the rounding, and the order of two documents
        differs where rounding decides it.  The scores the store returns
        are taken as they come.  Counts ([topK], ranks, token estimates)
        are [nat]; [Math.ceil(n * 1.5)] and [Math.ceil(n * 1.3)] on a
        count are computed exactly.
      - A JavaScript string is a [string] of [ascii] code units; the
        whitespace class of [trim] and of the regular expression [\s] is
        its restriction to those code units.
      - The [Map] of [mergeAndRerankResults] iterates in insertion order and
        [set] on a key already present keeps the key's position: it is an
        association list.
      - [Array.prototype.sort] is stable (ECMAScript 2019): it is a stable
        insertion sort driven by the comparator's sign.
      - The document store and the embedding provider are collaborators:
        their answers are fields of a [Store] record, and the aggregation
        stages the code lists are applied to those answers in the order the
        code lists them.  A collaborator that fails rejects the promise and
        the call returns nothing; only calls that return are modelled. *)

From Stdlib Require Import List String Ascii Bool Arith ZArith QArith Qround Qabs.
From Stdlib Require Import Lia Lqa Sorted Permutation.
Import ListNotations.

Open Scope nat_scope.

(** ** Shared data model ([SearchResult], [SearchOptions]) *)

Record Metadata : Type := mkMetadata
  { protocol : string;
    impact : string;
    title : string;
    section : string;
    source_link : string;
    firm : string }.

Record SearchResult : Type := mkSearchResult
  { id : string;
    text : string;
    score : Q;
    metadata : Metadata }.

Record Filters : Type := mkFilters
  { f_impact : option (list string);
    f_protocol : option (list string);
    f_firm : option (list string) }.

Record SearchOptions : Type := mkSearchOptions
  { topK : option nat;
    minScore : option Q;
    filters : option Filters }.

(** [const { x = d } = options]: a missing property takes the default. *)
Definition withDefault {A : Type} (d : A) (o : option A) : A :=
  match o with
  | Some a => a
  | None => d
  end.

(** [Math.ceil] of a non-negative number, and a count as a number. *)
Definition Math_ceil (x : Q) : nat := Z.to_nat (Qceiling x).

Definition number (n : nat) : Q := inject_Z (Z.of_nat n).

(** [arr.forEach((x, rank) => ...)] threading the state the callback
    mutates. *)
Fixpoint forEach {A St : Type} (f : A -> nat -> St -> St) (l : list A)
  (rank : nat) (st : St) : St :=
  match l with
  | [] => st
  | x :: l' => forEach f l' (S rank) (f x rank st)
  end.

(** [Array.prototype.sort(cmp)]: stable; [x] goes before the first element
    it does not have to follow. *)
Fixpoint sort_insert {A : Type} (cmp : A -> A -> Q) (x : A) (l : list A)
  : list A :=
  match l with
  | [] => [x]
  | y :: l' =>
      if Qle_bool (cmp x y) 0%Q then x :: y :: l'
      else y :: sort_insert cmp x l'
  end.

Definition Array_sort {A : Type} (cmp : A -> A -> Q) (l : list A) : list A :=
  fold_right (sort_insert cmp) [] l.

(** The comparator / sort specification [{ key: -1 }]: larger keys
    first. *)
Definition by_key_desc {A : Type} (key : A -> Q) (a b : A) : Q :=
  (key b - key a)%Q.


(** [arr.slice(0, n)] for a count [n]. *)
Definition slice0 {A : Type} (n : nat) (l : list A) : list A := firstn n l.

(** ** Fusion engine: [mergeAndRerankResults], in exact arithmetic *)

Module Fusion.

Record Entry : Type := mkEntry
  { result : SearchResult;
    rrfScore : Q }.

(** [Map<string, { result, rrfScore }>] in insertion order. *)
Definition ScoreMap : Type := list (string * Entry).

Fixpoint map_has (key : string) (m : ScoreMap) : bool :=
  match m with
  | [] => false
  | (k', _) :: m' => if String.eqb key k' then true else map_has key m'
  end.

Fixpoint map_get (key : string) (m : ScoreMap) : option Entry :=
  match m with
  | [] => None
  | (k', e) :: m' => if String.eqb key k' then Some e else map_get key m'
  end.

Fixpoint map_set (key : string) (e : Entry) (m : ScoreMap) : ScoreMap :=
  match m with
  | [] => [(key, e)]
  | (k', e') :: m' =>
      if String.eqb key k' then (k', e) :: m'
      else (k', e') :: map_set key e m'
  end.

Definition map_values (m : ScoreMap) : list Entry := List.map snd m.
Definition map_keys (m : ScoreMap) : list string := List.map fst m.

(** RRF constant. *)
Definition k : nat := 60.

(** [1 / (k + rank + 1)], not rounded. *)
Definition rrf (rank : nat) : Q :=
  (1 / inject_Z (Z.of_nat (k + rank + 1)))%Q.

(** Body of [vectorResults.forEach]. *)
Definition vector_step (r : SearchResult) (rank : nat) (scoreMap : ScoreMap)
  : ScoreMap :=
  map_set (id r) {| result := r; rrfScore := rrf rank |} scoreMap.

(** Body of [keywordResults.forEach]; [existing.rrfScore += rrfScore]
    mutates the object the map holds, in place. *)
Definition keyword_step (r : SearchResult) (rank : nat) (scoreMap : ScoreMap)
  : ScoreMap :=
  if map_has (id r) scoreMap then
    match map_get (id r) scoreMap with
    | Some existing =>
        map_set (id r)
          {| result := result existing;
             rrfScore := (rrfScore existing + rrf rank)%Q |} scoreMap
    | None => scoreMap
    end
  else map_set (id r) {| result := r; rrfScore := rrf rank |} scoreMap.

Definition accumulate (vectorResults keywordResults : list SearchResult)
  : ScoreMap :=
  forEach keyword_step keywordResults 0
    (forEach vector_step vectorResults 0 []).

(** [{ ...item.result, score: item.rrfScore }] *)
Definition with_score (item : Entry) : SearchResult :=
  {| id := id (result item);
     text := text (result item);
     score := rrfScore item;
     metadata := metadata (result item) |}.

Definition by_rrf_desc (a b : Entry) : Q := (rrfScore b - rrfScore a)%Q.

Definition mergeAndRerankResults
  (vectorResults keywordResults : list SearchResult) (topK : nat)
  : list SearchResult :=
  List.map with_score
    (slice0 topK
       (Array_sort by_rrf_desc
          (map_values (accumulate vectorResults keywordResults)))).

(** *** Vocabulary of the specification *)

(** Zero-based rank of a document in a ranked list: the position of the
    first candidate that bears the identifier. *)
Fixpoint rank_of (i : string) (l : list SearchResult) : option nat :=
  match l with
  | [] => None
  | r :: l' =>
      if String.eqb i (id r) then Some 0 else option_map S (rank_of i l')
  end.

(** Contribution of one list: [1 / (k + r + 1)] at rank [r], [0] when the
    document is absent. *)
Definition contribution (i : string) (l : list SearchResult) : Q :=
  match rank_of i l with
  | Some r => rrf r
  | None => 0%Q
  end.

(** The fused score in the specification's words: the sum of the
    contributions of the two lists. *)
Definition spec_fused_score (i : string) (v kw : list SearchResult) : Q :=
  (contribution i v + contribution i kw)%Q.

(** Sum of [1 / (k + r + 1)] over every rank [r] at which the document
    occurs in a list whose head has rank [rank]. *)
Fixpoint occurrences_sum (i : string) (l : list SearchResult) (rank : nat)
  : Q :=
  match l with
  | [] => 0%Q
  | r :: l' =>
      ((if String.eqb i (id r) then rrf rank else 0)
       + occurrences_sum i l' (S rank))%Q
  end.

(** First candidate of a list that bears the identifier. *)
Fixpoint first_seen (i : string) (l : list SearchResult)
  : option SearchResult :=
  match l with
  | [] => None
  | r :: l' => if String.eqb i (id r) then Some r else first_seen i l'
  end.

(** Position of the first occurrence of a key, the length when absent. *)
Fixpoint index_of (key : string) (l : list string) : nat :=
  match l with
  | [] => 0
  | x :: l' => if String.eqb key x then 0 else S (index_of key l')
  end.

(** Order of insertion into the accumulator: vector candidates first, then
    keyword candidates, each in list order. *)
Definition insertion_index (i : string) (v kw : list SearchResult) : nat :=
  index_of i (List.map id v ++ List.map id kw).

(** [r] is [c] with only the score field changed. *)
Definition same_payload (r c : SearchResult) : Prop :=
  id r = id c /\ text r = text c /\ metadata r = metadata c.

(** What [mergeAndRerankResults] holds before [slice]: the sorted values
    of the accumulator, rescored. *)
Definition fuse_all (v kw : list SearchResult) : list SearchResult :=
  List.map with_score
    (Array_sort by_rrf_desc (map_values (accumulate v kw))).

(** *** Invariants of the accumulator *)

(** Every entry is stored under the identifier of its own candidate. *)
Definition keyed (m : ScoreMap) : Prop :=
  Forall (fun p => id (result (snd p)) = fst p) m.

Definition well_formed (m : ScoreMap) : Prop :=
  NoDup (map_keys m) /\ keyed m.

(** The keys [ks] list the distinct elements of [L] in the order of their
    first occurrence. *)
Definition order_agrees (ks L : list string) : Prop :=
  NoDup ks /\
  (forall a, In a ks <-> In a L) /\
  (forall a b, In a L -> In b L ->
     (index_of a ks < index_of b ks <-> index_of a L < index_of b L)).

(** Position of an entry among the accumulator's keys. *)
Definition position (m : ScoreMap) (e : Entry) : nat :=
  index_of (id (result e)) (map_keys m).

(** By fused score, descending; among equal scores by position. *)
Definition lex_before (pos : Entry -> nat) (a b : Entry) : Prop :=
  (rrfScore b < rrfScore a)%Q \/
  ((rrfScore a == rrfScore b)%Q /\ pos a < pos b).

(** Two accumulators hold the same keys with the same scores. *)
Definition same_ranking (m m' : ScoreMap) : Prop :=
  Forall2 (fun p p' => fst p = fst p' /\ rrfScore (snd p) = rrfScore (snd p'))
    m m'.

Definition same_rank_entry (e e' : Entry) : Prop :=
  id (result e) = id (result e') /\ rrfScore e = rrfScore e'.

(** *** Further vocabulary *)


(** The accumulator entries of a ranked list of fresh identifiers. *)
Fixpoint ranked_entries (l : list SearchResult) (rank : nat) : ScoreMap :=
  match l with
  | [] => []
  | r :: l' =>
      (id r, {| result := r; rrfScore := rrf rank |})
        :: ranked_entries l' (S rank)
  end.

(** The distinct document identifiers of the two lists. *)
Definition distinct_ids (v kw : list SearchResult) : list string :=
  nodup string_dec (List.map id v ++ List.map id kw).

End Fusion.

(** Candidates used in the worked scenarios. *)
Module FusionExamples.
Open Scope string_scope.

Definition md : Metadata :=
  {| protocol := "Aave"; impact := "HIGH"; title := "Reentrancy in withdraw";
     section := "description"; source_link := "https://example.org/1";
     firm := "Trail" |}.

Definition D1 : SearchResult :=
  {| id := "D1"; text := "first document"; score := 9 # 10; metadata := md |}.

Definition D2 : SearchResult :=
  {| id := "D2"; text := "second document"; score := 8 # 10; metadata := md |}.

(** [D2] as the keyword channel reports it. *)
Definition D2_kw : SearchResult :=
  {| id := "D2"; text := "second document"; score := 3 # 10; metadata := md |}.

(** Two chunks of one document: same identifier, different text. *)
Definition D1_a : SearchResult :=
  {| id := "D1"; text := "chunk a"; score := 9 # 10; metadata := md |}.

Definition D1_b : SearchResult :=
  {| id := "D1"; text := "chunk b"; score := 8 # 10; metadata := md |}.

End FusionExamples.

(** ** The fusion engine in binary64 arithmetic

    [Fusion] computes the scores with exact rationals, which is what the
    formulas of the specification speak of.  The code computes them in
    binary64: [1 / (k + rank + 1)], [+=] and the comparator's [-] each
    round their result.  Two sums that are equal as rationals can differ as
    doubles, and then the sort orders them by the doubles.  [Fusion64] is
    the same function with every arithmetic operation rounded; statements
    about which of two documents comes first are made of it. *)

Module Binary64.

(** A finite double is the rational it denotes.  [round] is rounding to
    nearest, ties to even, at 53 significant bits.  The exponent range is
    not bounded: an array has fewer than [2 ^ 32] elements, so every value
    the fusion computes lies well inside the normal range. *)

(** [n / d * 2 ^ s] as a fraction of integers, for either sign of [s]. *)
Definition scaled (n d s : Z) : Z * Z :=
  (n * 2 ^ Z.max s 0, d * 2 ^ Z.max (- s) 0)%Z.

(** The exponent [e] with [2 ^ e <= n / d < 2 ^ (e + 1)]. *)
Definition exponent (n d : Z) : Z :=
  let e0 := (Z.log2 n - Z.log2 d)%Z in
  let (N, D) := scaled n d (- e0) in
  if (D <=? N)%Z then e0 else (e0 - 1)%Z.

(** The integer nearest to [N / D], the even one of two. *)
Definition nearest_even (N D : Z) : Z :=
  let q := (N / D)%Z in
  let r := (N mod D)%Z in
  match (2 * r ?= D)%Z with
  | Lt => q
  | Gt => (q + 1)%Z
  | Eq => if Z.even q then q else (q + 1)%Z
  end.

(** [n / d] rounded to 53 significant bits: an integer of 53 bits times a
    power of two. *)
Definition round_pos (n d : Z) : Q :=
  let s := (52 - exponent n d)%Z in
  let (N, D) := scaled n d s in
  Qred (Qmake (nearest_even N D * 2 ^ Z.max (- s) 0)
              (Z.to_pos (2 ^ Z.max s 0))).

Definition round (x : Q) : Q :=
  match Qnum x with
  | Z0 => 0%Q
  | Zpos n => round_pos (Zpos n) (Zpos (Qden x))
  | Zneg n => Qopp (round_pos (Zpos n) (Zpos (Qden x)))
  end.

(** The operators [+], [-] and [/] on doubles. *)
Definition add (x y : Q) : Q := round (x + y).
Definition sub (x y : Q) : Q := round (x - y).
Definition div (x y : Q) : Q := round (x / y).

End Binary64.

Module Fusion64.
Import Fusion.

(** [1 / (k + rank + 1)] *)
Definition rrf (rank : nat) : Q :=
  Binary64.div 1
    (Binary64.add (Binary64.add (number k) (number rank)) 1).

(** Body of [vectorResults.forEach]. *)
Definition vector_step (r : SearchResult) (rank : nat) (scoreMap : ScoreMap)
  : ScoreMap :=
  map_set (id r) {| result := r; rrfScore := rrf rank |} scoreMap.

(** Body of [keywordResults.forEach]. *)
Definition keyword_step (r : SearchResult) (rank : nat) (scoreMap : ScoreMap)
  : ScoreMap :=
  if map_has (id r) scoreMap then
    match map_get (id r) scoreMap with
    | Some existing =>
        map_set (id r)
          {| result := result existing;
             rrfScore := Binary64.add (rrfScore existing) (rrf rank) |}
          scoreMap
    | None => scoreMap
    end
  else map_set (id r) {| result := r; rrfScore := rrf rank |} scoreMap.

Definition accumulate (vectorResults keywordResults : list SearchResult)
  : ScoreMap :=
  forEach keyword_step keywordResults 0
    (forEach vector_step vectorResults 0 []).

(** [(a, b) => b.rrfScore - a.rrfScore] *)
Definition by_rrf_desc (a b : Entry) : Q :=
  Binary64.sub (rrfScore b) (rrfScore a).

Definition mergeAndRerankResults
  (vectorResults keywordResults : list SearchResult) (topK : nat)
  : list SearchResult :=
  List.map with_score
    (slice0 topK
       (Array_sort by_rrf_desc
          (map_values (accumulate vectorResults keywordResults)))).

(** Two accumulators hold the same keys with the same candidates; the
    scores may differ. *)
Definition same_entries (m m' : ScoreMap) : Prop :=
  Forall2 (fun p p' => fst p = fst p' /\ result (snd p) = result (snd p'))
    m m'.

(** *** The fusion in the specification's words (section 4.4), with the
    arithmetic of the code *)

(** The fused score of a document: its contribution [1 / (k + r + 1)] at
    its rank [r] in the vector list plus its contribution in the keyword
    list, a list it is absent from contributing nothing. *)
Definition spec_fused_score (i : string) (v kw : list SearchResult) : Q :=
  match rank_of i v, rank_of i kw with
  | Some a, Some b => Binary64.add (rrf a) (rrf b)
  | Some a, None => rrf a
  | None, Some b => rrf b
  | None, None => 0%Q
  end.

(** A result keeps the text and metadata of the first candidate of its
    document, the vector list read first. *)
Definition keeps_first_seen (v kw : list SearchResult) (r : SearchResult)
  : Prop :=
  exists c, first_seen (id r) (v ++ kw) = Some c /\ same_payload r c.

(** Before [y]: a higher fused score, or the same score and an earlier
    insertion (vector candidates first, then keyword candidates, each in
    list order). *)
Definition ranks_before (v kw : list SearchResult) (x y : SearchResult)
  : Prop :=
  (score y < score x)%Q \/
  ((score x == score y)%Q /\
   insertion_index (id x) v kw < insertion_index (id y) v kw).

(** [out] is the fusion of [v] and [kw] truncated to [topK]: the first
    [topK] entries of the list [full] that holds every document of the two
    lists exactly once, each with the payload of its first-seen candidate
    and its fused score, ordered by [ranks_before]. *)
Definition is_rrf_fusion (v kw : list SearchResult) (topK : nat)
  (out : list SearchResult) : Prop :=
  exists full,
    out = firstn topK full /\
    NoDup (List.map id full) /\
    (forall i, In i (List.map id full) <->
               In i (List.map id v ++ List.map id kw)) /\
    Forall
      (fun r => keeps_first_seen v kw r /\
                (score r == spec_fused_score (id r) v kw)%Q)
      full /\
    StronglySorted (ranks_before v kw) full.

End Fusion64.

(** Two ranked lists on which rounding decides the order: the document
    [v27] sits at vector rank 27 and keyword rank 11, the document [v38] at
    vector rank 38 and keyword rank 5, and [1/88 + 1/72 = 1/99 + 1/66]. *)
Module Fusion64Examples.

Definition candidate (tag : string) (n : nat) : SearchResult :=
  {| id := (tag ++ String (ascii_of_nat (48 + n)) EmptyString)%string;
     text := EmptyString;
     score := 0%Q;
     metadata := FusionExamples.md |}.

Definition vector_list : list SearchResult :=
  List.map (candidate "v") (seq 0 39).

Definition keyword_list : list SearchResult :=
  List.map
    (fun n =>
       if n =? 5 then candidate "v" 38
       else if n =? 11 then candidate "v" 27
       else candidate "k" n)
    (seq 0 12).

End Fusion64Examples.

(** ** Stored documents ([data/src/models/audit-finding.model.ts]) *)

Definition Embedding : Type := list Q.

Module Chunk.
Record Metadata : Type := mkMetadata
  { section : string;
    impact : string;
    protocol : string }.

Record IChunk : Type := mkIChunk
  { text : string;
    embedding : option Embedding;
    chunk_index : nat;
    metadata : Metadata }.
End Chunk.

Module Finding.
(** The fields of [IAuditFinding] the retrieval pipelines read; [_id] is the
    store's document identifier, [chunks] is optional. *)
Record IAuditFinding : Type := mkIAuditFinding
  { _id : string;
    impact : string;
    title : string;
    content : string;
    summary : string;
    source_link : string;
    firm_name : string;
    protocol_name : string;
    chunks : option (list Chunk.IChunk) }.
End Finding.

(** ** Aggregation stages the retrievers use *)

Module Mongo.

(** The [$vectorSearch] stage object. *)
Record VectorSearch : Type := mkVectorSearch
  { index : string;
    path : string;
    queryVector : Embedding;
    numCandidates : nat;
    limit : nat }.

(** The collaborators: the embedding provider, the similarity index (the
    documents nearest to the query vector, best first, each with its
    [vectorSearchScore]), the collection, and the text index (the
    [textScore] of a document that matches the query). *)
Record Store : Type := mkStore
  { generateEmbedding : string -> Embedding;
    nearest : VectorSearch -> list (Finding.IAuditFinding * Q);
    collection : list Finding.IAuditFinding;
    textScore : string -> Finding.IAuditFinding -> option Q }.

(** A document in flight: the stored document, its [chunks] field (an
    array as stored, or what [$unwind] left of it), the [$meta] score of
    the search stage, and the field [score] once [$addFields] has set it. *)
Record Row (C S : Type) : Type := mkRow
  { r_doc : Finding.IAuditFinding;
    r_chunks : C;
    r_meta : Q;
    r_score : S }.

Arguments mkRow {C S} _ _ _ _.
Arguments r_doc {C S} _.
Arguments r_chunks {C S} _.
Arguments r_meta {C S} _.
Arguments r_score {C S} _.

Definition Stored : Type := option (list Chunk.IChunk).

(** [{ $vectorSearch: spec }]: at most [limit] documents. *)
Definition vectorSearch (st : Store) (spec : VectorSearch)
  : list (Row Stored unit) :=
  List.map (fun hit => mkRow (fst hit) (Finding.chunks (fst hit)) (snd hit) tt)
    (firstn (limit spec) (nearest st spec)).

(** The conditions object of a [$match] stage: [$text] search and [$in]
    allow-lists, each present or not. *)
Record MatchConditions : Type := mkMatchConditions
  { mc_text : option string;
    mc_impact : option (list string);
    mc_protocol_name : option (list string);
    mc_firm_name : option (list string) }.

Definition mem (x : string) (l : list string) : bool :=
  existsb (String.eqb x) l.

(** [{ field: { $in: allowed } }], when the condition is present. *)
Definition holds_in (cond : option (list string)) (value : string) : bool :=
  match cond with
  | Some allowed => mem value allowed
  | None => true
  end.

Definition matches_fields (c : MatchConditions) (d : Finding.IAuditFinding)
  : bool :=
  holds_in (mc_impact c) (Finding.impact d)
  && holds_in (mc_protocol_name c) (Finding.protocol_name d)
  && holds_in (mc_firm_name c) (Finding.firm_name d).

(** [{ $match: c }] on documents in flight ([c] without [$text]). *)
Definition match_stage {C S : Type} (c : MatchConditions)
  (rows : list (Row C S)) : list (Row C S) :=
  filter (fun r => matches_fields c (r_doc r)) rows.

(** [{ $match: c }] as first stage, with [$text]: the documents of the
    collection that match the query and the other conditions, each with its
    [textScore]. *)
Definition match_text (st : Store) (c : MatchConditions)
  : list (Row Stored unit) :=
  flat_map
    (fun d =>
       match mc_text c with
       | Some q =>
           match textScore st q d with
           | Some s =>
               if matches_fields c d
               then [mkRow d (Finding.chunks d) s tt]
               else []
           | None => []
           end
       | None => []
       end)
    (collection st).

(** [{ $addFields: { score: { $meta: ... } } }] *)
Definition addFields_score {C : Type} (rows : list (Row C unit))
  : list (Row C Q) :=
  List.map (fun r => mkRow (r_doc r) (r_chunks r) (r_meta r) (r_meta r)) rows.

(** [{ $unwind: '$chunks' }]: one row per chunk; a document without chunks
    is dropped. *)
Definition unwind {S : Type} (rows : list (Row Stored S))
  : list (Row Chunk.IChunk S) :=
  flat_map
    (fun r =>
       List.map (fun c => mkRow (r_doc r) c (r_meta r) (r_score r))
         (withDefault [] (r_chunks r)))
    rows.

(** [{ $unwind: { path: '$chunks', preserveNullAndEmptyArrays: true } }]:
    a document without chunks is kept, without the field. *)
Definition unwind_preserve {S : Type} (rows : list (Row Stored S))
  : list (Row (option Chunk.IChunk) S) :=
  flat_map
    (fun r =>
       match withDefault [] (r_chunks r) with
       | [] => [mkRow (r_doc r) None (r_meta r) (r_score r)]
       | cs =>
           List.map (fun c => mkRow (r_doc r) (Some c) (r_meta r) (r_score r))
             cs
       end)
    rows.

(** [{ $match: { score: { $gte: minScore } } }] *)
Definition match_score_gte {C : Type} (minScore : Q) (rows : list (Row C Q))
  : list (Row C Q) :=
  filter (fun r => Qle_bool minScore (r_score r)) rows.

(** [{ $sort: { score: -1 } }]: rows of equal score are left in pipeline
    order here; the store promises no order among them. *)
Definition sort_score_desc {C : Type} (rows : list (Row C Q))
  : list (Row C Q) :=
  Array_sort (by_key_desc r_score) rows.

(** [{ $limit: n }] *)
Definition limit_stage {A : Type} (n : nat) (rows : list A) : list A :=
  firstn n rows.

(** [$ifNull: [e, fallback]] *)
Definition ifNull {A : Type} (e : option A) (fallback : A) : A :=
  match e with
  | Some a => a
  | None => fallback
  end.

End Mongo.

(** ** Retrievers and orchestrator ([VectorSearchService]) *)

Module Retrieval.
Import Mongo.

Definition no_filters : Filters :=
  {| f_impact := None; f_protocol := None; f_firm := None |}.

(** [if (filters.x?.length) matchConditions.y = { $in: filters.x }] *)
Definition in_condition (allow : option (list string))
  : option (list string) :=
  match allow with
  | Some (x :: l) => Some (x :: l)
  | _ => None
  end.

Definition filter_conditions (f : Filters) : MatchConditions :=
  {| mc_text := None;
     mc_impact := in_condition (f_impact f);
     mc_protocol_name := in_condition (f_protocol f);
     mc_firm_name := in_condition (f_firm f) |}.

(** [Object.keys(matchConditions).length > 0] *)
Definition has_conditions (c : MatchConditions) : bool :=
  match mc_text c, mc_impact c, mc_protocol_name c, mc_firm_name c with
  | None, None, None, None => false
  | _, _, _, _ => true
  end.

Definition buildFilterStages (f : option Filters) : list MatchConditions :=
  match f with
  | None => []
  | Some f =>
      let matchConditions := filter_conditions f in
      if has_conditions matchConditions then [matchConditions] else []
  end.

Definition run_match_stages {C S : Type} (stages : list MatchConditions)
  (rows : list (Row C S)) : list (Row C S) :=
  fold_left (fun rows c => match_stage c rows) stages rows.

(** The [$vectorSearch] stage of [search]. *)
Definition search_stage (queryEmbedding : Embedding) (topK : nat)
  : VectorSearch :=
  {| index := "audit_findings_vector_index";
     path := "chunks.embedding";
     queryVector := queryEmbedding;
     numCandidates := topK * 10;
     limit := topK |}.

(** The [$project] stage of [search]. *)
Definition project_search (r : Row Chunk.IChunk Q) : SearchResult :=
  {| id := Finding._id (r_doc r);
     text := Chunk.text (r_chunks r);
     score := r_score r;
     metadata :=
       {| protocol := Finding.protocol_name (r_doc r);
          impact := Finding.impact (r_doc r);
          title := Finding.title (r_doc r);
          section := Chunk.section (Chunk.metadata (r_chunks r));
          source_link := Finding.source_link (r_doc r);
          firm := Finding.firm_name (r_doc r) |} |}.

Definition search (st : Store) (query : string) (options : SearchOptions)
  : list SearchResult :=
  let topK := withDefault 5 (topK options) in
  let minScore := withDefault (7 # 10)%Q (minScore options) in
  let filters := withDefault no_filters (filters options) in
  let queryEmbedding := generateEmbedding st query in
  let rows := vectorSearch st (search_stage queryEmbedding topK) in
  let rows := unwind rows in
  let rows := addFields_score rows in
  let rows := run_match_stages (buildFilterStages (Some filters)) rows in
  let rows := match_score_gte minScore rows in
  let rows := sort_score_desc rows in
  let results := List.map project_search rows in
  limit_stage topK results.

(** The conditions object [keywordSearch] builds. *)
Definition keyword_conditions (query : string) (f : Filters)
  : MatchConditions :=
  {| mc_text := Some query;
     mc_impact := in_condition (f_impact f);
     mc_protocol_name := in_condition (f_protocol f);
     mc_firm_name := in_condition (f_firm f) |}.

(** The [$project] stage of [keywordSearch]. *)
Definition project_keyword (r : Row (option Chunk.IChunk) Q) : SearchResult :=
  {| id := Finding._id (r_doc r);
     text := ifNull (option_map Chunk.text (r_chunks r))
               (Finding.summary (r_doc r));
     score := (r_score r / 10)%Q;
     metadata :=
       {| protocol := Finding.protocol_name (r_doc r);
          impact := Finding.impact (r_doc r);
          title := Finding.title (r_doc r);
          section :=
            ifNull
              (option_map (fun c => Chunk.section (Chunk.metadata c))
                 (r_chunks r))
              "summary"%string;
          source_link := Finding.source_link (r_doc r);
          firm := Finding.firm_name (r_doc r) |} |}.

Definition keywordSearch (st : Store) (query : string)
  (options : SearchOptions) : list SearchResult :=
  let topK := withDefault 5 (topK options) in
  let filters := withDefault no_filters (filters options) in
  let matchConditions := keyword_conditions query filters in
  let rows := match_text st matchConditions in
  let rows := addFields_score rows in
  let rows := sort_score_desc rows in
  let rows := limit_stage topK rows in
  let rows := unwind_preserve rows in
  List.map project_keyword rows.


(** The fusion runs in the arithmetic of the code. *)
Definition hybridSearch (st : Store) (query : string)
  (options : SearchOptions) : list SearchResult :=
  let topK := withDefault 5 (topK options) in
  let vectorResults :=
    search st query
      {| topK := Some (Math_ceil (number topK * (15 # 10)));
         minScore := minScore options;
         filters := filters options |} in
  let keywordResults := keywordSearch st query options in
  Fusion64.mergeAndRerankResults vectorResults keywordResults topK.

(** *** Further vocabulary *)

(** A value passes an allow-list that is absent or empty, and otherwise
    must be one of its elements. *)
Definition allowed (allow : option (list string)) (value : string) : Prop :=
  match allow with
  | Some (x :: l) => In value (x :: l)
  | _ => True
  end.

(** A candidate's metadata passes the three allow-lists. *)
Definition satisfies (f : Filters) (m : Metadata) : Prop :=
  allowed (f_impact f) (impact m) /\
  allowed (f_protocol f) (protocol m) /\
  allowed (f_firm f) (firm m).

(** No allow-list constrains anything. *)
Definition unconstrained (f : Filters) : Prop :=
  in_condition (f_impact f) = None /\
  in_condition (f_protocol f) = None /\
  in_condition (f_firm f) = None.

(** The options [hybridSearch] passes to the vector retriever. *)
Definition fan_out (options : SearchOptions) : SearchOptions :=
  {| topK :=
       Some (Math_ceil (number (withDefault 5 (topK options)) * (15 # 10)));
     minScore := minScore options;
     filters := filters options |}.


(** *** The vector retriever in the specification's words (section 4.2) *)

(** What a candidate carries: one chunk's text and section, the parent
    document's metadata snapshot and the score of the hit. *)
Definition candidate (d : Finding.IAuditFinding) (s : Q) (c : Chunk.IChunk)
  : SearchResult :=
  {| id := Finding._id d;
     text := Chunk.text c;
     score := s;
     metadata :=
       {| protocol := Finding.protocol_name d;
          impact := Finding.impact d;
          title := Finding.title d;
          section := Chunk.section (Chunk.metadata c);
          source_link := Finding.source_link d;
          firm := Finding.firm_name d |} |}.




End Retrieval.

(** A small store used in the worked scenarios: one finding indexed as two
    chunks, one finding without chunk data. *)
Module RetrievalExamples.
Open Scope string_scope.

Definition chunk_a : Chunk.IChunk :=
  {| Chunk.text := "Withdraw sends ether before it updates the balance";
     Chunk.embedding := None;
     Chunk.chunk_index := 0;
     Chunk.metadata :=
       {| Chunk.section := "Description"; Chunk.impact := "HIGH";
          Chunk.protocol := "Aave" |} |}.

Definition chunk_b : Chunk.IChunk :=
  {| Chunk.text := "Update the balance first";
     Chunk.embedding := None;
     Chunk.chunk_index := 1;
     Chunk.metadata :=
       {| Chunk.section := "Recommendation"; Chunk.impact := "HIGH";
          Chunk.protocol := "Aave" |} |}.

Definition indexed_finding : Finding.IAuditFinding :=
  {| Finding._id := "F1";
     Finding.impact := "HIGH";
     Finding.title := "Reentrancy in withdraw";
     Finding.content := "**Description** Withdraw sends ether before it updates the balance. **Recommendation** Update the balance first.";
     Finding.summary := "Reentrancy in withdraw drains the pool";
     Finding.source_link := "https://example.org/F1";
     Finding.firm_name := "Trail";
     Finding.protocol_name := "Aave";
     Finding.chunks := Some [chunk_a; chunk_b] |}.

Definition bare_finding : Finding.IAuditFinding :=
  {| Finding._id := "F2";
     Finding.impact := "LOW";
     Finding.title := "Reentrancy guard missing in view";
     Finding.content := "A view function lacks the guard.";
     Finding.summary := "Missing reentrancy guard";
     Finding.source_link := "https://example.org/F2";
     Finding.firm_name := "Sigma";
     Finding.protocol_name := "Compound";
     Finding.chunks := None |}.

Definition store : Mongo.Store :=
  {| Mongo.generateEmbedding := fun _ => [1%Q; 0%Q];
     Mongo.nearest :=
       fun _ => [(indexed_finding, 9 # 10); (bare_finding, 8 # 10)];
     Mongo.collection := [bare_finding; indexed_finding];
     Mongo.textScore :=
       fun _ d =>
         if String.eqb (Finding._id d) "F1" then Some (4 # 1)
         else Some (2 # 1) |}.


(** A store whose index and collection are empty. *)
Definition empty_store : Mongo.Store :=
  {| Mongo.generateEmbedding := fun _ => [];
     Mongo.nearest := fun _ => [];
     Mongo.collection := [];
     Mongo.textScore := fun _ _ => None |}.

(** Two findings of one chunk each, as in the scenario of the
    specification: [S1] is the best vector hit and no text match, [S2] the
    second vector hit and the only text match. *)
Definition single_chunk (i text_ : string) : Finding.IAuditFinding :=
  {| Finding._id := i;
     Finding.impact := "HIGH";
     Finding.title := "Unchecked call";
     Finding.content := text_;
     Finding.summary := "Unchecked call";
     Finding.source_link := "https://example.org/S";
     Finding.firm_name := "Trail";
     Finding.protocol_name := "Aave";
     Finding.chunks :=
       Some [ {| Chunk.text := text_;
                 Chunk.embedding := None;
                 Chunk.chunk_index := 0;
                 Chunk.metadata :=
                   {| Chunk.section := "content"; Chunk.impact := "HIGH";
                      Chunk.protocol := "Aave" |} |} ] |}.

Definition scenario_store : Mongo.Store :=
  {| Mongo.generateEmbedding := fun _ => [1%Q; 0%Q];
     Mongo.nearest :=
       fun _ => [ (single_chunk "S1" "first document", 9 # 10);
                  (single_chunk "S2" "second document", 8 # 10) ];
     Mongo.collection :=
       [ single_chunk "S1" "first document";
         single_chunk "S2" "second document" ];
     Mongo.textScore :=
       fun _ d =>
         if String.eqb (Finding._id d) "S2" then Some (4 # 1) else None |}.

(** [options = {}] *)
Definition defaults : SearchOptions :=
  {| topK := None; minScore := None; filters := None |}.

Definition top1 : SearchOptions :=
  {| topK := Some 1; minScore := None; filters := None |}.

Definition high_only : SearchOptions :=
  {| topK := Some 2;
     minScore := None;
     filters :=
       Some {| f_impact := Some ["HIGH"; "CRITICAL"];
               f_protocol := None; f_firm := None |} |}.

End RetrievalExamples.

(** ** Chunker ([DocumentProcessor]) *)

Module Chunker.

(** *** Strings *)

(** The class [[.!?]]. *)
Definition is_terminal (c : ascii) : bool :=
  Ascii.eqb c "." || Ascii.eqb c "!" || Ascii.eqb c "?".

(** The class [\s], also the characters [trim] removes: tab, line feed,
    vertical tab, form feed, carriage return, space, no-break space. *)
Definition is_space (c : ascii) : bool :=
  Ascii.eqb c "009" || Ascii.eqb c "010" || Ascii.eqb c "011"
  || Ascii.eqb c "012" || Ascii.eqb c "013" || Ascii.eqb c " "
  || Ascii.eqb c "160".

Definition starts_with (p : ascii -> bool) (s : string) : bool :=
  match s with
  | String c _ => p c
  | EmptyString => false
  end.

(** [s.split(/[class]+/)]: the field under construction and the fields
    after it; a maximal run of separators ends a field. *)
Fixpoint split_fields (p : ascii -> bool) (s : string)
  : string * list string :=
  match s with
  | EmptyString => (EmptyString, [])
  | String c s' =>
      let (field, fields) := split_fields p s' in
      if p c then
        if starts_with p s' then (field, fields)
        else (EmptyString, field :: fields)
      else (String c field, fields)
  end.

Definition split (p : ascii -> bool) (s : string) : list string :=
  let (field, fields) := split_fields p s in field :: fields.

Fixpoint trimStart (s : string) : string :=
  match s with
  | EmptyString => EmptyString
  | String c s' => if is_space c then trimStart s' else s
  end.

Fixpoint trimEnd (s : string) : string :=
  match s with
  | EmptyString => EmptyString
  | String c s' =>
      let t := trimEnd s' in
      if is_space c && (String.length t =? 0) then EmptyString
      else String c t
  end.

Definition trim (s : string) : string := trimEnd (trimStart s).

(** [arr.join(sep)] *)
Definition join (sep : string) (l : list string) : string :=
  String.concat sep l.

(** *** Sentences and token estimates *)

Definition maxChunkSize : nat := 512.
Definition chunkOverlap : nat := 50.

Definition splitIntoSentences (text : string) : list string :=
  filter (fun s => 0 <? String.length s)
    (List.map trim (split is_terminal text)).

Definition estimateTokens (text : string) : nat :=
  Math_ceil (number (List.length (split is_space text)) * (13 # 10)).

(** The loop of [getOverlapSentences], from the last sentence backward:
    [break] at the first sentence that would exceed the budget, [unshift]
    otherwise. *)
Fixpoint overlap_loop (backward : list string) (overlapSize : nat)
  (overlap : list string) : list string :=
  match backward with
  | [] => overlap
  | sentence :: backward' =>
      let sentenceSize := estimateTokens sentence in
      if chunkOverlap <? overlapSize + sentenceSize then overlap
      else overlap_loop backward' (overlapSize + sentenceSize)
             (sentence :: overlap)
  end.

Definition getOverlapSentences (sentences : list string) : list string :=
  overlap_loop (rev sentences) 0 [].

(** *** [chunkText] *)

Record ChunkState : Type := mkChunkState
  { chunks : list string;
    currentChunk : list string;
    currentSize : nat }.

(** One iteration of [for (const sentence of sentences)]. *)
Definition chunk_step (st : ChunkState) (sentence : string) : ChunkState :=
  let sentenceSize := estimateTokens sentence in
  let st :=
    if (maxChunkSize <? currentSize st + sentenceSize)
       && (0 <? List.length (currentChunk st))
    then
      let overlapSentences := getOverlapSentences (currentChunk st) in
      {| chunks := chunks st ++ [join " " (currentChunk st)];
         currentChunk := overlapSentences;
         currentSize := estimateTokens (join " " overlapSentences) |}
    else st in
  {| chunks := chunks st;
     currentChunk := currentChunk st ++ [sentence];
     currentSize := currentSize st + sentenceSize |}.

Definition chunkText (text : string) : list string :=
  let sentences := splitIntoSentences text in
  let st := fold_left chunk_step sentences
              {| chunks := []; currentChunk := []; currentSize := 0 |} in
  if 0 <? List.length (currentChunk st)
  then chunks st ++ [join " " (currentChunk st)]
  else chunks st.

(** The same loop, keeping every chunk as the list of sentences it joins:
    [group_loop sentences currentChunk currentSize] are the chunks still to
    be pushed. *)
Fixpoint group_loop (sentences : list string) (currentChunk : list string)
  (currentSize : nat) : list (list string) :=
  match sentences with
  | [] => if 0 <? List.length currentChunk then [currentChunk] else []
  | sentence :: sentences' =>
      let sentenceSize := estimateTokens sentence in
      if (maxChunkSize <? currentSize + sentenceSize)
         && (0 <? List.length currentChunk)
      then
        let overlapSentences := getOverlapSentences currentChunk in
        currentChunk
          :: group_loop sentences' (overlapSentences ++ [sentence])
               (estimateTokens (join " " overlapSentences) + sentenceSize)
      else
        group_loop sentences' (currentChunk ++ [sentence])
          (currentSize + sentenceSize)
  end.

Definition chunkGroups (sentences : list string) : list (list string) :=
  group_loop sentences [] 0.

(** *** Sections *)

Record Section_ : Type := mkSection
  { name : string;
    content : string }.

Definition is_star (c : ascii) : bool := Ascii.eqb c "*".

(** The longest prefix without [*], and what follows it. *)
Fixpoint span_not_star (s : string) : string * string :=
  match s with
  | EmptyString => (EmptyString, EmptyString)
  | String c s' =>
      if is_star c then (EmptyString, s)
      else let (run, rest) := span_not_star s' in (String c run, rest)
  end.

(** A match of [/\*\*([^*]+)\*\*/] at the head of [s]: the captured group
    and the length of the match. *)
Definition match_header (s : string) : option (string * nat) :=
  match s with
  | String a (String b s') =>
      if is_star a && is_star b then
        let (captured, rest) := span_not_star s' in
        match captured, rest with
        | String _ _, String c (String d _) =>
            if is_star c && is_star d
            then Some (captured, 2 + String.length captured + 2)
            else None
        | _, _ => None
        end
      else None
  | _ => None
  end.

(** [content.split(/\*\*([^*]+)\*\*/g)]: the part under construction and
    what follows it (captured group, part, captured group, part, ...);
    [skip] characters of a match remain to be passed over. *)
Fixpoint split_headers (s : string) (skip : nat) : string * list string :=
  match s with
  | EmptyString => (EmptyString, [])
  | String c s' =>
      match skip with
      | S n => split_headers s' n
      | O =>
          match match_header s with
          | Some (captured, len) =>
              let (part, parts) := split_headers s' (len - 1) in
              (EmptyString, captured :: part :: parts)
          | None =>
              let (part, parts) := split_headers s' 0 in
              (String c part, parts)
          end
      end
  end.

(** The loop [for (let i = 1; i < parts.length; i += 2)] over
    [parts[1], parts[2], ...]. *)
Fixpoint sections_loop (parts : list string) : list Section_ :=
  match parts with
  | sectionName :: sectionContent :: parts' =>
      let sectionContent := trim sectionContent in
      if 0 <? String.length sectionContent
      then {| name := trim sectionName; content := sectionContent |}
             :: sections_loop parts'
      else sections_loop parts'
  | _ => []
  end.

Definition extractSections (content : string) : list Section_ :=
  let (_, parts) := split_headers content 0 in
  let sections := sections_loop parts in
  match sections with
  | [] => [{| name := "content"; content := content |}]
  | _ => sections
  end.

(** *** Chunks of a finding *)

Record ChunkMetadata : Type := mkChunkMetadata
  { section : string;
    impact : string;
    protocol : string;
    firm : string;
    title : string;
    source_link : string }.

Record ProcessedChunk : Type := mkProcessedChunk
  { text : string;
    chunk_index : nat;
    metadata : ChunkMetadata }.

Definition newline : string := String "010" EmptyString.

(** The prefix [enrichChunkContext] renders. *)
Definition context_prefix (finding : Finding.IAuditFinding)
  (section : string) : string :=
  join newline
    [ "Protocol: " ++ Finding.protocol_name finding;
      "Issue: " ++ Finding.title finding;
      "Impact: " ++ Finding.impact finding;
      "Section: " ++ section;
      "Audit Firm: " ++ Finding.firm_name finding;
      "" ]%string.

Definition enrichChunkContext (chunk : string)
  (finding : Finding.IAuditFinding) (section : string) : string :=
  (context_prefix finding section ++ chunk)%string.

(** Body of [sectionChunks.forEach]: [chunks.push(...)]. *)
Definition push_chunk (finding : Finding.IAuditFinding) (sec : Section_)
  (chunks : list ProcessedChunk) (chunk : string) : list ProcessedChunk :=
  chunks ++
  [ {| text := enrichChunkContext chunk finding (name sec);
       chunk_index := List.length chunks;
       metadata :=
         {| section := name sec;
            impact := Finding.impact finding;
            protocol := Finding.protocol_name finding;
            firm := Finding.firm_name finding;
            title := Finding.title finding;
            source_link := Finding.source_link finding |} |} ].

Definition processAuditFinding (finding : Finding.IAuditFinding)
  : list ProcessedChunk :=
  let sections := extractSections (Finding.content finding) in
  fold_left
    (fun chunks sec =>
       let sectionChunks := chunkText (content sec) in
       fold_left (push_chunk finding sec) sectionChunks chunks)
    sections [].

(** *** Vocabulary of the specification *)

(** Cumulative estimated-token size of a set of sentences. *)
Definition total_tokens (sentences : list string) : nat :=
  list_sum (List.map estimateTokens sentences).

(** The sentences a chunk adds to the overlap it starts with. *)
Definition fresh_part (previous group : list string) : list string :=
  skipn (List.length (getOverlapSentences previous)) group.

Fixpoint fresh_parts (previous : list string) (groups : list (list string))
  : list (list string) :=
  match groups with
  | [] => []
  | g :: groups' => fresh_part previous g :: fresh_parts g groups'
  end.

(** The chunks read in order, each without its overlap. *)
Definition reconstruct (groups : list (list string)) : list string :=
  match groups with
  | [] => []
  | g :: groups' => g ++ List.concat (fresh_parts g groups')
  end.

(** [g'] starts with the overlap of [g] and adds at least one sentence. *)
Definition continues (g g' : list string) : Prop :=
  exists fresh, fresh <> [] /\ g' = getOverlapSentences g ++ fresh.

(** Each chunk continues the one before it. *)
Fixpoint chained (g : list string) (groups : list (list string)) : Prop :=
  match groups with
  | [] => True
  | g' :: groups' => continues g g' /\ chained g' groups'
  end.

(** [g] is a run of consecutive elements of [l]. *)
Definition infix (g l : list string) : Prop :=
  exists before after, l = before ++ g ++ after.

(** Every character of the body occurs in some chunk: the least that "no
    text of the body is missing" asks. *)
Definition occurs (c : ascii) (s : string) : Prop :=
  In c (list_ascii_of_string s).

Definition covers (body : string) (chunk_bodies : list string) : Prop :=
  forall c, occurs c body -> exists chunk, In chunk chunk_bodies /\ occurs c chunk.

(** The chunk bodies of a finding, section by section, in order. *)
Definition section_bodies (sections : list Section_)
  : list (Section_ * string) :=
  flat_map (fun sec => List.map (pair sec) (chunkText (content sec)))
    sections.

(** The chunk bodies rendered as chunks numbered from [n]. *)
Fixpoint numbered (finding : Finding.IAuditFinding) (n : nat)
  (bodies : list (Section_ * string)) : list ProcessedChunk :=
  match bodies with
  | [] => []
  | (sec, body) :: bodies' =>
      {| text := enrichChunkContext body finding (name sec);
         chunk_index := n;
         metadata :=
           {| section := name sec;
              impact := Finding.impact finding;
              protocol := Finding.protocol_name finding;
              firm := Finding.firm_name finding;
              title := Finding.title finding;
              source_link := Finding.source_link finding |} |}
        :: numbered finding (S n) bodies'
  end.

(** The chunk body left when the rendered header is stripped. *)
Definition strip_header (finding : Finding.IAuditFinding)
  (chunk : ProcessedChunk) : string :=
  let prefix := context_prefix finding (section (metadata chunk)) in
  substring (String.length prefix)
    (String.length (text chunk) - String.length prefix) (text chunk).

(** *** Further vocabulary *)

(** No character of the string is in the class. *)
Definition free_of (p : ascii -> bool) (s : string) : Prop :=
  forall c, occurs c s -> p c = false.

(** The section [extractSections] falls back to. *)
Definition whole_content (content : string) : Section_ :=
  {| name := "content"; content := content |}.

(** The captured groups among the parts that follow the first part of a
    [split]: every other one, starting with the first. *)
Fixpoint captured_groups (parts : list string) : list string :=
  match parts with
  | captured :: _ :: parts' => captured :: captured_groups parts'
  | _ => []
  end.

(** A chunk within the maximum size, or one new sentence after a seed of at
    most the overlap budget. *)
Definition bounded_chunk (g : list string) : Prop :=
  estimateTokens (join " " g) <= maxChunkSize \/
  exists seed s, g = seed ++ [s] /\ total_tokens seed <= chunkOverlap.

(** The running size is at least the estimate of the current chunk, and
    exceeds the maximum only right after a single sentence was added to a
    seed. *)
Definition measured (cur : list string) (size : nat) : Prop :=
  (cur <> [] -> estimateTokens (join " " cur) <= size) /\
  (size <= maxChunkSize \/
   exists seed s, cur = seed ++ [s] /\ total_tokens seed <= chunkOverlap).


(** What [splitIntoSentences] does not keep: terminal punctuation and white
    space. *)
Definition is_filler (c : ascii) : bool := is_terminal c || is_space c.

Fixpoint all_fillers (s : string) : bool :=
  match s with
  | EmptyString => true
  | String c s' => is_filler c && all_fillers s'
  end.

(** [woven body sentences]: the body is the sentences in their order, each
    character of every sentence kept, with nothing but terminal punctuation
    and white space before, between and after them. *)
Inductive woven : string -> list string -> Prop :=
| woven_end (gap : string) :
    all_fillers gap = true -> woven gap []
| woven_sentence (gap sentence rest : string) (sentences : list string) :
    all_fillers gap = true ->
    woven rest sentences ->
    woven (gap ++ sentence ++ rest) (sentence :: sentences).

(** The fields of a split that [splitIntoSentences] keeps: trimmed, the
    empty ones dropped. *)
Definition kept (fields : list string) : list string :=
  filter (fun s => 0 <? String.length s) (List.map trim fields).

(** The header [enrichChunkContext] renders, followed by the body. *)
Definition rendered (finding : Finding.IAuditFinding)
  (body : Section_ * string) : string :=
  (context_prefix finding (name (fst body)) ++ snd body)%string.
End Chunker.

(** Texts used in the worked scenarios. *)
Module ChunkerExamples.
Import Chunker.

(** A section body with terminal punctuation. *)
Definition punctuated_finding : Finding.IAuditFinding :=
  {| Finding._id := "F3";
     Finding.impact := "MEDIUM";
     Finding.title := "Unchecked send";
     Finding.content := "**Description** Check the balance. Then send!";
     Finding.summary := "Unchecked send";
     Finding.source_link := "https://example.org/F3";
     Finding.firm_name := "Sigma";
     Finding.protocol_name := "Compound";
     Finding.chunks := None |}.

(** Ten words: 13 estimated tokens. *)
Definition ten_words : string :=
  "one two three four five six seven eight nine ten".

Fixpoint sentences_text (n : nat) (sentence : string) : string :=
  match n with
  | O => EmptyString
  | S n' => (sentence ++ ". " ++ sentences_text n' sentence)%string
  end.

(** 45 sentences of ten words: 585 estimated tokens. *)
Definition long_section : string := sentences_text 45 ten_words.

(** A finding whose content is that section, without any header. *)
Definition long_finding : Finding.IAuditFinding :=
  {| Finding._id := "F4";
     Finding.impact := "LOW";
     Finding.title := "Long description";
     Finding.content := long_section;
     Finding.summary := "Long description";
     Finding.source_link := "https://example.org/F4";
     Finding.firm_name := "Sigma";
     Finding.protocol_name := "Compound";
     Finding.chunks := None |}.

(** One sentence of 400 words: 520 estimated tokens. *)
Definition oversized_sentence : string := join " " (repeat "w"%string 400).

Definition oversized_text : string :=
  (oversized_sentence ++ ". tail")%string.

End ChunkerExamples.

(** * Ingestion ([scripts/ingest-audit-findings.ts],
      [integrations/src/gemini/embeddings.service.ts]) *)

(** Batch sizes and indexes are counts.  A [for] loop whose step is an
    argument need not finish: each iteration spends one unit of [fuel] and
    the result is [None] when it runs out.  The pauses between batches and
    the failures of the embedding service are not modelled. *)
Module Ingest.

(** [array.slice(i, j)]. *)
Definition slice {A : Type} (i j : nat) (array : list A) : list A :=
  firstn (j - i) (skipn i array).

(** The loop of [createBatches]. *)
Fixpoint batches_loop {A : Type} (fuel : nat) (array : list A)
  (batchSize i : nat) (batches : list (list A)) : option (list (list A)) :=
  if i <? List.length array then
    match fuel with
    | O => None
    | S fuel' =>
        batches_loop fuel' array batchSize (i + batchSize)
          (batches ++ [slice i (i + batchSize) array])
    end
  else Some batches.

Definition createBatches {A : Type} (fuel : nat) (array : list A)
  (batchSize : nat) : option (list (list A)) :=
  batches_loop fuel array batchSize 0 [].

(** [GeminiEmbeddingService.generateEmbeddings]: batches of [batchSize]
    texts, each embedded text by text ([Promise.all] keeps the order). *)
Section Embeddings.
Variable generateEmbedding : string -> Embedding.

Definition batchSize : nat := 100.

Fixpoint embeddings_loop (fuel : nat) (texts : list string) (i : nat)
  (results : list Embedding) : option (list Embedding) :=
  if i <? List.length texts then
    match fuel with
    | O => None
    | S fuel' =>
        let batch := slice i (i + batchSize) texts in
        let embeddings := List.map generateEmbedding batch in
        embeddings_loop fuel' texts (i + batchSize) (results ++ embeddings)
    end
  else Some results.

Definition generateEmbeddings (fuel : nat) (texts : list string)
  : option (list Embedding) :=
  embeddings_loop fuel texts 0 [].

End Embeddings.

(** Batches that are not empty and hold at most [batchSize] elements. *)
Definition batch_sized {A : Type} (batchSize : nat) (batch : list A) : Prop :=
  0 < List.length batch <= batchSize.

End Ingest.

(** * The question-answering pipeline ([rag/src/pipeline/rag-pipeline.ts]) *)

From Stdlib Require DecimalString.

(** The chat model, the rendering of a score by [toFixed] and the clock are
    collaborators: [chat] is the text the model answers to a list of
    messages, [toFixed x d] the rendering of [x] with [d] decimals, and
    [now j] the [j]-th reading of [Date.now()] during a call.  Times are
    integers of milliseconds. *)
Module Pipeline.
Import Retrieval.

Record Message : Type := mkMessage
  { role : string;
    content : string }.

Record ChatOptions : Type := mkChatOptions
  { temperature : option Q;
    maxTokens : option nat }.

Record Services : Type := mkServices
  { vectorSearch : Mongo.Store;
    chat : list Message -> ChatOptions -> string;
    toFixed : Q -> nat -> string;
    now : nat -> Z }.

Module Request.
Record RAGRequest : Type := mkRAGRequest
  { query : string;
    conversationHistory : option (list Message);
    searchOptions : option SearchOptions;
    systemPrompt : option string }.
End Request.

Module Response.
Record Timing : Type := mkTiming
  { retrievalTime : Z;
    generationTime : Z;
    chunksUsed : nat }.

Record RAGResponse : Type := mkRAGResponse
  { answer : string;
    sources : list SearchResult;
    metadata : Timing }.
End Response.

Definition newline : string := String "010" EmptyString.

(** A count in a template literal: its decimal digits. *)
Definition String_of (n : nat) : string :=
  DecimalString.NilZero.string_of_uint (Nat.to_uint n).

(** [array.map((x, idx) => f(x, idx))] *)
Fixpoint map_indexed {A B : Type} (f : A -> nat -> B) (idx : nat)
  (l : list A) : list B :=
  match l with
  | [] => []
  | x :: l' => f x idx :: map_indexed f (S idx) l'
  end.

Definition context_part (sv : Services) (result : SearchResult)
  (idx : nat) : string :=
  String.concat newline
    [ "[Source " ++ String_of (idx + 1) ++ "]";
      "Protocol: " ++ protocol (metadata result);
      "Issue: " ++ title (metadata result);
      "Impact: " ++ impact (metadata result);
      "Relevance Score: " ++ toFixed sv (score result) 3;
      newline ++ text result;
      newline ++ "Reference: " ++ source_link (metadata result);
      "---" ]%string.

Definition buildContext (sv : Services) (results : list SearchResult)
  : string :=
  match results with
  | [] => "No relevant security audit findings found."
  | _ =>
      String.concat (newline ++ newline)
        (map_indexed (context_part sv) 0 results)
  end.

Definition getDefaultSystemPrompt : string :=
  String.concat newline
  [
    ("You are a specialized assistant for smart contract security " ++
     "audits and blockchain security.");
    "";
    ("Your role is to help developers understand security " ++
     "vulnerabilities, audit findings, and best practices based on " ++
     "real audit reports.");
    "";
    "Guidelines:";
    ("1. Answer questions using the provided audit findings as " ++
     "context");
    ("2. Always cite sources by mentioning the protocol name and " ++
     "audit firm");
    ("3. If the context doesn't contain relevant information, " ++
     "clearly state that");
    ("4. Provide actionable recommendations when discussing " ++
     "vulnerabilities");
    ("5. Use technical terminology appropriately but explain " ++
     "complex concepts");
    ("6. Highlight the severity (impact level) of issues when " ++
     "relevant");
    ("7. If multiple findings are related, synthesize them into a " ++
     "coherent answer");
    "";
    ("When a question is outside the scope of the provided audit " ++
     "findings, acknowledge this limitation and suggest what " ++
     "information would be needed.") ]%string.

Definition buildUserMessage (query context : string) : string :=
  String.concat newline
  [
    ("Based on the following smart contract security audit " ++
     "findings, please answer the question.");
    "";
    "AUDIT FINDINGS CONTEXT:";
    context;
    "";
    "QUESTION:";
    query;
    "";
    ("Please provide a comprehensive answer based on the audit " ++
     "findings above. If the findings don't fully address the " ++
     "question, mention what additional information might be needed.") ]%string.

(** [customSystemPrompt || this.getDefaultSystemPrompt()]: an absent or
    empty prompt gives the default. *)
Definition prompt_or_default (customSystemPrompt : option string) : string :=
  match customSystemPrompt with
  | Some (String c s) => String c s
  | _ => getDefaultSystemPrompt
  end.

Definition generateAnswer (sv : Services) (query context : string)
  (conversationHistory : option (list Message))
  (customSystemPrompt : option string) : string :=
  let systemPrompt := prompt_or_default customSystemPrompt in
  let messages := [ {| role := "system"; content := systemPrompt |} ] in
  let messages :=
    match conversationHistory with
    | Some (m :: history) => messages ++ (m :: history)
    | _ => messages
    end in
  let userMessage := buildUserMessage query context in
  let messages :=
    messages ++ [ {| role := "user"; content := userMessage |} ] in
  chat sv messages {| temperature := Some (3 # 10); maxTokens := Some 1000 |}.

(** [hybridSearch(query, options = {})] *)
Definition default_options : SearchOptions :=
  {| topK := None; minScore := None; filters := None |}.

Definition query (sv : Services) (request : Request.RAGRequest)
  : Response.RAGResponse :=
  let startTime := now sv 0 in
  let retrievalStart := now sv 1 in
  let searchResults :=
    hybridSearch (vectorSearch sv) (Request.query request)
      (withDefault default_options (Request.searchOptions request)) in
  let retrievalTime := (now sv 2 - retrievalStart)%Z in
  let context := buildContext sv searchResults in
  let generationStart := now sv 3 in
  let answer :=
    generateAnswer sv (Request.query request) context
      (Request.conversationHistory request)
      (Request.systemPrompt request) in
  let generationTime := (now sv 4 - generationStart)%Z in
  {| Response.answer := answer;
     Response.sources := searchResults;
     Response.metadata :=
       {| Response.retrievalTime := retrievalTime;
          Response.generationTime := generationTime;
          Response.chunksUsed := List.length searchResults |} |}.

Definition queryByImpact (sv : Services) (query_ : string)
  (impacts : list string) : Response.RAGResponse :=
  query sv
    {| Request.query := query_;
       Request.conversationHistory := None;
       Request.searchOptions :=
         Some {| topK := Some 5; minScore := None;
                 filters := Some {| f_impact := Some impacts;
                                    f_protocol := None;
                                    f_firm := None |} |};
       Request.systemPrompt := None |}.

Definition queryByProtocol (sv : Services) (query_ : string)
  (protocols : list string) : Response.RAGResponse :=
  query sv
    {| Request.query := query_;
       Request.conversationHistory := None;
       Request.searchOptions :=
         Some {| topK := Some 5; minScore := None;
                 filters := Some {| f_impact := None;
                                    f_protocol := Some protocols;
                                    f_firm := None |} |};
       Request.systemPrompt := None |}.

End Pipeline.

(** Collaborators used in the worked scenarios. *)
Module PipelineExamples.

Definition services : Pipeline.Services :=
  {| Pipeline.vectorSearch := RetrievalExamples.store;
     Pipeline.chat := fun messages _ =>
       Pipeline.String_of (List.length messages);
     Pipeline.toFixed := fun _ _ => "0.000"%string;
     Pipeline.now := fun j => Z.of_nat (10 * j) |}.

End PipelineExamples.

(** * Properties *)

(** ** Binary64 rounding *)

Module Binary64Props.
Import Binary64.
Open Scope Z_scope.

Lemma pow2_pos (a : Z) : 0 < 2 ^ Z.max a 0.
Proof. apply Z.pow_pos_nonneg; lia. Qed.

Lemma exponent_below (n d : Z) :
  0 < n -> 0 < d ->
  d * 2 ^ Z.max (exponent n d) 0 <= n * 2 ^ Z.max (- exponent n d) 0.
Proof.
  intros Hn Hd. unfold exponent, scaled.
  set (a := Z.log2 n). set (b := Z.log2 d).
  rewrite Z.opp_involutive.
  destruct (Z.leb_spec (d * 2 ^ Z.max (a - b) 0) (n * 2 ^ Z.max (- (a - b)) 0))
    as [H|H]; [exact H|].
  destruct (Z.log2_spec n Hn) as [Hn1 _].
  destruct (Z.log2_spec d Hd) as [_ Hd2].
  fold a in Hn1. fold b in Hd2.
  assert (Ha : 0 <= a) by apply Z.log2_nonneg.
  assert (Hb : 0 <= b) by apply Z.log2_nonneg.
  destruct (Z_le_gt_dec 0 (a - b - 1)) as [Hs|Hs].
  - rewrite (Z.max_l (a - b - 1)) by lia. rewrite (Z.max_r (- (a - b - 1))) by lia.
    rewrite Z.pow_0_r, Z.mul_1_r.
    assert (Hp : 0 < 2 ^ (a - b - 1)) by (apply Z.pow_pos_nonneg; lia).
    assert (Heq : 2 ^ (b + 1) * 2 ^ (a - b - 1) = 2 ^ a).
    { rewrite <- Z.pow_add_r by lia. f_equal. lia. }
    nia.
  - rewrite (Z.max_r (a - b - 1)) by lia. rewrite (Z.max_l (- (a - b - 1))) by lia.
    rewrite Z.pow_0_r, Z.mul_1_r.
    assert (Hp : 0 < 2 ^ (- (a - b - 1))) by (apply Z.pow_pos_nonneg; lia).
    assert (Heq : 2 ^ a * 2 ^ (- (a - b - 1)) = 2 ^ (b + 1)).
    { rewrite <- Z.pow_add_r by lia. f_equal. lia. }
    nia.
Qed.

Lemma scaled_at_least_one (n d e : Z) :
  0 < n -> 0 < d ->
  d * 2 ^ Z.max e 0 <= n * 2 ^ Z.max (- e) 0 ->
  d * 2 ^ Z.max (- (52 - e)) 0 <= n * 2 ^ Z.max (52 - e) 0.
Proof.
  intros Hn Hd H.
  destruct (Z_le_gt_dec 52 e) as [H1|H1].
  - rewrite (Z.max_l e) in H by lia. rewrite (Z.max_r (- e)) in H by lia.
    rewrite (Z.max_l (- (52 - e))) by lia. rewrite (Z.max_r (52 - e)) by lia.
    rewrite Z.pow_0_r, Z.mul_1_r in *.
    replace (- (52 - e)) with (e - 52) by lia.
    assert (2 ^ (e - 52) <= 2 ^ e) by (apply Z.pow_le_mono_r; lia).
    nia.
  - rewrite (Z.max_r (- (52 - e))) by lia. rewrite (Z.max_l (52 - e)) by lia.
    rewrite Z.pow_0_r, Z.mul_1_r.
    destruct (Z_le_gt_dec 0 e) as [H2|H2].
    + rewrite (Z.max_l e) in H by lia. rewrite (Z.max_r (- e)) in H by lia.
      rewrite Z.pow_0_r, Z.mul_1_r in H.
      assert (1 <= 2 ^ e) by (apply Z.lt_pred_le, Z.pow_pos_nonneg; lia).
      assert (1 <= 2 ^ (52 - e)) by (apply Z.lt_pred_le, Z.pow_pos_nonneg; lia).
      nia.
    + rewrite (Z.max_r e) in H by lia. rewrite (Z.max_l (- e)) in H by lia.
      rewrite Z.pow_0_r, Z.mul_1_r in H.
      assert (2 ^ (- e) <= 2 ^ (52 - e)) by (apply Z.pow_le_mono_r; lia).
      nia.
Qed.

Lemma nearest_even_pos (N D : Z) : 0 < D -> D <= N -> 0 < nearest_even N D.
Proof.
  intros HD HN. unfold nearest_even.
  assert (1 <= N / D) by (apply Z.div_le_lower_bound; lia).
  destruct (2 * (N mod D) ?= D); [destruct (Z.even (N / D))| |]; lia.
Qed.

Lemma round_pos_pos (n d : Z) : 0 < n -> 0 < d -> (0 < round_pos n d)%Q.
Proof.
  intros Hn Hd. unfold round_pos, scaled.
  set (s := 52 - exponent n d).
  rewrite Qred_correct. unfold Qlt. cbn [Qnum Qden].
  rewrite Z.mul_1_r, Z.mul_0_l.
  apply Z.mul_pos_pos; [|apply pow2_pos].
  apply nearest_even_pos.
  - apply Z.mul_pos_pos; [exact Hd|apply pow2_pos].
  - apply scaled_at_least_one; [exact Hn|exact Hd|].
    now apply exponent_below.
Qed.

(** Rounding keeps the sign: the comparator [b - a] of two doubles has the
    sign of the exact difference. *)
Lemma round_sign (x : Q) : Qle_bool (round x) 0 = Qle_bool x 0.
Proof.
  destruct x as [[|n|n] d]; unfold round; cbn [Qnum Qden].
  - reflexivity.
  - pose proof (round_pos_pos (Zpos n) (Zpos d) eq_refl eq_refl) as H.
    transitivity false.
    + apply not_true_is_false. intros E. apply Qle_bool_iff in E. lra.
    + symmetry. apply not_true_is_false. intros E. apply Qle_bool_iff in E.
      unfold Qle in E. cbn in E. lia.
  - pose proof (round_pos_pos (Zpos n) (Zpos d) eq_refl eq_refl) as H.
    transitivity true.
    + apply Qle_bool_iff. lra.
    + symmetry. apply Qle_bool_iff. unfold Qle. cbn. lia.
Qed.
(** Landmarks of binary64: the double nearest to [1/10], the sum
    [0.1 + 0.2] (which is not the double nearest to [3/10]), a tie rounded
    to even, and the doubles of [1/61] and [1/62]. *)
Lemma round_landmarks :
  round (1 # 10) = (3602879701896397 # 36028797018963968)%Q /\
  add (round (1 # 10)) (round (2 # 10)) =
    (1351079888211149 # 4503599627370496)%Q /\
  round (3 # 10) = (5404319552844595 # 18014398509481984)%Q /\
  round (9007199254740993 # 1) = (9007199254740992 # 1)%Q /\
  round (9007199254740995 # 1) = (9007199254740996 # 1)%Q /\
  div 1 61 = (4725088133634619 # 288230376151711744)%Q /\
  div 1 62 = (1162219258676257 # 72057594037927936)%Q.
Proof. repeat split; vm_compute; reflexivity. Qed.

End Binary64Props.

(** ** Lists, stable sorting *)

Section SortFacts.
Context {A : Type} (cmp : A -> A -> Q).

Lemma sort_insert_perm (x : A) (l : list A) :
  Permutation (x :: l) (sort_insert cmp x l).
Proof.
  induction l as [|y l IH]; simpl.
  - apply Permutation_refl.
  - destruct (Qle_bool (cmp x y) 0).
    + apply Permutation_refl.
    + eapply perm_trans; [apply perm_swap|].
      now apply perm_skip.
Qed.

Lemma Array_sort_perm (l : list A) : Permutation l (Array_sort cmp l).
Proof.
  induction l as [|x l IH]; simpl.
  - constructor.
  - eapply perm_trans; [apply perm_skip, IH|].
    apply sort_insert_perm.
Qed.

Lemma Array_sort_length (l : list A) :
  List.length (Array_sort cmp l) = List.length l.
Proof. symmetry. apply Permutation_length, Array_sort_perm. Qed.

Lemma Array_sort_In (x : A) (l : list A) :
  In x (Array_sort cmp l) <-> In x l.
Proof.
  split; intro H.
  - eapply Permutation_in; [apply Permutation_sym, Array_sort_perm|exact H].
  - eapply Permutation_in; [apply Array_sort_perm|exact H].
Qed.
End SortFacts.

Lemma StronglySorted_weaken {A : Type} (R R' : A -> A -> Prop) (l : list A) :
  (forall x y, In x l -> In y l -> R x y -> R' x y) ->
  StronglySorted R l -> StronglySorted R' l.
Proof.
  intros HR HS. induction HS as [|a l HS IH Hall].
  - constructor.
  - constructor.
    + apply IH. intros x y Hx Hy. apply HR; now right.
    + rewrite Forall_forall in *. intros y Hy.
      apply HR; [now left|now right|now apply Hall].
Qed.

Lemma StronglySorted_firstn {A : Type} (R : A -> A -> Prop) (n : nat)
  (l : list A) :
  StronglySorted R l -> StronglySorted R (firstn n l).
Proof.
  intros HS. revert n. induction HS as [|a l HS IH Hall]; intros [|n]; simpl;
    try constructor.
  - apply IH.
  - rewrite Forall_forall in *. intros y Hy. apply Hall.
    rewrite <- (firstn_skipn n l). apply in_or_app. now left.
Qed.

Lemma StronglySorted_map {A B : Type} (f : A -> B) (R : B -> B -> Prop)
  (l : list A) :
  StronglySorted (fun x y => R (f x) (f y)) l ->
  StronglySorted R (List.map f l).
Proof.
  induction 1 as [|a l HS IH Hall]; simpl; constructor; auto.
  rewrite Forall_forall in *. intros y Hy.
  apply in_map_iff in Hy as (x & <- & Hx). now apply Hall.
Qed.

Lemma StronglySorted_nth {A : Type} (R : A -> A -> Prop) (l : list A) :
  StronglySorted R l ->
  forall i j a b, i < j ->
    nth_error l i = Some a -> nth_error l j = Some b -> R a b.
Proof.
  induction 1 as [|x l HS IH Hall]; intros i j a b Hij Hi Hj.
  - destruct i; discriminate.
  - destruct j as [|j]; [lia|]. simpl in Hj.
    destruct i as [|i]; simpl in Hi.
    + injection Hi as <-. rewrite Forall_forall in Hall.
      apply Hall. eapply nth_error_In; eauto.
    + eapply IH; [|eauto|eauto]. lia.
Qed.

Lemma In_firstn {A : Type} (n : nat) (l : list A) (x : A) :
  In x (firstn n l) -> In x l.
Proof.
  intros H. rewrite <- (firstn_skipn n l). apply in_or_app. now left.
Qed.

Lemma NoDup_firstn {A : Type} (n : nat) (l : list A) :
  NoDup l -> NoDup (firstn n l).
Proof.
  intros H. rewrite <- (firstn_skipn n l) in H.
  now apply NoDup_app_remove_r in H.
Qed.

(** The comparator of [mergeAndRerankResults] sorts by fused score,
    descending, and leaves entries of equal score in their order. *)
Section StableByScore.
Import Fusion.
Variable pos : Entry -> nat.

Lemma sort_insert_lex (x : Entry) (l : list Entry) :
  StronglySorted (lex_before pos) l ->
  Forall (fun y => pos x < pos y) l ->
  StronglySorted (lex_before pos) (sort_insert by_rrf_desc x l).
Proof.
  induction 1 as [|y l HS IH Hall]; intros Hpos; simpl.
  - repeat constructor.
  - inversion Hpos as [|? ? Hxy Hpos']; subst.
    destruct (Qle_bool (by_rrf_desc x y) 0) eqn:E.
    + apply Qle_bool_iff in E. unfold by_rrf_desc in E.
      assert (Hx : lex_before pos x y).
      { unfold lex_before.
        destruct (Qlt_le_dec (rrfScore y) (rrfScore x)) as [Hlt|Hle].
        - now left.
        - right. split; [lra|exact Hxy]. }
      constructor; [now constructor|].
      constructor; [exact Hx|].
      rewrite Forall_forall in *. intros z Hz.
      specialize (Hall z Hz). specialize (Hpos' z Hz).
      unfold lex_before in *.
      destruct (Qlt_le_dec (rrfScore z) (rrfScore x)) as [Hlt|Hle];
        [now left|].
      right. split; [|exact Hpos'].
      destruct Hall as [H1|[H1 _]]; destruct Hx as [H2|[H2 _]]; lra.
    + assert (Hlt : (rrfScore x < rrfScore y)%Q).
      { destruct (Qlt_le_dec (rrfScore x) (rrfScore y)) as [Hlt|Hle];
          [exact Hlt|].
        assert (Qle_bool (by_rrf_desc x y) 0 = true) as E'
            by (apply Qle_bool_iff; unfold by_rrf_desc; lra).
        congruence. }
      constructor; [now apply IH|].
      rewrite Forall_forall in *. intros z Hz.
      apply (Permutation_in z (Permutation_sym (sort_insert_perm _ x l)))
        in Hz.
      destruct Hz as [<-|Hz]; [now left|now apply Hall].
Qed.

Lemma Array_sort_lex (l : list Entry) :
  StronglySorted (fun a b => pos a < pos b) l ->
  StronglySorted (lex_before pos) (Array_sort by_rrf_desc l).
Proof.
  induction 1 as [|x l HS IH Hall]; simpl.
  - constructor.
  - apply sort_insert_lex; [exact IH|].
    rewrite Forall_forall in *. intros y Hy.
    apply Hall. now apply Array_sort_In in Hy.
Qed.
End StableByScore.

(** ** Fusion engine *)

Module FusionProps.
Import Fusion.

(** *** The accumulator as an insertion-ordered map *)

Lemma map_has_In (key : string) (m : ScoreMap) :
  map_has key m = true <-> In key (map_keys m).
Proof.
  induction m as [|[k' e'] m IH]; simpl.
  - split; [discriminate|tauto].
  - destruct (String.eqb_spec key k') as [->|Hne].
    + split; auto.
    + rewrite IH. split; [tauto|]. intros [H|H]; [congruence|exact H].
Qed.

Lemma map_has_false (key : string) (m : ScoreMap) :
  map_has key m = false <-> ~ In key (map_keys m).
Proof.
  rewrite <- map_has_In. destruct (map_has key m); split; congruence.
Qed.

Lemma map_get_has (key : string) (m : ScoreMap) :
  map_has key m = true <-> exists e, map_get key m = Some e.
Proof.
  induction m as [|[k' e'] m IH]; simpl.
  - split; [discriminate|intros [e H]; discriminate].
  - destruct (String.eqb key k'); [|exact IH].
    split; eauto.
Qed.

Lemma map_get_none (key : string) (m : ScoreMap) :
  map_has key m = false <-> map_get key m = None.
Proof.
  induction m as [|[k' e'] m IH]; simpl.
  - tauto.
  - destruct (String.eqb key k'); [|exact IH].
    split; discriminate.
Qed.

Lemma map_keys_set (key : string) (e : Entry) (m : ScoreMap) :
  map_keys (map_set key e m) =
  if map_has key m then map_keys m else map_keys m ++ [key].
Proof.
  induction m as [|[k' e'] m IH]; simpl; [reflexivity|].
  destruct (String.eqb key k'); simpl; [reflexivity|].
  rewrite IH. now destruct (map_has key m).
Qed.


Lemma map_get_set_same (key : string) (e : Entry) (m : ScoreMap) :
  map_get key (map_set key e m) = Some e.
Proof.
  induction m as [|[k' e'] m IH]; simpl.
  - now rewrite String.eqb_refl.
  - destruct (String.eqb key k') eqn:E; simpl; now rewrite E.
Qed.

Lemma map_get_set_other (key key' : string) (e : Entry) (m : ScoreMap) :
  key' <> key -> map_get key' (map_set key e m) = map_get key' m.
Proof.
  intros Hne. induction m as [|[k' e'] m IH]; simpl.
  - apply String.eqb_neq in Hne. now rewrite Hne.
  - destruct (String.eqb_spec key k') as [->|Hk]; simpl.
    + apply String.eqb_neq in Hne. now rewrite Hne.
    + now rewrite IH.
Qed.

Lemma keyed_set (key : string) (e : Entry) (m : ScoreMap) :
  id (result e) = key -> keyed m -> keyed (map_set key e m).
Proof.
  intros He. induction 1 as [|[k' e'] m Hp Hm IH]; simpl.
  - repeat constructor. exact He.
  - destruct (String.eqb_spec key k') as [->|Hk]; constructor; auto.
Qed.

Lemma NoDup_keys_set (key : string) (e : Entry) (m : ScoreMap) :
  NoDup (map_keys m) -> NoDup (map_keys (map_set key e m)).
Proof.
  intros Hnd. rewrite map_keys_set.
  destruct (map_has key m) eqn:E; [exact Hnd|].
  apply map_has_false in E.
  apply NoDup_rev in Hnd. rewrite <- (rev_involutive (_ ++ _)).
  apply NoDup_rev. rewrite rev_app_distr. simpl.
  constructor; [|exact Hnd]. now rewrite <- in_rev.
Qed.

Lemma well_formed_set (key : string) (e : Entry) (m : ScoreMap) :
  id (result e) = key -> well_formed m -> well_formed (map_set key e m).
Proof.
  intros He [Hnd Hk]. split; [now apply NoDup_keys_set|now apply keyed_set].
Qed.

Lemma keyed_get (key : string) (e : Entry) (m : ScoreMap) :
  keyed m -> map_get key m = Some e -> id (result e) = key.
Proof.
  induction 1 as [|[k' e'] m Hp Hm IH]; simpl; [discriminate|].
  destruct (String.eqb_spec key k') as [->|Hk]; [|exact IH].
  intros [= <-]. exact Hp.
Qed.

Lemma well_formed_vector_step r rank m :
  well_formed m -> well_formed (vector_step r rank m).
Proof. intros H. unfold vector_step. now apply well_formed_set. Qed.

Lemma well_formed_keyword_step r rank m :
  well_formed m -> well_formed (keyword_step r rank m).
Proof.
  intros H. unfold keyword_step.
  destruct (map_has (id r) m) eqn:E; [|now apply well_formed_set].
  destruct (map_get (id r) m) as [existing|] eqn:G; [|exact H].
  apply well_formed_set; [|exact H]. simpl.
  eapply keyed_get; [apply H|exact G].
Qed.

Lemma forEach_invariant {A St : Type} (P : St -> Prop)
  (f : A -> nat -> St -> St) :
  (forall x rank st, P st -> P (f x rank st)) ->
  forall l rank st, P st -> P (forEach f l rank st).
Proof.
  intros Hf l. induction l as [|x l IH]; intros rank st Hst; simpl; auto.
Qed.

Lemma well_formed_accumulate v kw : well_formed (accumulate v kw).
Proof.
  unfold accumulate.
  apply forEach_invariant; [apply well_formed_keyword_step|].
  apply forEach_invariant; [apply well_formed_vector_step|].
  split; constructor.
Qed.

Lemma In_map_get (key : string) (e : Entry) (m : ScoreMap) :
  NoDup (map_keys m) -> In (key, e) m -> map_get key m = Some e.
Proof.
  induction m as [|[k' e'] m IH]; simpl; [tauto|].
  intros Hnd [H|H].
  - injection H as -> ->. now rewrite String.eqb_refl.
  - inversion Hnd as [|? ? Hnotin Hnd']; subst.
    destruct (String.eqb_spec key k') as [->|Hk]; [|now apply IH].
    exfalso. apply Hnotin. apply in_map_iff. now exists (k', e).
Qed.

Lemma values_get (e : Entry) (m : ScoreMap) :
  well_formed m -> In e (map_values m) ->
  map_get (id (result e)) m = Some e.
Proof.
  intros [Hnd Hk] Hin. apply in_map_iff in Hin as ([k' e'] & He & Hin).
  simpl in He. subst e'.
  unfold keyed in Hk. rewrite Forall_forall in Hk.
  specialize (Hk _ Hin). simpl in Hk. rewrite Hk.
  now apply In_map_get.
Qed.

Lemma keys_of_values (m : ScoreMap) :
  keyed m -> List.map (fun e => id (result e)) (map_values m) = map_keys m.
Proof.
  induction 1 as [|[k' e'] m Hp Hm IH]; simpl; [reflexivity|].
  simpl in Hp. now rewrite Hp, IH.
Qed.

(** What [mergeAndRerankResults] returns, entry by entry. *)
Lemma merge_In (v kw : list SearchResult) (topK : nat) (r : SearchResult) :
  In r (mergeAndRerankResults v kw topK) ->
  exists e, map_get (id r) (accumulate v kw) = Some e /\ r = with_score e.
Proof.
  unfold mergeAndRerankResults, slice0. intros Hin.
  apply in_map_iff in Hin as (e & <- & Hin).
  exists e. split; [|reflexivity].
  assert (In e (map_values (accumulate v kw))) as Hv.
  { apply (Array_sort_In by_rrf_desc). eapply In_firstn; eauto. }
  simpl. apply values_get; [apply well_formed_accumulate|exact Hv].
Qed.

Lemma merge_is_truncated_fusion (v kw : list SearchResult) (n : nat) :
  mergeAndRerankResults v kw n = firstn n (fuse_all v kw).
Proof.
  unfold mergeAndRerankResults, fuse_all, slice0.
  now rewrite firstn_map.
Qed.

Lemma merge_length (v kw : list SearchResult) (n : nat) :
  List.length (mergeAndRerankResults v kw n) <= n.
Proof. rewrite merge_is_truncated_fusion. apply firstn_le_length. Qed.

(** *** Scores held by the accumulator *)

Lemma rank_of_first_seen_none (i : string) (l : list SearchResult) :
  rank_of i l = None <-> first_seen i l = None.
Proof.
  induction l as [|x l IH]; simpl; [tauto|].
  destruct (String.eqb i (id x)); [split; discriminate|].
  destruct (rank_of i l); simpl.
  - split; [discriminate|]. intros H. apply IH in H. discriminate.
  - split; intros _; [now apply IH|reflexivity].
Qed.

Lemma rank_of_none_notin (i : string) (l : list SearchResult) :
  ~ In i (List.map id l) -> rank_of i l = None.
Proof.
  induction l as [|x l IH]; simpl; [reflexivity|].
  intros H. destruct (String.eqb_spec i (id x)) as [->|Hne]; [tauto|].
  rewrite IH; [reflexivity|tauto].
Qed.

Lemma rank_of_some_in (i : string) (l : list SearchResult) :
  In i (List.map id l) -> exists r, rank_of i l = Some r.
Proof.
  induction l as [|x l IH]; simpl; [tauto|].
  intros H. destruct (String.eqb_spec i (id x)) as [->|Hne]; [eauto|].
  destruct H as [H|H]; [congruence|].
  destruct (IH H) as [r ->]. simpl. eauto.
Qed.

Lemma vector_loop_get (v : list SearchResult) :
  NoDup (List.map id v) ->
  forall (r0 : nat) (m : ScoreMap) (i : string),
    map_get i (forEach vector_step v r0 m) =
    match rank_of i v, first_seen i v with
    | Some r, Some c => Some {| result := c; rrfScore := rrf (r0 + r) |}
    | _, _ => map_get i m
    end.
Proof.
  induction v as [|x v IH]; intros Hnd r0 m i; simpl; [reflexivity|].
  simpl in Hnd. inversion Hnd as [|? ? Hnotin Hnd']; subst.
  rewrite (IH Hnd'). unfold vector_step.
  destruct (String.eqb_spec i (id x)) as [->|Hne].
  - rewrite (rank_of_none_notin _ _ Hnotin).
    rewrite map_get_set_same. now rewrite Nat.add_0_r.
  - rewrite map_get_set_other by exact Hne.
    destruct (rank_of i v) as [r|]; simpl; [|reflexivity].
    destruct (first_seen i v); [|reflexivity].
    now rewrite Nat.add_succ_r.
Qed.

Lemma keyword_step_get_other r rank m i :
  i <> id r -> map_get i (keyword_step r rank m) = map_get i m.
Proof.
  intros Hne. unfold keyword_step.
  destruct (map_has (id r) m); [|now apply map_get_set_other].
  destruct (map_get (id r) m); [|reflexivity].
  now apply map_get_set_other.
Qed.

Lemma keyword_loop_get (kw : list SearchResult) :
  forall (r0 : nat) (m : ScoreMap) (i : string),
    match map_get i (forEach keyword_step kw r0 m) with
    | Some e' =>
        match map_get i m with
        | Some e =>
            result e' = result e /\
            (rrfScore e' == rrfScore e + occurrences_sum i kw r0)%Q
        | None =>
            first_seen i kw = Some (result e') /\
            (rrfScore e' == occurrences_sum i kw r0)%Q
        end
    | None => map_get i m = None /\ first_seen i kw = None
    end.
Proof.
  induction kw as [|x kw IH]; intros r0 m i; simpl.
  - destruct (map_get i m) as [e|]; [split; [reflexivity|lra]|now split].
  - specialize (IH (S r0) (keyword_step x r0 m) i).
    destruct (String.eqb_spec i (id x)) as [->|Hne].
    + destruct (map_get (id x) m) as [e|] eqn:G.
      * assert (map_get (id x) (keyword_step x r0 m) =
                Some {| result := result e;
                        rrfScore := (rrfScore e + rrf r0)%Q |}) as Hm1.
        { unfold keyword_step.
          assert (map_has (id x) m = true) as ->
              by (apply map_get_has; eauto).
          rewrite G. apply map_get_set_same. }
        rewrite Hm1 in IH.
        destruct (map_get (id x) (forEach _ kw _ _)) as [e'|];
          [|destruct IH; discriminate].
        simpl in IH. destruct IH as [Hr Hs]. split; [exact Hr|lra].
      * assert (map_get (id x) (keyword_step x r0 m) =
                Some {| result := x; rrfScore := rrf r0 |}) as Hm1.
        { unfold keyword_step.
          assert (map_has (id x) m = false) as ->
              by (now apply map_get_none).
          apply map_get_set_same. }
        rewrite Hm1 in IH.
        destruct (map_get (id x) (forEach _ kw _ _)) as [e'|];
          [|destruct IH; discriminate].
        simpl in IH. destruct IH as [Hr Hs]. split; [congruence|lra].
    + rewrite keyword_step_get_other in IH by exact Hne.
      destruct (map_get i (forEach _ kw _ _)) as [e'|]; [|exact IH].
      destruct (map_get i m) as [e|]; destruct IH as [Hr Hs];
        (split; [exact Hr|lra]).
Qed.

(** With pairwise distinct vector identifiers, the accumulator holds for
    each document its vector contribution plus one contribution for every
    keyword occurrence, next to the first candidate seen for it. *)
Lemma accumulate_get (v kw : list SearchResult) (i : string) (e : Entry) :
  NoDup (List.map id v) ->
  map_get i (accumulate v kw) = Some e ->
  (rrfScore e == contribution i v + occurrences_sum i kw 0)%Q /\
  first_seen i (v ++ kw) = Some (result e).
Proof.
  intros Hnd Hget. unfold accumulate in Hget.
  pose proof (keyword_loop_get kw 0 (forEach vector_step v 0 []) i) as H.
  rewrite Hget in H. rewrite (@vector_loop_get v Hnd) in H. simpl in H.
  unfold contribution.
  assert (Happ : forall c, first_seen i v = Some c ->
                           first_seen i (v ++ kw) = Some c).
  { clear. induction v as [|x v IH]; simpl; [discriminate|].
    destruct (String.eqb i (id x)); auto. }
  assert (Happ' : first_seen i v = None ->
                  first_seen i (v ++ kw) = first_seen i kw).
  { clear. induction v as [|x v IH]; simpl; [reflexivity|].
    destruct (String.eqb i (id x)); [discriminate|auto]. }
  destruct (rank_of i v) as [r|] eqn:Hr.
  - destruct (first_seen i v) as [c|] eqn:Hc.
    + simpl in H. destruct H as [H1 H2]. split; [exact H2|].
      rewrite (Happ _ eq_refl). now rewrite H1.
    + apply rank_of_first_seen_none in Hc. congruence.
  - destruct H as [H1 H2]. split; [lra|].
    apply rank_of_first_seen_none in Hr. now rewrite Happ'.
Qed.




(** *** Truncation and uniqueness *)

(** C4.  For every pair of candidate lists and every [topK], the fused list
    has at most [topK] entries and no two of them share a document
    identifier. *)
Theorem fuse_at_most_topK_distinct_ids
  (v kw : list SearchResult) (topK : nat) :
  List.length (mergeAndRerankResults v kw topK) <= topK /\
  NoDup (List.map id (mergeAndRerankResults v kw topK)).
Proof.
  split; [apply merge_length|].
  unfold mergeAndRerankResults, slice0.
  - rewrite map_map. simpl.
    change (fun x : Entry => id (result x))
      with (fun e : Entry => id (result e)).
    rewrite <- firstn_map. apply NoDup_firstn.
    destruct (well_formed_accumulate v kw) as [Hnd Hk].
    eapply Permutation_NoDup.
    + apply Permutation_map, Array_sort_perm.
    + now rewrite keys_of_values.
Qed.

(** *** The fused score *)

(** With pairwise distinct vector identifiers the payload returned for a
    document is that of the first candidate seen for it. *)
Lemma first_seen_kept_when_vector_ids_distinct
  (v kw : list SearchResult) (topK : nat) (r : SearchResult) :
  NoDup (List.map id v) ->
  In r (mergeAndRerankResults v kw topK) ->
  exists c, first_seen (id r) (v ++ kw) = Some c /\ same_payload r c.
Proof.
  intros Hnd Hin. apply merge_In in Hin as (e & Hget & ->).
  simpl in *. destruct (accumulate_get _ _ _ _ Hnd Hget) as [_ Hf].
  exists (result e). split; [exact Hf|]. now repeat split.
Qed.




(** *** Colliding candidates *)

(** C5, evaluated where it fails.  Two vector candidates of one document:
    the second replaces the first in the accumulator, payload and score,
    so the text returned is not the first-seen one and nothing is
    accumulated. *)
Theorem vector_collision_overwrites_first_seen :
  mergeAndRerankResults [FusionExamples.D1_a; FusionExamples.D1_b] [] 1 =
    [ {| id := "D1"; text := "chunk b"; score := rrf 1;
         metadata := FusionExamples.md |} ] /\
  first_seen "D1" ([FusionExamples.D1_a; FusionExamples.D1_b] ++ []) =
    Some FusionExamples.D1_a /\
  text FusionExamples.D1_a = "chunk a"%string /\
  Qeq_bool (rrf 1) (rrf 0 + rrf 1) = false.
Proof. repeat split. Qed.

(** The keyword loop, on the same two candidates, keeps the first-seen
    payload and accumulates the score. *)
Lemma keyword_collision_keeps_first_seen :
  mergeAndRerankResults [] [FusionExamples.D1_a; FusionExamples.D1_b] 1 =
    [ {| id := "D1"; text := "chunk a"; score := (rrf 0 + rrf 1)%Q;
         metadata := FusionExamples.md |} ].
Proof. reflexivity. Qed.

(** *** Insertion order of the accumulator *)

Lemma index_of_lt (a : string) (l : list string) :
  In a l -> index_of a l < List.length l.
Proof.
  induction l as [|x l IH]; simpl; [tauto|].
  intros H. destruct (String.eqb_spec a x) as [->|Hne]; [lia|].
  destruct H as [H|H]; [congruence|]. specialize (IH H). lia.
Qed.

Lemma index_of_absent (a : string) (l : list string) :
  ~ In a l -> index_of a l = List.length l.
Proof.
  induction l as [|x l IH]; simpl; [reflexivity|].
  intros H. destruct (String.eqb_spec a x) as [->|Hne]; [tauto|].
  rewrite IH; tauto.
Qed.

Lemma index_of_app_l (a : string) (l l' : list string) :
  In a l -> index_of a (l ++ l') = index_of a l.
Proof.
  induction l as [|x l IH]; simpl; [tauto|].
  intros H. destruct (String.eqb_spec a x) as [->|Hne]; [reflexivity|].
  destruct H as [H|H]; [congruence|]. now rewrite IH.
Qed.

Lemma index_of_app_r (a : string) (l l' : list string) :
  ~ In a l -> index_of a (l ++ l') = List.length l + index_of a l'.
Proof.
  induction l as [|x l IH]; simpl; [reflexivity|].
  intros H. destruct (String.eqb_spec a x) as [->|Hne]; [tauto|].
  rewrite IH; tauto.
Qed.

Lemma index_of_last (c : string) (l : list string) :
  ~ In c l -> index_of c (l ++ [c]) = List.length l.
Proof.
  intros H. rewrite index_of_app_r by exact H. simpl.
  rewrite String.eqb_refl. lia.
Qed.

Lemma order_agrees_nil : order_agrees [] [].
Proof.
  split; [constructor|]. split; [tauto|]. intros a b [].
Qed.

Lemma order_agrees_seen (c : string) (ks L : list string) :
  In c ks -> order_agrees ks L -> order_agrees ks (L ++ [c]).
Proof.
  intros Hc (Hnd & Hin & Hord).
  assert (HcL : In c L) by now apply Hin.
  assert (Hmem : forall a, In a (L ++ [c]) <-> In a L).
  { intros a. rewrite in_app_iff. simpl. split; [|tauto].
    intros [H|[<-|[]]]; assumption. }
  split; [exact Hnd|]. split.
  - intros a. rewrite Hmem. apply Hin.
  - intros a b Ha Hb. apply Hmem in Ha, Hb.
    rewrite !index_of_app_l by assumption. now apply Hord.
Qed.

Lemma order_agrees_fresh (c : string) (ks L : list string) :
  ~ In c ks -> order_agrees ks L -> order_agrees (ks ++ [c]) (L ++ [c]).
Proof.
  intros Hc (Hnd & Hin & Hord).
  assert (HcL : ~ In c L) by (intros H; now apply Hc, Hin).
  split; [|split].
  - apply NoDup_rev in Hnd. rewrite <- (rev_involutive (_ ++ _)).
    apply NoDup_rev. rewrite rev_app_distr. simpl.
    constructor; [|exact Hnd]. now rewrite <- in_rev.
  - intros a. rewrite !in_app_iff. now rewrite Hin.
  - intros a b Ha Hb.
    apply in_app_or in Ha, Hb. simpl in Ha, Hb.
    destruct Ha as [Ha|[<-|[]]]; destruct Hb as [Hb|[<-|[]]].
    + rewrite !index_of_app_l; try assumption; try now apply Hin.
      now apply Hord.
    + rewrite (index_of_app_l a ks) by now apply Hin.
      rewrite (index_of_app_l a L) by assumption.
      rewrite !index_of_last by assumption.
      pose proof (index_of_lt a ks (proj2 (Hin a) Ha)).
      pose proof (index_of_lt a L Ha). lia.
    + rewrite (index_of_app_l b ks) by now apply Hin.
      rewrite (index_of_app_l b L) by assumption.
      rewrite !index_of_last by assumption.
      pose proof (index_of_lt b ks (proj2 (Hin b) Hb)).
      pose proof (index_of_lt b L Hb). lia.
    + lia.
Qed.

Lemma order_agrees_set (key : string) (e : Entry) (m : ScoreMap)
  (L : list string) :
  order_agrees (map_keys m) L ->
  order_agrees (map_keys (map_set key e m)) (L ++ [key]).
Proof.
  intros H. rewrite map_keys_set. destruct (map_has key m) eqn:E.
  - apply order_agrees_seen; [now apply map_has_In|exact H].
  - apply order_agrees_fresh; [now apply map_has_false|exact H].
Qed.

Lemma order_agrees_vector_loop (v : list SearchResult) :
  forall (r0 : nat) (m : ScoreMap) (L : list string),
    order_agrees (map_keys m) L ->
    order_agrees (map_keys (forEach vector_step v r0 m))
      (L ++ List.map id v).
Proof.
  induction v as [|x v IH]; intros r0 m L H; simpl.
  - now rewrite app_nil_r.
  - change (id x :: List.map id v) with ([id x] ++ List.map id v).
    rewrite app_assoc. apply IH. now apply order_agrees_set.
Qed.

Lemma order_agrees_keyword_loop (kw : list SearchResult) :
  forall (r0 : nat) (m : ScoreMap) (L : list string),
    order_agrees (map_keys m) L ->
    order_agrees (map_keys (forEach keyword_step kw r0 m))
      (L ++ List.map id kw).
Proof.
  induction kw as [|x kw IH]; intros r0 m L H; simpl.
  - now rewrite app_nil_r.
  - change (id x :: List.map id kw) with ([id x] ++ List.map id kw).
    rewrite app_assoc. apply IH. unfold keyword_step.
    destruct (map_has (id x) m) eqn:E; [|now apply order_agrees_set].
    destruct (map_get (id x) m) eqn:G; [now apply order_agrees_set|].
    apply map_get_none in G. congruence.
Qed.

Lemma order_agrees_accumulate (v kw : list SearchResult) :
  order_agrees (map_keys (accumulate v kw))
    (List.map id v ++ List.map id kw).
Proof.
  unfold accumulate. apply order_agrees_keyword_loop.
  apply (order_agrees_vector_loop v 0 [] []). apply order_agrees_nil.
Qed.

Lemma StronglySorted_map_inv {A B : Type} (f : A -> B) (R : B -> B -> Prop)
  (l : list A) :
  StronglySorted R (List.map f l) ->
  StronglySorted (fun x y => R (f x) (f y)) l.
Proof.
  induction l as [|a l IH]; simpl; intros H; [constructor|].
  apply StronglySorted_inv in H as [H1 H2].
  constructor; [now apply IH|].
  rewrite Forall_forall in *. intros y Hy. apply H2. now apply in_map.
Qed.

Lemma NoDup_index_sorted (l : list string) :
  NoDup l ->
  StronglySorted (fun a b => index_of a l < index_of b l) l.
Proof.
  induction 1 as [|x l Hnotin Hnd IH]; [constructor|].
  constructor.
  - apply StronglySorted_weaken with (2 := IH).
    intros a b Ha Hb Hab. simpl.
    destruct (String.eqb_spec a x) as [->|_]; [tauto|].
    destruct (String.eqb_spec b x) as [->|_]; [tauto|]. lia.
  - rewrite Forall_forall. intros b Hb. simpl.
    rewrite String.eqb_refl.
    destruct (String.eqb_spec b x) as [->|_]; [tauto|]. lia.
Qed.

Lemma values_sorted_by_position (m : ScoreMap) :
  well_formed m ->
  StronglySorted (fun a b => position m a < position m b) (map_values m).
Proof.
  intros [Hnd Hk]. unfold position.
  apply (StronglySorted_map_inv (fun e => id (result e))
           (fun a b => index_of a (map_keys m) < index_of b (map_keys m))).
  rewrite keys_of_values by exact Hk. now apply NoDup_index_sorted.
Qed.

(** The fused list is ordered by score, descending, and among equal scores
    by position in the accumulator. *)
Lemma merge_lex_sorted (v kw : list SearchResult) (topK : nat) :
  StronglySorted
    (fun x y =>
       (score y < score x)%Q \/
       ((score x == score y)%Q /\
        index_of (id x) (map_keys (accumulate v kw)) <
        index_of (id y) (map_keys (accumulate v kw))))
    (mergeAndRerankResults v kw topK).
Proof.
  unfold mergeAndRerankResults, slice0.
  apply StronglySorted_map. simpl.
  apply StronglySorted_firstn.
  apply (Array_sort_lex (position (accumulate v kw))).
  apply values_sorted_by_position, well_formed_accumulate.
Qed.

(** *** The output depends on the two rankings only *)

Lemma same_ranking_has (key : string) (m m' : ScoreMap) :
  same_ranking m m' -> map_has key m = map_has key m'.
Proof.
  induction 1 as [|[k1 e1] [k2 e2] m m' [Hk He] Hm IH]; simpl;
    [reflexivity|].
  simpl in Hk. subst k2. now rewrite IH.
Qed.

Lemma same_ranking_get (key : string) (m m' : ScoreMap) :
  same_ranking m m' ->
  match map_get key m, map_get key m' with
  | Some e, Some e' => rrfScore e = rrfScore e'
  | None, None => True
  | _, _ => False
  end.
Proof.
  induction 1 as [|[k1 e1] [k2 e2] m m' [Hk He] Hm IH]; simpl; [exact I|].
  simpl in Hk, He. subst k2.
  destruct (String.eqb key k1); [exact He|exact IH].
Qed.

Lemma same_ranking_set (key : string) (e e' : Entry) (m m' : ScoreMap) :
  rrfScore e = rrfScore e' -> same_ranking m m' ->
  same_ranking (map_set key e m) (map_set key e' m').
Proof.
  intros He. induction 1 as [|[k1 e1] [k2 e2] m m' [Hk Hs] Hm IH]; simpl.
  - repeat constructor. exact He.
  - simpl in Hk, Hs. subst k2.
    destruct (String.eqb key k1); constructor; simpl; auto.
Qed.

Lemma same_ranking_vector_loop (v v' : list SearchResult) :
  List.map id v = List.map id v' ->
  forall r0 m m', same_ranking m m' ->
    same_ranking (forEach vector_step v r0 m) (forEach vector_step v' r0 m').
Proof.
  revert v'. induction v as [|x v IH]; intros [|x' v'] Hids r0 m m' Hm;
    simpl in *; try discriminate; [exact Hm|].
  injection Hids as Hx Hids. apply IH; [exact Hids|].
  unfold vector_step. rewrite Hx. now apply same_ranking_set.
Qed.

Lemma same_ranking_keyword_loop (kw kw' : list SearchResult) :
  List.map id kw = List.map id kw' ->
  forall r0 m m', same_ranking m m' ->
    same_ranking (forEach keyword_step kw r0 m)
      (forEach keyword_step kw' r0 m').
Proof.
  revert kw'. induction kw as [|x kw IH]; intros [|x' kw'] Hids r0 m m' Hm;
    simpl in *; try discriminate; [exact Hm|].
  injection Hids as Hx Hids. apply IH; [exact Hids|].
  unfold keyword_step. rewrite Hx.
  rewrite (same_ranking_has (id x') m m' Hm).
  destruct (map_has (id x') m'); [|now apply same_ranking_set].
  pose proof (same_ranking_get (id x') m m' Hm) as Hg.
  destruct (map_get (id x') m) as [e|], (map_get (id x') m') as [e'|];
    try contradiction; [|exact Hm].
  apply same_ranking_set; [|exact Hm]. simpl. now rewrite Hg.
Qed.

Lemma same_ranking_values (m m' : ScoreMap) :
  keyed m -> keyed m' -> same_ranking m m' ->
  Forall2 same_rank_entry (map_values m) (map_values m').
Proof.
  intros Hk Hk' H. induction H as [|[k1 e1] [k2 e2] m m' [Hkey Hs] Hm IH];
    simpl; [constructor|].
  inversion Hk; inversion Hk'; subst. simpl in *.
  constructor; [|now apply IH]. split; [congruence|exact Hs].
Qed.

Lemma sort_insert_same_rank (x x' : Entry) (l l' : list Entry) :
  same_rank_entry x x' -> Forall2 same_rank_entry l l' ->
  Forall2 same_rank_entry (sort_insert by_rrf_desc x l)
    (sort_insert by_rrf_desc x' l').
Proof.
  intros Hx. induction 1 as [|y y' l l' Hy Hl IH]; simpl.
  - constructor; [exact Hx|constructor].
  - unfold by_rrf_desc at 1 3.
    destruct Hx as [Hx1 Hx2], Hy as [Hy1 Hy2]. rewrite Hx2, Hy2.
    destruct (Qle_bool (rrfScore y' - rrfScore x') 0).
    + repeat (constructor; [split; assumption|]). exact Hl.
    + constructor; [split; assumption|]. apply IH.
Qed.

Lemma Array_sort_same_rank (l l' : list Entry) :
  Forall2 same_rank_entry l l' ->
  Forall2 same_rank_entry (Array_sort by_rrf_desc l)
    (Array_sort by_rrf_desc l').
Proof.
  induction 1; simpl; [constructor|]. now apply sort_insert_same_rank.
Qed.

Lemma Forall2_firstn {A B : Type} (R : A -> B -> Prop) (n : nat)
  (l : list A) (l' : list B) :
  Forall2 R l l' -> Forall2 R (firstn n l) (firstn n l').
Proof.
  intros H. revert n. induction H; intros [|n]; simpl; constructor; auto.
Qed.

Lemma merge_same_ranking (v kw v' kw' : list SearchResult) (topK : nat) :
  List.map id v = List.map id v' ->
  List.map id kw = List.map id kw' ->
  List.map id (mergeAndRerankResults v kw topK) =
    List.map id (mergeAndRerankResults v' kw' topK) /\
  List.map score (mergeAndRerankResults v kw topK) =
    List.map score (mergeAndRerankResults v' kw' topK).
Proof.
  intros Hv Hkw.
  assert (Forall2 same_rank_entry
            (slice0 topK (Array_sort by_rrf_desc
                            (map_values (accumulate v kw))))
            (slice0 topK (Array_sort by_rrf_desc
                            (map_values (accumulate v' kw'))))) as H.
  { apply Forall2_firstn, Array_sort_same_rank, same_ranking_values;
      try apply well_formed_accumulate.
    unfold accumulate. apply same_ranking_keyword_loop; [exact Hkw|].
    apply same_ranking_vector_loop; [exact Hv|constructor]. }
  unfold mergeAndRerankResults.
  induction H as [|e e' l l' [H1 H2] Hl IH]; simpl; [now split|].
  destruct IH as [IH1 IH2]. split; congruence.
Qed.

(** *** The fusion in binary64 arithmetic *)

(** The comparator on doubles has the sign of the exact difference, so the
    sort makes the same decisions. *)
Lemma sort_insert64 (x : Entry) (l : list Entry) :
  sort_insert Fusion64.by_rrf_desc x l = sort_insert by_rrf_desc x l.
Proof.
  induction l as [|y l IH]; [reflexivity|]. simpl.
  unfold Fusion64.by_rrf_desc at 1, Binary64.sub, by_rrf_desc at 1.
  rewrite Binary64Props.round_sign.
  destruct (Qle_bool (rrfScore y - rrfScore x) 0); [reflexivity|].
  now rewrite IH.
Qed.

Lemma Array_sort64 (l : list Entry) :
  Array_sort Fusion64.by_rrf_desc l = Array_sort by_rrf_desc l.
Proof.
  induction l as [|x l IH]; [reflexivity|]. simpl.
  now rewrite IH, sort_insert64.
Qed.

Lemma same_entries_has (key : string) (m m' : ScoreMap) :
  Fusion64.same_entries m m' -> map_has key m = map_has key m'.
Proof.
  induction 1 as [|[k1 e1] [k2 e2] m m' [Hk He] Hm IH]; simpl;
    [reflexivity|].
  simpl in Hk. subst k2. now rewrite IH.
Qed.

Lemma same_entries_get (key : string) (m m' : ScoreMap) :
  Fusion64.same_entries m m' ->
  match map_get key m, map_get key m' with
  | Some e, Some e' => result e = result e'
  | None, None => True
  | _, _ => False
  end.
Proof.
  induction 1 as [|[k1 e1] [k2 e2] m m' [Hk He] Hm IH]; simpl; [exact I|].
  simpl in Hk, He. subst k2.
  destruct (String.eqb key k1); [exact He|exact IH].
Qed.

Lemma same_entries_set (key : string) (e e' : Entry) (m m' : ScoreMap) :
  result e = result e' -> Fusion64.same_entries m m' ->
  Fusion64.same_entries (map_set key e m) (map_set key e' m').
Proof.
  intros He. induction 1 as [|[k1 e1] [k2 e2] m m' [Hk Hs] Hm IH]; simpl.
  - repeat constructor. exact He.
  - simpl in Hk, Hs. subst k2.
    destruct (String.eqb key k1); constructor; simpl; auto.
Qed.

Lemma same_entries_vector_loop (v : list SearchResult) :
  forall r0 m m', Fusion64.same_entries m m' ->
    Fusion64.same_entries (forEach Fusion64.vector_step v r0 m)
      (forEach vector_step v r0 m').
Proof.
  induction v as [|x v IH]; intros r0 m m' Hm; simpl; [exact Hm|].
  apply IH. unfold Fusion64.vector_step, vector_step.
  now apply same_entries_set.
Qed.

Lemma same_entries_keyword_loop (kw : list SearchResult) :
  forall r0 m m', Fusion64.same_entries m m' ->
    Fusion64.same_entries (forEach Fusion64.keyword_step kw r0 m)
      (forEach keyword_step kw r0 m').
Proof.
  induction kw as [|x kw IH]; intros r0 m m' Hm; simpl; [exact Hm|].
  apply IH. unfold Fusion64.keyword_step, keyword_step.
  rewrite (same_entries_has (id x) m m' Hm).
  destruct (map_has (id x) m'); [|now apply same_entries_set].
  pose proof (same_entries_get (id x) m m' Hm) as Hg.
  destruct (map_get (id x) m) as [e|], (map_get (id x) m') as [e'|];
    try contradiction; [|exact Hm].
  now apply same_entries_set.
Qed.

(** The two accumulators hold the same documents in the same order. *)
Lemma accumulate64_entries (v kw : list SearchResult) :
  Fusion64.same_entries (Fusion64.accumulate v kw) (accumulate v kw).
Proof.
  unfold Fusion64.accumulate, accumulate.
  apply same_entries_keyword_loop, same_entries_vector_loop. constructor.
Qed.

Lemma same_entries_keys (m m' : ScoreMap) :
  Fusion64.same_entries m m' -> map_keys m = map_keys m'.
Proof.
  induction 1 as [|p p' m m' [Hk _] Hm IH]; simpl; [reflexivity|].
  now rewrite Hk, IH.
Qed.

Lemma same_entries_keyed (m m' : ScoreMap) :
  Fusion64.same_entries m m' -> keyed m' -> keyed m.
Proof.
  unfold keyed. induction 1 as [|p p' m m' [Hk Hr] Hm IH]; intros H;
    [constructor|].
  inversion H; subst. constructor; [congruence|now apply IH].
Qed.

Lemma accumulate64_keys (v kw : list SearchResult) :
  map_keys (Fusion64.accumulate v kw) = map_keys (accumulate v kw).
Proof. apply same_entries_keys, accumulate64_entries. Qed.

Lemma well_formed_accumulate64 (v kw : list SearchResult) :
  well_formed (Fusion64.accumulate v kw).
Proof.
  destruct (well_formed_accumulate v kw) as [Hnd Hk]. split.
  - now rewrite accumulate64_keys.
  - exact (same_entries_keyed _ _ (accumulate64_entries v kw) Hk).
Qed.

(** Every document [fuse] returns was inserted into the accumulator. *)
Lemma merge64_inserted (v kw : list SearchResult) (topK : nat)
  (r : SearchResult) :
  In r (Fusion64.mergeAndRerankResults v kw topK) ->
  In (id r) (List.map id v ++ List.map id kw).
Proof.
  unfold Fusion64.mergeAndRerankResults, slice0. intros Hin.
  apply in_map_iff in Hin as (e & <- & Hin).
  apply In_firstn, Array_sort_In in Hin.
  apply (order_agrees_accumulate v kw). rewrite <- accumulate64_keys.
  rewrite <- (keys_of_values (Fusion64.accumulate v kw))
    by apply well_formed_accumulate64.
  simpl. now apply (in_map (fun e => id (result e))).
Qed.

(** The fused list is ordered by the doubles, descending, and among equal
    doubles by position in the accumulator. *)
Lemma merge64_lex_sorted (v kw : list SearchResult) (topK : nat) :
  StronglySorted
    (fun x y =>
       (score y < score x)%Q \/
       ((score x == score y)%Q /\
        index_of (id x) (map_keys (accumulate v kw)) <
        index_of (id y) (map_keys (accumulate v kw))))
    (Fusion64.mergeAndRerankResults v kw topK).
Proof.
  unfold Fusion64.mergeAndRerankResults, slice0.
  apply StronglySorted_map. simpl.
  apply StronglySorted_firstn. rewrite Array_sort64.
  rewrite <- accumulate64_keys.
  apply (Array_sort_lex (position (Fusion64.accumulate v kw))).
  apply values_sorted_by_position, well_formed_accumulate64.
Qed.

Lemma same_ranking_vector_loop64 (v v' : list SearchResult) :
  List.map id v = List.map id v' ->
  forall r0 m m', same_ranking m m' ->
    same_ranking (forEach Fusion64.vector_step v r0 m)
      (forEach Fusion64.vector_step v' r0 m').
Proof.
  revert v'. induction v as [|x v IH]; intros [|x' v'] Hids r0 m m' Hm;
    simpl in *; try discriminate; [exact Hm|].
  injection Hids as Hx Hids. apply IH; [exact Hids|].
  unfold Fusion64.vector_step. rewrite Hx. now apply same_ranking_set.
Qed.

Lemma same_ranking_keyword_loop64 (kw kw' : list SearchResult) :
  List.map id kw = List.map id kw' ->
  forall r0 m m', same_ranking m m' ->
    same_ranking (forEach Fusion64.keyword_step kw r0 m)
      (forEach Fusion64.keyword_step kw' r0 m').
Proof.
  revert kw'. induction kw as [|x kw IH]; intros [|x' kw'] Hids r0 m m' Hm;
    simpl in *; try discriminate; [exact Hm|].
  injection Hids as Hx Hids. apply IH; [exact Hids|].
  unfold Fusion64.keyword_step. rewrite Hx.
  rewrite (same_ranking_has (id x') m m' Hm).
  destruct (map_has (id x') m'); [|now apply same_ranking_set].
  pose proof (same_ranking_get (id x') m m' Hm) as Hg.
  destruct (map_get (id x') m) as [e|], (map_get (id x') m') as [e'|];
    try contradiction; [|exact Hm].
  apply same_ranking_set; [|exact Hm]. simpl. now rewrite Hg.
Qed.

Lemma merge64_same_ranking (v kw v' kw' : list SearchResult) (topK : nat) :
  List.map id v = List.map id v' ->
  List.map id kw = List.map id kw' ->
  List.map id (Fusion64.mergeAndRerankResults v kw topK) =
    List.map id (Fusion64.mergeAndRerankResults v' kw' topK) /\
  List.map score (Fusion64.mergeAndRerankResults v kw topK) =
    List.map score (Fusion64.mergeAndRerankResults v' kw' topK).
Proof.
  intros Hv Hkw.
  assert (Forall2 same_rank_entry
            (slice0 topK (Array_sort Fusion64.by_rrf_desc
                            (map_values (Fusion64.accumulate v kw))))
            (slice0 topK (Array_sort Fusion64.by_rrf_desc
                            (map_values (Fusion64.accumulate v' kw'))))) as H.
  { rewrite !Array_sort64.
    apply Forall2_firstn, Array_sort_same_rank, same_ranking_values;
      try apply well_formed_accumulate64.
    unfold Fusion64.accumulate. apply same_ranking_keyword_loop64; [exact Hkw|].
    apply same_ranking_vector_loop64; [exact Hv|constructor]. }
  unfold Fusion64.mergeAndRerankResults.
  induction H as [|e e' l l' [H1 H2] Hl IH]; simpl; [now split|].
  destruct IH as [IH1 IH2]. split; congruence.
Qed.

(** Rounding decides the order of two documents whose exact scores are
    equal: [1/88 + 1/72] and [1/99 + 1/66] are the same rational, the
    doubles the code computes differ in the last bit, and the document
    inserted later comes first.  In exact arithmetic the two would tie and
    keep their insertion order. *)
Lemma rounding_decides_an_exact_tie :
  (rrf 27 + rrf 11 == rrf 38 + rrf 5)%Q /\
  (Binary64.add (Fusion64.rrf 27) (Fusion64.rrf 11) <
   Binary64.add (Fusion64.rrf 38) (Fusion64.rrf 5))%Q /\
  List.map id
    (Fusion64.mergeAndRerankResults Fusion64Examples.vector_list
       Fusion64Examples.keyword_list 2) = ["vV"; "vK"]%string /\
  List.map id
    (mergeAndRerankResults Fusion64Examples.vector_list
       Fusion64Examples.keyword_list 2) = ["vK"; "vV"]%string /\
  id (Fusion64Examples.candidate "v" 27) = "vK"%string /\
  id (Fusion64Examples.candidate "v" 38) = "vV"%string.
Proof.
  split; [vm_compute; reflexivity|]. split; [vm_compute; reflexivity|].
  split; [vm_compute; reflexivity|]. split; [vm_compute; reflexivity|].
  split; reflexivity.
Qed.

(** C3.  In the arithmetic of the code, the order and the scores [fuse]
    returns are a function of the two rankings alone, so two runs on the
    same ranked lists agree; and of two distinct documents whose fused
    scores are the same double the one inserted first into the accumulator
    (vector candidates before keyword candidates, each in list order) comes
    first, so a document the vector search found precedes an equally scored
    one that only the keyword search found. *)
Theorem fuse_deterministic_ties_by_insertion_order :
  (forall (v kw v' kw' : list SearchResult) (topK : nat),
      List.map id v = List.map id v' ->
      List.map id kw = List.map id kw' ->
      List.map id (Fusion64.mergeAndRerankResults v kw topK) =
        List.map id (Fusion64.mergeAndRerankResults v' kw' topK) /\
      List.map score (Fusion64.mergeAndRerankResults v kw topK) =
        List.map score (Fusion64.mergeAndRerankResults v' kw' topK))
  /\
  (forall (v kw : list SearchResult) (topK i j : nat) (x y : SearchResult),
      nth_error (Fusion64.mergeAndRerankResults v kw topK) i = Some x ->
      nth_error (Fusion64.mergeAndRerankResults v kw topK) j = Some y ->
      id x <> id y ->
      (score x == score y)%Q ->
      (insertion_index (id x) v kw < insertion_index (id y) v kw -> i < j) /\
      (In (id x) (List.map id v) -> ~ In (id y) (List.map id v) -> i < j)).
Proof.
  split; [apply merge64_same_ranking|].
  intros v kw topK i j x y Hi Hj Hne Heq.
  assert (Hx := merge64_inserted v kw topK x (nth_error_In _ _ Hi)).
  assert (Hy := merge64_inserted v kw topK y (nth_error_In _ _ Hj)).
  assert (Hmain : insertion_index (id x) v kw < insertion_index (id y) v kw
                  -> i < j).
  { unfold insertion_index. intros Hins.
    destruct (order_agrees_accumulate v kw) as (_ & _ & Hord).
    apply (Hord _ _ Hx Hy) in Hins.
    pose proof (merge64_lex_sorted v kw topK) as HS.
    destruct (Nat.lt_trichotomy i j) as [Hlt|[->|Hgt]]; [exact Hlt| |].
    - rewrite Hi in Hj. injection Hj as ->. congruence.
    - pose proof (StronglySorted_nth _ _ HS j i y x Hgt Hj Hi) as [H|[_ H]].
      + lra.
      + lia. }
  split; [exact Hmain|].
  intros Hxv Hyv. apply Hmain. unfold insertion_index.
  rewrite index_of_app_l by exact Hxv.
  rewrite index_of_app_r by exact Hyv.
  pose proof (index_of_lt _ _ Hxv). lia.
Qed.

Lemma fuse_deterministic_ties_by_insertion_order_witness :
  List.map id
    (Fusion64.mergeAndRerankResults [FusionExamples.D1]
       [FusionExamples.D2_kw] 2) =
  List.map id
    (Fusion64.mergeAndRerankResults [FusionExamples.D1_a]
       [FusionExamples.D2] 2) /\
  0 < 1.
Proof.
  destruct fuse_deterministic_ties_by_insertion_order as [Hdet Htie].
  split.
  - apply Hdet; reflexivity.
  - destruct (Htie [FusionExamples.D1] [FusionExamples.D2_kw] 2 0 1
                {| id := "D1"; text := "first document";
                   score := Fusion64.rrf 0;
                   metadata := FusionExamples.md |}
                {| id := "D2"; text := "second document";
                   score := Fusion64.rrf 0;
                   metadata := FusionExamples.md |}) as [Hins _].
    + vm_compute. reflexivity.
    + vm_compute. reflexivity.
    + discriminate.
    + reflexivity.
    + apply Hins. vm_compute. lia.
Defined.

(** *** Further properties of the fusion *)

Lemma rrf_fraction (rank : nat) :
  rrf rank = 1 # Pos.of_succ_nat (60 + rank).
Proof.
  unfold rrf, k. replace (60 + rank + 1) with (S (60 + rank)) by lia.
  reflexivity.
Qed.

Lemma rrf_pos (rank : nat) : (0 < rrf rank)%Q.
Proof. rewrite rrf_fraction. reflexivity. Qed.


Lemma rrf_strict (r r' : nat) : r < r' -> (rrf r' < rrf r)%Q.
Proof.
  intros H. rewrite !rrf_fraction. unfold Qlt. cbn [Qnum Qden].
  rewrite !Zpos_P_of_succ_nat. lia.
Qed.

(** X1.  For all inputs, the fused list is ordered by descending fused
    score. *)
Theorem fused_list_descending (v kw : list SearchResult) (topK : nat) :
  StronglySorted (fun a b => (score b <= score a)%Q)
    (mergeAndRerankResults v kw topK).
Proof.
  eapply StronglySorted_weaken; [|apply merge_lex_sorted].
  intros x y _ _ [H|[H _]]; lra.
Qed.

Lemma forEach_invariant_In {A St : Type} (P : St -> Prop)
  (f : A -> nat -> St -> St) (l : list A) :
  (forall x rank st, In x l -> P st -> P (f x rank st)) ->
  forall rank st, P st -> P (forEach f l rank st).
Proof.
  induction l as [|x l IH]; intros Hf rank st Hst; simpl; [exact Hst|].
  apply IH.
  - intros y r s Hy. apply Hf. now right.
  - apply Hf; [now left|exact Hst].
Qed.

Lemma map_get_In (key : string) (e : Entry) (m : ScoreMap) :
  map_get key m = Some e -> In e (map_values m).
Proof.
  induction m as [|[k' e'] m IH]; simpl; [discriminate|].
  destruct (String.eqb key k'); [intros [= <-]; now left|].
  intros H. right. now apply IH.
Qed.

Lemma map_set_values (P : Entry -> Prop) (key : string) (e : Entry)
  (m : ScoreMap) :
  P e -> Forall P (map_values m) -> Forall P (map_values (map_set key e m)).
Proof.
  intros He. induction m as [|[k' e'] m IH]; simpl; intros H.
  - now constructor.
  - inversion H as [|? ? H1 H2]; subst.
    destruct (String.eqb key k'); simpl; constructor; auto.
Qed.

(** An invariant of the entries is kept by both loops when fresh entries
    satisfy it and accumulating a contribution preserves it. *)
Lemma accumulate_values (P : Entry -> Prop) (v kw : list SearchResult) :
  (forall r rank, In r v -> P {| result := r; rrfScore := rrf rank |}) ->
  (forall r rank, In r kw -> P {| result := r; rrfScore := rrf rank |}) ->
  (forall e rank,
      P e ->
      P {| result := result e; rrfScore := (rrfScore e + rrf rank)%Q |}) ->
  Forall P (map_values (accumulate v kw)).
Proof.
  intros Hv Hkw Hadd. unfold accumulate.
  apply (forEach_invariant_In (fun m => Forall P (map_values m))).
  - intros r rank m Hr Hm. unfold keyword_step.
    destruct (map_has (id r) m); [|apply map_set_values; auto].
    destruct (map_get (id r) m) as [existing|] eqn:G; [|exact Hm].
    apply map_set_values; [|exact Hm]. apply Hadd.
    rewrite Forall_forall in Hm. apply Hm. eapply map_get_In; eauto.
  - apply (forEach_invariant_In (fun m => Forall P (map_values m))).
    + intros r rank m Hr Hm. unfold vector_step.
      apply map_set_values; auto.
    + constructor.
Qed.

Lemma merge_In_values (v kw : list SearchResult) (topK : nat)
  (r : SearchResult) :
  In r (mergeAndRerankResults v kw topK) ->
  exists e, In e (map_values (accumulate v kw)) /\ r = with_score e.
Proof.
  intros Hin. apply merge_In in Hin as (e & Hget & ->).
  exists e. split; [eapply map_get_In; eauto|reflexivity].
Qed.

(** X2.  For all inputs, every result [fuse] returns bears the identifier,
    text and metadata of one of the input candidates, and a positive
    score: nothing is invented and no payload is mixed from two
    candidates. *)
Theorem fused_results_come_from_inputs
  (v kw : list SearchResult) (topK : nat) :
  Forall
    (fun r => (exists c, In c (v ++ kw) /\ same_payload r c) /\
              (0 < score r)%Q)
    (mergeAndRerankResults v kw topK).
Proof.
  rewrite Forall_forall. intros r Hin.
  apply merge_In_values in Hin as (e & He & ->).
  pose proof (accumulate_values
                (fun e => In (result e) (v ++ kw) /\ (0 < rrfScore e)%Q)
                v kw) as H.
  rewrite Forall_forall in H. destruct (H) with (x := e) as [Hc Hs].
  - intros r rank Hr. simpl. split; [apply in_or_app; now left|apply rrf_pos].
  - intros r rank Hr. simpl. split; [apply in_or_app; now right|apply rrf_pos].
  - intros e0 rank [H1 H2]. simpl. split; [exact H1|].
    pose proof (rrf_pos rank). lra.
  - exact He.
  - split; [|exact Hs]. exists (result e). split; [exact Hc|].
    unfold same_payload. simpl. auto.
Qed.

(** *** How many documents are returned *)

Lemma fuse_all_ids (v kw : list SearchResult) :
  Permutation (map_keys (accumulate v kw)) (List.map id (fuse_all v kw)).
Proof.
  unfold fuse_all. rewrite map_map. simpl.
  destruct (well_formed_accumulate v kw) as [_ Hk].
  rewrite <- (keys_of_values _ Hk).
  apply Permutation_map, Array_sort_perm.
Qed.

Lemma keys_distinct_ids (v kw : list SearchResult) :
  Permutation (map_keys (accumulate v kw)) (distinct_ids v kw).
Proof.
  destruct (order_agrees_accumulate v kw) as (Hnd & Hin & _).
  apply NoDup_Permutation; [exact Hnd|apply NoDup_nodup|].
  intros x. unfold distinct_ids. rewrite nodup_In. apply Hin.
Qed.

(** X3.  [fuse] returns [min(topK, n)] documents, where [n] is the number
    of distinct identifiers in the two lists; when [topK >= n] every
    document of either list is returned, exactly once. *)
Theorem fuse_returns_every_document_when_topK_allows
  (v kw : list SearchResult) (topK : nat) :
  List.length (mergeAndRerankResults v kw topK) =
    Nat.min topK (List.length (distinct_ids v kw)) /\
  (List.length (distinct_ids v kw) <= topK ->
   Permutation (List.map id (mergeAndRerankResults v kw topK))
     (distinct_ids v kw)).
Proof.
  assert (Hlen : List.length (fuse_all v kw) =
                 List.length (distinct_ids v kw)).
  { rewrite <- (length_map id).
    rewrite <- (Permutation_length (fuse_all_ids v kw)).
    apply Permutation_length, keys_distinct_ids. }
  rewrite merge_is_truncated_fusion. split.
  - now rewrite length_firstn, Hlen.
  - intros Hle. rewrite firstn_all2 by lia.
    eapply perm_trans; [apply Permutation_sym, fuse_all_ids|].
    apply keys_distinct_ids.
Qed.

Lemma fuse_returns_every_document_when_topK_allows_witness :
  Permutation
    (List.map id
       (mergeAndRerankResults [FusionExamples.D1; FusionExamples.D2]
          [FusionExamples.D2_kw] 5))
    (distinct_ids [FusionExamples.D1; FusionExamples.D2]
       [FusionExamples.D2_kw]).
Proof.
  apply (fuse_returns_every_document_when_topK_allows
           [FusionExamples.D1; FusionExamples.D2] [FusionExamples.D2_kw] 5).
  vm_compute. lia.
Defined.



(** *** Fusing a single channel *)


Lemma ranked_entries_keys (l : list SearchResult) (rank : nat) :
  map_keys (ranked_entries l rank) = List.map id l.
Proof.
  revert rank. induction l as [|r l IH]; intros rank; simpl;
    [reflexivity|now rewrite IH].
Qed.










(** X6.  Asking for fewer results gives a prefix of what a larger [topK]
    gives: the first [n] entries of [fuse(A, B, m)] are [fuse(A, B, n)]
    whenever [n <= m]. *)
Theorem smaller_topK_gives_prefix
  (v kw : list SearchResult) (n m : nat) :
  n <= m ->
  firstn n (mergeAndRerankResults v kw m) = mergeAndRerankResults v kw n.
Proof.
  intros H. rewrite !merge_is_truncated_fusion, firstn_firstn.
  now rewrite Nat.min_l.
Qed.

Lemma smaller_topK_gives_prefix_witness :
  firstn 1
    (mergeAndRerankResults [FusionExamples.D1; FusionExamples.D2]
       [FusionExamples.D2_kw] 2) =
  mergeAndRerankResults [FusionExamples.D1; FusionExamples.D2]
    [FusionExamples.D2_kw] 1.
Proof.
  apply (smaller_topK_gives_prefix [FusionExamples.D1; FusionExamples.D2]
           [FusionExamples.D2_kw] 1 2).
  lia.
Defined.

Lemma merge_ids_NoDup (v kw : list SearchResult) (topK : nat) :
  NoDup (List.map id (mergeAndRerankResults v kw topK)).
Proof.
  rewrite merge_is_truncated_fusion, <- firstn_map. apply NoDup_firstn.
  eapply Permutation_NoDup; [apply fuse_all_ids|].
  apply well_formed_accumulate.
Qed.

(** *** What the binary64 fusion returns *)

Lemma merge64_length (v kw : list SearchResult) (n : nat) :
  List.length (Fusion64.mergeAndRerankResults v kw n) <= n.
Proof.
  unfold Fusion64.mergeAndRerankResults, slice0.
  rewrite length_map. apply firstn_le_length.
Qed.

Lemma merge64_In (v kw : list SearchResult) (topK : nat) (r : SearchResult) :
  In r (Fusion64.mergeAndRerankResults v kw topK) ->
  exists e, map_get (id r) (Fusion64.accumulate v kw) = Some e /\
            r = with_score e.
Proof.
  unfold Fusion64.mergeAndRerankResults, slice0. intros Hin.
  apply in_map_iff in Hin as (e & <- & Hin).
  exists e. split; [|reflexivity].
  assert (In e (map_values (Fusion64.accumulate v kw))) as Hv.
  { apply (Array_sort_In Fusion64.by_rrf_desc). eapply In_firstn; eauto. }
  simpl. apply values_get; [apply well_formed_accumulate64|exact Hv].
Qed.

Lemma same_entries_get_result (i : string) (m m' : ScoreMap) (e : Entry) :
  Fusion64.same_entries m m' -> map_get i m = Some e ->
  exists e', map_get i m' = Some e' /\ result e' = result e.
Proof.
  intros Hm Hget. pose proof (same_entries_get i m m' Hm) as H.
  rewrite Hget in H. destruct (map_get i m') as [e'|]; [|contradiction].
  exists e'. split; [reflexivity|now symmetry].
Qed.

(** Every result bears the text and metadata of an input candidate. *)
Lemma merge64_payload (v kw : list SearchResult) (topK : nat)
  (r : SearchResult) :
  In r (Fusion64.mergeAndRerankResults v kw topK) ->
  exists c, In c (v ++ kw) /\ same_payload r c.
Proof.
  intros Hin. apply merge64_In in Hin as (e & Hget & ->).
  destruct (same_entries_get_result _ _ _ _ (accumulate64_entries v kw) Hget)
    as (e' & Hget' & Hres).
  pose proof (accumulate_values (fun e => In (result e) (v ++ kw)) v kw) as H.
  rewrite Forall_forall in H. exists (result e). split.
  - rewrite <- Hres. apply H; [| | |eapply map_get_In; eauto].
    + intros r rank Hr. simpl. apply in_or_app. now left.
    + intros r rank Hr. simpl. apply in_or_app. now right.
    + intros e0 rank H0. exact H0.
  - unfold same_payload. simpl. auto.
Qed.

Lemma merge64_ids (v kw : list SearchResult) (topK : nat) :
  List.map id (Fusion64.mergeAndRerankResults v kw topK) =
  firstn topK
    (List.map (fun e => id (result e))
       (Array_sort Fusion64.by_rrf_desc
          (map_values (Fusion64.accumulate v kw)))).
Proof.
  unfold Fusion64.mergeAndRerankResults, slice0.
  rewrite map_map. simpl. now rewrite firstn_map.
Qed.

Lemma sorted64_ids (v kw : list SearchResult) :
  Permutation (map_keys (accumulate v kw))
    (List.map (fun e => id (result e))
       (Array_sort Fusion64.by_rrf_desc
          (map_values (Fusion64.accumulate v kw)))).
Proof.
  rewrite <- accumulate64_keys.
  destruct (well_formed_accumulate64 v kw) as [_ Hk].
  rewrite <- (keys_of_values _ Hk).
  apply Permutation_map, Array_sort_perm.
Qed.

Lemma merge64_ids_NoDup (v kw : list SearchResult) (topK : nat) :
  NoDup (List.map id (Fusion64.mergeAndRerankResults v kw topK)).
Proof.
  rewrite merge64_ids. apply NoDup_firstn.
  eapply Permutation_NoDup; [apply sorted64_ids|].
  apply well_formed_accumulate.
Qed.

(** *** The binary64 fusion in the specification's words *)

Lemma vector_loop_get64 (v : list SearchResult) :
  NoDup (List.map id v) ->
  forall (r0 : nat) (m : ScoreMap) (i : string),
    map_get i (forEach Fusion64.vector_step v r0 m) =
    match rank_of i v, first_seen i v with
    | Some r, Some c =>
        Some {| result := c; rrfScore := Fusion64.rrf (r0 + r) |}
    | _, _ => map_get i m
    end.
Proof.
  induction v as [|x v IH]; intros Hnd r0 m i; simpl; [reflexivity|].
  simpl in Hnd. inversion Hnd as [|? ? Hnotin Hnd']; subst.
  rewrite (IH Hnd'). unfold Fusion64.vector_step.
  destruct (String.eqb_spec i (id x)) as [->|Hne].
  - rewrite (rank_of_none_notin _ _ Hnotin).
    rewrite map_get_set_same. now rewrite Nat.add_0_r.
  - rewrite map_get_set_other by exact Hne.
    destruct (rank_of i v) as [r|]; simpl; [|reflexivity].
    destruct (first_seen i v); [|reflexivity].
    now rewrite Nat.add_succ_r.
Qed.

Lemma keyword_step_get_other64 r rank m i :
  i <> id r -> map_get i (Fusion64.keyword_step r rank m) = map_get i m.
Proof.
  intros Hne. unfold Fusion64.keyword_step.
  destruct (map_has (id r) m); [|now apply map_get_set_other].
  destruct (map_get (id r) m); [|reflexivity].
  now apply map_get_set_other.
Qed.

Lemma keyword_loop_get64 (kw : list SearchResult) :
  NoDup (List.map id kw) ->
  forall (r0 : nat) (m : ScoreMap) (i : string),
    map_get i (forEach Fusion64.keyword_step kw r0 m) =
    match rank_of i kw, first_seen i kw with
    | Some r, Some c =>
        Some
          match map_get i m with
          | Some e =>
              {| result := result e;
                 rrfScore :=
                   Binary64.add (rrfScore e) (Fusion64.rrf (r0 + r)) |}
          | None => {| result := c; rrfScore := Fusion64.rrf (r0 + r) |}
          end
    | _, _ => map_get i m
    end.
Proof.
  induction kw as [|x kw IH]; intros Hnd r0 m i; simpl; [reflexivity|].
  simpl in Hnd. inversion Hnd as [|? ? Hnotin Hnd']; subst.
  rewrite (IH Hnd').
  destruct (String.eqb_spec i (id x)) as [->|Hne].
  - rewrite (rank_of_none_notin _ _ Hnotin). simpl.
    rewrite Nat.add_0_r. unfold Fusion64.keyword_step.
    destruct (map_get (id x) m) as [e|] eqn:G.
    + assert (map_has (id x) m = true) as ->
          by (apply map_get_has; eauto).
      apply map_get_set_same.
    + assert (map_has (id x) m = false) as ->
          by (now apply map_get_none).
      apply map_get_set_same.
  - rewrite keyword_step_get_other64 by exact Hne.
    destruct (rank_of i kw) as [r|]; simpl; [|reflexivity].
    destruct (first_seen i kw); [|reflexivity].
    now rewrite Nat.add_succ_r.
Qed.

Lemma first_seen_app_l (i : string) (v kw : list SearchResult)
  (c : SearchResult) :
  first_seen i v = Some c -> first_seen i (v ++ kw) = Some c.
Proof.
  induction v as [|x v IH]; simpl; [discriminate|].
  destruct (String.eqb i (id x)); auto.
Qed.

Lemma first_seen_app_r (i : string) (v kw : list SearchResult) :
  first_seen i v = None -> first_seen i (v ++ kw) = first_seen i kw.
Proof.
  induction v as [|x v IH]; simpl; [reflexivity|].
  destruct (String.eqb i (id x)); [discriminate|auto].
Qed.

(** With no identifier repeated within a list, the accumulator holds for
    each document its first-seen candidate and the fused score of the
    specification. *)
Lemma accumulate64_get (v kw : list SearchResult) (i : string) (e : Entry) :
  NoDup (List.map id v) -> NoDup (List.map id kw) ->
  map_get i (Fusion64.accumulate v kw) = Some e ->
  rrfScore e = Fusion64.spec_fused_score i v kw /\
  first_seen i (v ++ kw) = Some (result e).
Proof.
  intros Hv Hkw. unfold Fusion64.accumulate, Fusion64.spec_fused_score.
  rewrite (keyword_loop_get64 kw Hkw), (vector_loop_get64 v Hv).
  simpl.
  destruct (rank_of i v) as [a|] eqn:Ha.
  - destruct (first_seen i v) as [c|] eqn:Hc;
      [|apply rank_of_first_seen_none in Hc; congruence].
    rewrite (first_seen_app_l _ _ kw _ Hc).
    destruct (rank_of i kw) as [b|] eqn:Hb.
    + destruct (first_seen i kw) as [c'|] eqn:Hc';
        [|apply rank_of_first_seen_none in Hc'; congruence].
      intros [= <-]. simpl. now split.
    + intros [= <-]. simpl. now split.
  - assert (Hnone : first_seen i v = None)
      by now apply rank_of_first_seen_none.
    rewrite (first_seen_app_r _ _ kw Hnone).
    assert (Hm : match first_seen i v with
                 | Some c => map_get i []
                 | None => map_get i []
                 end = @None Entry) by (destruct (first_seen i v); reflexivity).
    destruct (rank_of i kw) as [b|] eqn:Hb.
    + destruct (first_seen i kw) as [c'|] eqn:Hc';
        [|apply rank_of_first_seen_none in Hc'; congruence].
      intros [= <-]. simpl. now split.
    + discriminate.
Qed.

(** With no identifier repeated within a list, what [fuse] returns is the
    fusion of the specification. *)
Lemma merge64_is_rrf_fusion (v kw : list SearchResult) (topK : nat) :
  NoDup (List.map id v) -> NoDup (List.map id kw) ->
  Fusion64.is_rrf_fusion v kw topK
    (Fusion64.mergeAndRerankResults v kw topK).
Proof.
  intros Hv Hkw.
  set (n := List.length (map_values (Fusion64.accumulate v kw))).
  assert (Hfull : forall m, n <= m ->
            Fusion64.mergeAndRerankResults v kw m =
            Fusion64.mergeAndRerankResults v kw n).
  { intros m Hm. unfold Fusion64.mergeAndRerankResults, slice0.
    rewrite !firstn_all2; [reflexivity| |];
      rewrite Array_sort_length; unfold n; lia. }
  exists (Fusion64.mergeAndRerankResults v kw n).
  split; [|split; [|split; [|split]]].
  - unfold Fusion64.mergeAndRerankResults, slice0.
    rewrite <- firstn_map. f_equal.
    rewrite firstn_all2; [reflexivity|].
    rewrite Array_sort_length. unfold n. lia.
  - apply merge64_ids_NoDup.
  - intros i. rewrite merge64_ids, firstn_all2
      by (rewrite length_map, Array_sort_length; unfold n; lia).
    destruct (order_agrees_accumulate v kw) as (_ & Hin & _).
    rewrite <- Hin. split; intros H.
    + eapply Permutation_in; [apply Permutation_sym, sorted64_ids|exact H].
    + eapply Permutation_in; [apply sorted64_ids|exact H].
  - rewrite Forall_forall. intros r Hin.
    apply merge64_In in Hin as (e & Hget & ->).
    simpl in Hget.
    destruct (accumulate64_get v kw _ e Hv Hkw Hget) as [Hs Hf].
    split.
    + exists (result e). split; [exact Hf|]. now repeat split.
    + simpl. rewrite Hs. reflexivity.
  - pose proof (merge64_lex_sorted v kw n) as HS.
    apply StronglySorted_weaken with (2 := HS).
    intros a b Ha Hb [Hlt|[Heq Hidx]]; [now left|right].
    split; [exact Heq|].
    destruct (order_agrees_accumulate v kw) as (_ & _ & Hord).
    unfold insertion_index. apply Hord; [| |exact Hidx].
    + now apply merge64_inserted in Ha.
    + now apply merge64_inserted in Hb.
Qed.
End FusionProps.

(** ** Retrievers and orchestrator *)

Section SortDescending.
Context {A : Type} (key : A -> Q).


End SortDescending.


Module RetrievalProps.
Import Mongo Retrieval.

Lemma mem_In (x : string) (l : list string) : mem x l = true <-> In x l.
Proof.
  unfold mem. rewrite existsb_exists. split.
  - intros (y & Hy & E). apply String.eqb_eq in E. now subst.
  - intros H. exists x. split; [exact H|apply String.eqb_refl].
Qed.

(** [Math.ceil(topK * 1.5)] on a count. *)
Lemma Math_ceil_three_halves (n : nat) :
  Math_ceil (number n * (15 # 10)) = (3 * n + 1) / 2.
Proof.
  unfold Math_ceil, number, Qceiling, Qfloor, Qmult, Qopp, inject_Z.
  cbn [Qnum Qden]. change (Z.pos (1 * 10)) with 10%Z.
  apply Nat2Z.inj. rewrite Nat2Z.inj_div.
  replace (Z.of_nat (3 * n + 1)) with (3 * Z.of_nat n + 1)%Z by lia.
  change (Z.of_nat 2) with 2%Z.
  generalize (Z.of_nat n) (Nat2Z.is_nonneg n). intros z Hz.
  rewrite Z2Nat.id; Z.to_euclidean_division_equations; lia.
Qed.

(** Everything [search] returns comes from a row that passed every stage
    before the projection. *)
Lemma search_In (st : Store) (query : string) (options : SearchOptions)
  (r : SearchResult) :
  In r (search st query options) ->
  exists row : Row Chunk.IChunk Q,
    r = project_search row /\
    Qle_bool (withDefault (7 # 10)%Q (minScore options)) (r_score row) = true /\
    In row
      (run_match_stages
         (buildFilterStages
            (Some (withDefault no_filters (filters options))))
         (addFields_score
            (unwind
               (vectorSearch st
                  (search_stage (generateEmbedding st query)
                     (withDefault 5 (topK options))))))).
Proof.
  unfold search, limit_stage, sort_score_desc, match_score_gte.
  intros Hin. apply In_firstn in Hin.
  apply in_map_iff in Hin as (row & <- & Hin).
  apply Array_sort_In in Hin. apply filter_In in Hin as [Hin Hs].
  exists row. auto.
Qed.

Lemma filter_all {A : Type} (p : A -> bool) (l : list A) :
  (forall x, In x l -> p x = true) -> filter p l = l.
Proof.
  induction l as [|x l IH]; intros H; simpl; [reflexivity|].
  rewrite (H x) by now left. rewrite IH; [reflexivity|].
  intros y Hy. apply H. now right.
Qed.

(** The filter stages [buildFilterStages] builds keep the rows whose
    document passes the three allow-lists. *)
Lemma filter_stages_select {C S : Type} (f : Filters)
  (rows : list (Row C S)) :
  run_match_stages (buildFilterStages (Some f)) rows =
  filter (fun r => matches_fields (filter_conditions f) (r_doc r)) rows.
Proof.
  unfold buildFilterStages.
  destruct (has_conditions (filter_conditions f)) eqn:E; [reflexivity|].
  simpl. symmetry. apply filter_all. intros r _.
  unfold has_conditions, filter_conditions in E. cbn in E.
  unfold matches_fields, filter_conditions. cbn.
  destruct (in_condition (f_impact f)); [discriminate|].
  destruct (in_condition (f_protocol f)); [discriminate|].
  destruct (in_condition (f_firm f)); [discriminate|]. reflexivity.
Qed.









(** *** Keyword retriever *)


Lemma unwind_preserve_In {S : Type} (rows : list (Row Stored S))
  (row : Row (option Chunk.IChunk) S) :
  In row (unwind_preserve rows) ->
  exists d, In d rows /\ r_doc row = r_doc d /\ r_score row = r_score d /\
    (withDefault [] (r_chunks d) = [] -> r_chunks row = None).
Proof.
  unfold unwind_preserve, Stored in *. intros Hin.
  apply in_flat_map in Hin as (d & Hd & Hin). exists d.
  split; [exact Hd|].
  destruct (withDefault [] (r_chunks d)) as [|c cs].
  - destruct Hin as [<-|[]]. auto.
  - apply in_map_iff in Hin as (c' & <- & _). simpl.
    split; [reflexivity|]. split; [reflexivity|].
    intros H. discriminate H.
Qed.



(** C7, evaluated where it fails.  With [topK = 1], a single matched
    document stored as two chunks yields two candidates: [$limit] comes
    before [$unwind], so the list is not truncated to [topK] entries. *)
Theorem keyword_search_exceeds_topK :
  withDefault 5 (topK RetrievalExamples.top1) = 1 /\
  List.length
    (keywordSearch RetrievalExamples.store "reentrancy"
       RetrievalExamples.top1) = 2 /\
  ~ List.length
      (keywordSearch RetrievalExamples.store "reentrancy"
         RetrievalExamples.top1)
    <= withDefault 5 (topK RetrievalExamples.top1).
Proof.
  split; [reflexivity|]. split; [reflexivity|].
  vm_compute. lia.
Qed.

(** *** Orchestrator *)

(** X25.  The orchestrator on every input: the vector retriever is asked for
    [topK' = ceil(topK * 1.5)] candidates with the caller's other options,
    the keyword retriever is run with the caller's options, and at most
    [topK] results come back.  When neither retriever returns two
    candidates of one document, the result is the fusion of the
    specification: every document of the two lists once, with its
    first-seen payload and the sum of its rank contributions, by descending
    score, ties by insertion order, truncated to [topK]. *)
Lemma hybrid_search_fuses_when_ids_distinct
  (st : Store) (query : string) (options : SearchOptions) :
  let k := withDefault 5 (topK options) in
  let k' := Math_ceil (number k * (15 # 10)) in
  let vectorResults :=
    search st query
      {| topK := Some k';
         minScore := minScore options;
         filters := filters options |} in
  let keywordResults := keywordSearch st query options in
  (3 * k <= 2 * k' < 3 * k + 2) /\
  List.length vectorResults <= k' /\
  List.length (hybridSearch st query options) <= k /\
  (NoDup (List.map id vectorResults) ->
   NoDup (List.map id keywordResults) ->
   Fusion64.is_rrf_fusion vectorResults keywordResults k
     (hybridSearch st query options)).
Proof.
  intros k k' vectorResults keywordResults.
  assert (Hk' : k' = (3 * k + 1) / 2) by apply Math_ceil_three_halves.
  split; [|split; [|split]].
  - rewrite Hk'.
    pose proof (Nat.div_mod (3 * k + 1) 2 ltac:(lia)) as Hd.
    pose proof (Nat.mod_upper_bound (3 * k + 1) 2 ltac:(lia)). lia.
  - unfold vectorResults, search, limit_stage. apply firstn_le_length.
  - unfold hybridSearch. apply FusionProps.merge64_length.
  - intros Hv Hkw. unfold hybridSearch.
    now apply FusionProps.merge64_is_rrf_fusion.
Qed.

Lemma hybrid_search_fuses_when_ids_distinct_witness :
  let vectorResults :=
    search RetrievalExamples.scenario_store "call"
      {| topK := Some 8; minScore := None; filters := None |} in
  let keywordResults :=
    keywordSearch RetrievalExamples.scenario_store "call"
      RetrievalExamples.defaults in
  List.map id vectorResults = ["S1"; "S2"]%string /\
  List.map id keywordResults = ["S2"]%string /\
  List.map id
    (hybridSearch RetrievalExamples.scenario_store "call"
       RetrievalExamples.defaults) = ["S2"; "S1"]%string /\
  Fusion64.is_rrf_fusion vectorResults keywordResults 5
    (hybridSearch RetrievalExamples.scenario_store "call"
       RetrievalExamples.defaults).
Proof.
  intros vectorResults keywordResults.
  split; [vm_compute; reflexivity|].
  split; [vm_compute; reflexivity|].
  split; [vm_compute; reflexivity|].
  pose proof (hybrid_search_fuses_when_ids_distinct
                RetrievalExamples.scenario_store "call"
                RetrievalExamples.defaults) as (_ & _ & _ & H).
  apply H.
  - vm_compute. repeat constructor; simpl; intuition discriminate.
  - vm_compute. repeat constructor. intros [].
Defined.

(** C2, evaluated where it fails.  With the default options
    ([topK = 5], so [topK' = 8]) on a store whose best hit is one document
    stored as two chunks, the vector retriever returns one candidate per
    chunk, both under the document's identifier.  The fusion then returns
    the document with the text of its second chunk and the score
    [1/62 + 1/61 + 1/62]: the second vector candidate has replaced the
    first.  The fusion of the specification keeps the first-seen payload
    (the first chunk) and gives the document its contribution at vector
    rank 0; the result is not that fusion. *)
Theorem hybrid_search_overwrites_first_chunk :
  let st := RetrievalExamples.store in
  let options := RetrievalExamples.defaults in
  let vectorResults :=
    search st "reentrancy"
      {| topK := Some 8; minScore := minScore options;
         filters := filters options |} in
  let keywordResults := keywordSearch st "reentrancy" options in
  let out := hybridSearch st "reentrancy" options in
  Math_ceil (number (withDefault 5 (topK options)) * (15 # 10)) = 8 /\
  List.map (fun r => (id r, text r)) vectorResults =
    [ ("F1", "Withdraw sends ether before it updates the balance");
      ("F1", "Update the balance first") ]%string /\
  List.map (fun r => (id r, text r)) keywordResults =
    [ ("F1", "Withdraw sends ether before it updates the balance");
      ("F1", "Update the balance first");
      ("F2", "Missing reentrancy guard") ]%string /\
  List.map (fun r => (id r, text r)) out =
    [ ("F1", "Update the balance first");
      ("F2", "Missing reentrancy guard") ]%string /\
  List.map score out =
    [ Binary64.add (Binary64.add (Fusion64.rrf 1) (Fusion64.rrf 0))
        (Fusion64.rrf 1);
      Fusion64.rrf 2 ] /\
  option_map text
    (Fusion.first_seen "F1" (vectorResults ++ keywordResults)) =
    Some "Withdraw sends ether before it updates the balance"%string /\
  Fusion64.spec_fused_score "F1" vectorResults keywordResults =
    Binary64.add (Fusion64.rrf 0) (Fusion64.rrf 0) /\
  ~ (Binary64.add (Binary64.add (Fusion64.rrf 1) (Fusion64.rrf 0))
       (Fusion64.rrf 1)
     == Binary64.add (Fusion64.rrf 0) (Fusion64.rrf 0))%Q /\
  ~ Fusion64.is_rrf_fusion vectorResults keywordResults 5 out.
Proof.
  intros st options vectorResults keywordResults out.
  split; [vm_compute; reflexivity|].
  split; [vm_compute; reflexivity|].
  split; [vm_compute; reflexivity|].
  split; [vm_compute; reflexivity|].
  split; [vm_compute; reflexivity|].
  split; [vm_compute; reflexivity|].
  split; [vm_compute; reflexivity|].
  split; [vm_compute; discriminate|].
  intros (full & Hout & _ & _ & Hall & _).
  destruct full as [|x full]; [vm_compute in Hout; discriminate|].
  apply Forall_inv in Hall. destruct Hall as [(c & Hc & _ & Htext & _) _].
  assert (Hx : id x = "F1"%string /\
               text x = "Update the balance first"%string).
  { vm_compute in Hout. injection Hout as Hx _. subst x. now split. }
  destruct Hx as [Hid Ht]. rewrite Hid in Hc. rewrite Ht in Htext.
  vm_compute in Hc. injection Hc as <-. discriminate Htext.
Qed.

(** *** Further properties of the retrievers *)

Lemma holds_in_allowed (allow : option (list string)) (value : string) :
  holds_in (in_condition allow) value = true <-> allowed allow value.
Proof.
  destruct allow as [[|x l]|]; simpl; try tauto.
  apply (mem_In value (x :: l)).
Qed.

Lemma matches_fields_satisfies (query : option string) (f : Filters)
  (d : Finding.IAuditFinding) :
  matches_fields
    {| mc_text := query;
       mc_impact := in_condition (f_impact f);
       mc_protocol_name := in_condition (f_protocol f);
       mc_firm_name := in_condition (f_firm f) |} d = true <->
  allowed (f_impact f) (Finding.impact d) /\
  allowed (f_protocol f) (Finding.protocol_name d) /\
  allowed (f_firm f) (Finding.firm_name d).
Proof.
  unfold matches_fields. cbn [mc_impact mc_protocol_name mc_firm_name].
  rewrite !andb_true_iff, !holds_in_allowed. tauto.
Qed.

Lemma unwind_In {S : Type} (rows : list (Row Stored S))
  (row : Row Chunk.IChunk S) :
  In row (unwind rows) <->
  exists d cs,
    In d rows /\ r_chunks d = Some cs /\ In (r_chunks row) cs /\
    r_doc row = r_doc d /\ r_meta row = r_meta d /\ r_score row = r_score d.
Proof.
  unfold unwind, Stored in *. rewrite in_flat_map. split.
  - intros (d & Hd & Hin). apply in_map_iff in Hin as (c & <- & Hc).
    destruct (r_chunks d) as [cs|] eqn:E; [|destruct Hc].
    exists d, cs. simpl. repeat split; auto.
  - intros (d & cs & Hd & Hcs & Hc & H1 & H2 & H3).
    exists d. split; [exact Hd|]. rewrite Hcs. simpl.
    apply in_map_iff. exists (r_chunks row). split; [|exact Hc].
    destruct row. simpl in *. congruence.
Qed.

(** X8.  Every candidate the vector retriever returns is one chunk of a
    document among the first [topK] hits of the similarity index: it bears
    that document's identifier and metadata, the chunk's text and section,
    and the hit's score.  A hit without chunk data yields no candidate. *)
Theorem vector_candidates_are_chunks_of_hits
  (st : Store) (query : string) (options : SearchOptions) :
  let k := withDefault 5 (topK options) in
  let request := search_stage (generateEmbedding st query) k in
  Forall
    (fun r =>
       exists d s cs c,
         In (d, s) (firstn k (nearest st request)) /\
         Finding.chunks d = Some cs /\ In c cs /\
         r = {| id := Finding._id d;
                text := Chunk.text c;
                score := s;
                metadata :=
                  {| protocol := Finding.protocol_name d;
                     impact := Finding.impact d;
                     title := Finding.title d;
                     section := Chunk.section (Chunk.metadata c);
                     source_link := Finding.source_link d;
                     firm := Finding.firm_name d |} |})
    (search st query options).
Proof.
  intros k request. rewrite Forall_forall. intros r Hin.
  apply search_In in Hin as (row & -> & _ & Hin).
  rewrite filter_stages_select in Hin. apply filter_In in Hin as [Hin _].
  unfold addFields_score in Hin. apply in_map_iff in Hin as (row0 & <- & Hin).
  apply unwind_In in Hin as (d & cs & Hd & Hcs & Hc & Hdoc & Hmeta & _).
  unfold vectorSearch in Hd. apply in_map_iff in Hd as ([f s] & <- & Hd).
  simpl in *. exists f, s, cs, (r_chunks row0).
  split; [exact Hd|]. split; [exact Hcs|]. split; [exact Hc|].
  unfold project_search. simpl. now rewrite Hdoc, Hmeta.
Qed.

Lemma search_satisfies (st : Store) (query : string)
  (options : SearchOptions) (r : SearchResult) :
  In r (search st query options) ->
  satisfies (withDefault no_filters (filters options)) (metadata r).
Proof.
  intros Hin. apply search_In in Hin as (row & -> & _ & Hin).
  rewrite filter_stages_select in Hin. apply filter_In in Hin as [_ Hm].
  apply matches_fields_satisfies in Hm. exact Hm.
Qed.

Lemma keywordSearch_satisfies (st : Store) (query : string)
  (options : SearchOptions) (r : SearchResult) :
  In r (keywordSearch st query options) ->
  satisfies (withDefault no_filters (filters options)) (metadata r).
Proof.
  unfold keywordSearch. intros Hin.
  apply in_map_iff in Hin as (row & <- & Hin).
  apply unwind_preserve_In in Hin as (d & Hd & Hdoc & _).
  unfold limit_stage, sort_score_desc, addFields_score in Hd.
  apply In_firstn in Hd. apply Array_sort_In in Hd.
  apply in_map_iff in Hd as (r0 & <- & Hd). simpl in Hdoc.
  unfold match_text in Hd. apply in_flat_map in Hd as (f & Hf & Hd).
  cbn [mc_text keyword_conditions] in Hd.
  destruct (textScore st query f); [|destruct Hd].
  destruct (matches_fields _ f) eqn:Hm; [|destruct Hd].
  destruct Hd as [<-|[]]. simpl in Hdoc.
  apply matches_fields_satisfies in Hm.
  unfold satisfies, project_keyword. simpl. now rewrite Hdoc.
Qed.

Lemma merge_payload (v kw : list SearchResult) (topK : nat)
  (r : SearchResult) :
  In r (Fusion64.mergeAndRerankResults v kw topK) ->
  exists c, In c (v ++ kw) /\ Fusion.same_payload r c.
Proof. apply FusionProps.merge64_payload. Qed.

(** X9.  The allow-lists hold end to end: every candidate of the vector
    retriever, of the keyword retriever and of [hybridSearch] has its
    impact, protocol and firm in the corresponding allow-list whenever that
    list is supplied and non-empty. *)
Theorem filters_hold_in_every_retriever
  (st : Store) (query : string) (options : SearchOptions) :
  let f := withDefault no_filters (filters options) in
  Forall (fun r => satisfies f (metadata r)) (search st query options) /\
  Forall (fun r => satisfies f (metadata r))
    (keywordSearch st query options) /\
  Forall (fun r => satisfies f (metadata r))
    (hybridSearch st query options).
Proof.
  intros f. split; [|split]; rewrite Forall_forall; intros r Hin.
  - now apply search_satisfies in Hin.
  - now apply keywordSearch_satisfies in Hin.
  - unfold hybridSearch in Hin.
    apply merge_payload in Hin as (c & Hc & _ & _ & Hmeta).
    rewrite Hmeta. apply in_app_or in Hc as [Hc|Hc].
    + apply search_satisfies in Hc. exact Hc.
    + now apply keywordSearch_satisfies in Hc.
Qed.

Lemma filters_hold_in_every_retriever_witness :
  Forall
    (fun r => In (impact (metadata r)) ["HIGH"; "CRITICAL"]%string)
    (hybridSearch RetrievalExamples.store "reentrancy"
       RetrievalExamples.high_only).
Proof.
  destruct (filters_hold_in_every_retriever RetrievalExamples.store
              "reentrancy" RetrievalExamples.high_only) as (_ & _ & H).
  eapply Forall_impl; [|exact H].
  intros r (Hi & _ & _). exact Hi.
Defined.

Lemma unconstrained_stages (f : Filters) :
  unconstrained f -> buildFilterStages (Some f) = [].
Proof.
  intros (H1 & H2 & H3). unfold buildFilterStages, has_conditions.
  unfold filter_conditions. cbn. now rewrite H1, H2, H3.
Qed.

Lemma unconstrained_search (st : Store) (query : string)
  (k : option nat) (s : option Q) (f : Filters) :
  unconstrained f ->
  search st query {| topK := k; minScore := s; filters := Some f |} =
  search st query {| topK := k; minScore := s; filters := None |}.
Proof.
  intros H. unfold search. cbn [filters topK minScore withDefault].
  rewrite (unconstrained_stages f H).
  rewrite (unconstrained_stages no_filters); [reflexivity|].
  repeat split.
Qed.

Lemma unconstrained_keywordSearch (st : Store) (query : string)
  (k : option nat) (s : option Q) (f : Filters) :
  unconstrained f ->
  keywordSearch st query {| topK := k; minScore := s; filters := Some f |} =
  keywordSearch st query {| topK := k; minScore := s; filters := None |}.
Proof.
  intros (H1 & H2 & H3). unfold keywordSearch, keyword_conditions.
  cbn [filters topK minScore withDefault]. rewrite H1, H2, H3.
  reflexivity.
Qed.

(** X10.  An allow-list that is absent or empty constrains nothing: when
    each of the three allow-lists is absent or empty, the vector retriever,
    the keyword retriever and [hybridSearch] return what they return
    without any [filters] option. *)
Theorem empty_allow_lists_do_not_filter
  (st : Store) (query : string) (k : option nat) (s : option Q)
  (f : Filters) :
  unconstrained f ->
  let given := {| topK := k; minScore := s; filters := Some f |} in
  let bare := {| topK := k; minScore := s; filters := None |} in
  search st query given = search st query bare /\
  keywordSearch st query given = keywordSearch st query bare /\
  hybridSearch st query given = hybridSearch st query bare.
Proof.
  intros H given bare. split; [|split].
  - now apply unconstrained_search.
  - now apply unconstrained_keywordSearch.
  - unfold hybridSearch, given, bare. cbn [filters topK minScore].
    rewrite (unconstrained_search st query _ s f H).
    now rewrite (unconstrained_keywordSearch st query k s f H).
Qed.

Lemma empty_allow_lists_do_not_filter_witness :
  hybridSearch RetrievalExamples.store "reentrancy"
    {| topK := Some 2; minScore := None;
       filters := Some {| f_impact := Some []; f_protocol := None;
                          f_firm := Some [] |} |} =
  hybridSearch RetrievalExamples.store "reentrancy"
    {| topK := Some 2; minScore := None; filters := None |}.
Proof.
  apply (empty_allow_lists_do_not_filter RetrievalExamples.store "reentrancy"
           (Some 2) None
           {| f_impact := Some []; f_protocol := None; f_firm := Some [] |}).
  repeat split.
Defined.

(** *** Further properties of the orchestrator *)

(** X11.  [hybridSearch] returns pairwise distinct document identifiers,
    and every result bears the identifier, text and metadata of a candidate
    that the vector retriever (run with the fan-out options) or the keyword
    retriever returned. *)
Theorem hybrid_results_are_channel_candidates
  (st : Store) (query : string) (options : SearchOptions) :
  NoDup (List.map id (hybridSearch st query options)) /\
  Forall
    (fun r =>
       exists c,
         In c (search st query (fan_out options)
               ++ keywordSearch st query options) /\
         id r = id c /\ text r = text c /\ metadata r = metadata c)
    (hybridSearch st query options).
Proof.
  split.
  - unfold hybridSearch. apply FusionProps.merge64_ids_NoDup.
  - rewrite Forall_forall. intros r Hin. unfold hybridSearch in Hin.
    apply merge_payload in Hin as (c & Hc & Hp). exists c. split; assumption.
Qed.

Lemma flat_map_nil {A B : Type} (f : A -> list B) (l : list A) :
  (forall x, In x l -> f x = []) -> flat_map f l = [].
Proof.
  induction l as [|x l IH]; intros H; simpl; [reflexivity|].
  rewrite (H x) by now left. apply IH. intros y Hy. apply H. now right.
Qed.

(** X12.  When the similarity index answers the fan-out request with no
    hit and no document of the collection matches the text query,
    [hybridSearch] returns the empty list. *)
Theorem hybrid_search_of_nothing_is_empty
  (st : Store) (query : string) (options : SearchOptions) :
  nearest st
    (search_stage (generateEmbedding st query)
       (withDefault 5 (topK (fan_out options)))) = [] ->
  (forall d, In d (collection st) -> textScore st query d = None) ->
  hybridSearch st query options = [].
Proof.
  intros Hn Ht. unfold hybridSearch. fold (fan_out options).
  assert (search st query (fan_out options) = []) as ->.
  { unfold search, vectorSearch. rewrite Hn.
    rewrite firstn_nil. simpl.
    unfold buildFilterStages.
    destruct (has_conditions _); simpl; unfold limit_stage;
      now rewrite firstn_nil. }
  assert (keywordSearch st query options = []) as ->.
  { unfold keywordSearch, match_text.
    rewrite flat_map_nil.
    - simpl. unfold limit_stage. now rewrite firstn_nil.
    - intros d Hd. cbn [mc_text keyword_conditions]. now rewrite (Ht d Hd). }
  unfold Fusion64.mergeAndRerankResults, slice0. simpl.
  now rewrite firstn_nil.
Qed.

Lemma hybrid_search_of_nothing_is_empty_witness :
  hybridSearch RetrievalExamples.empty_store "reentrancy"
    RetrievalExamples.top1 = [].
Proof.
  apply (hybrid_search_of_nothing_is_empty RetrievalExamples.empty_store
           "reentrancy" RetrievalExamples.top1).
  - reflexivity.
  - intros d [].
Defined.

(** *** What callers of [hybridSearch] rely on *)

Lemma hybridSearch_satisfies (st : Store) (query : string)
  (options : SearchOptions) (r : SearchResult) :
  In r (hybridSearch st query options) ->
  satisfies (withDefault no_filters (filters options)) (metadata r).
Proof.
  unfold hybridSearch. intros Hin.
  apply merge_payload in Hin as (c & Hc & _ & _ & Hmeta).
  rewrite Hmeta. apply in_app_or in Hc as [Hc|Hc].
  - apply search_satisfies in Hc. exact Hc.
  - now apply keywordSearch_satisfies in Hc.
Qed.

Lemma hybridSearch_length (st : Store) (query : string)
  (options : SearchOptions) :
  List.length (hybridSearch st query options) <=
  withDefault 5 (topK options).
Proof. unfold hybridSearch. apply FusionProps.merge64_length. Qed.

Lemma unconstrained_hybridSearch (st : Store) (query : string)
  (k : option nat) (s : option Q) (f : Filters) :
  unconstrained f ->
  hybridSearch st query {| topK := k; minScore := s; filters := Some f |} =
  hybridSearch st query {| topK := k; minScore := s; filters := None |}.
Proof.
  intros H. unfold hybridSearch. cbn [filters topK minScore].
  rewrite (unconstrained_search st query _ s f H).
  now rewrite (unconstrained_keywordSearch st query k s f H).
Qed.
End RetrievalProps.

(** ** Chunker *)

Module ChunkerProps.
Import Chunker.

(** *** Strings *)

Lemma append_nil_r (s : string) : (s ++ "")%string = s.
Proof. induction s; simpl; congruence. Qed.

Lemma append_assoc (a b c : string) :
  ((a ++ b) ++ c)%string = (a ++ b ++ c)%string.
Proof. induction a; simpl; congruence. Qed.

Lemma length_append (a b : string) :
  String.length (a ++ b) = String.length a + String.length b.
Proof. induction a; simpl; congruence. Qed.

Lemma substring_all (s : string) : substring 0 (String.length s) s = s.
Proof. induction s; simpl; congruence. Qed.

Lemma substring_after_prefix (p s : string) (n : nat) :
  substring (String.length p) n (p ++ s) = substring 0 n s.
Proof. induction p; simpl; [reflexivity|assumption]. Qed.

(** *** Overlap selection *)

Lemma overlap_loop_spec (backward : list string) :
  forall (size : nat) (acc : list string),
    size = total_tokens acc -> size <= chunkOverlap ->
    exists taken left,
      backward = taken ++ left /\
      overlap_loop backward size acc = rev taken ++ acc /\
      total_tokens (rev taken ++ acc) <= chunkOverlap /\
      (left = [] \/
       exists s left', left = s :: left' /\
         chunkOverlap < total_tokens (rev taken ++ acc) + estimateTokens s).
Proof.
  induction backward as [|s backward IH]; intros size acc Hsize Hle; simpl.
  - exists [], []. simpl. repeat split; [lia|now left].
  - destruct (Nat.ltb_spec chunkOverlap (size + estimateTokens s)) as [H|H].
    + exists [], (s :: backward). simpl. repeat split; [lia|].
      right. exists s, backward. split; [reflexivity|lia].
    + destruct (IH (size + estimateTokens s) (s :: acc))
        as (taken & left & Hb & Hov & Htot & Hmax).
      * unfold total_tokens in *. simpl. lia.
      * exact H.
      * exists (s :: taken), left. simpl. rewrite <- !app_assoc. simpl.
        repeat split; [now rewrite Hb|exact Hov|exact Htot|exact Hmax].
Qed.

(** The overlap is the longest tail of the chunk whose cumulative size
    stays within the budget. *)
Lemma getOverlapSentences_spec (sentences : list string) :
  exists kept,
    sentences = kept ++ getOverlapSentences sentences /\
    total_tokens (getOverlapSentences sentences) <= chunkOverlap /\
    (kept = [] \/
     exists kept' s, kept = kept' ++ [s] /\
       chunkOverlap <
       estimateTokens s + total_tokens (getOverlapSentences sentences)).
Proof.
  unfold getOverlapSentences.
  destruct (overlap_loop_spec (rev sentences) 0 [])
    as (taken & left & Hb & Hov & Htot & Hmax);
    [reflexivity|unfold chunkOverlap; lia|].
  rewrite Hov, app_nil_r in *. exists (rev left).
  assert (Hs : sentences = rev left ++ rev taken).
  { rewrite <- rev_app_distr, <- Hb. now rewrite rev_involutive. }
  split; [exact Hs|]. split; [exact Htot|].
  destruct Hmax as [->|(s & left' & -> & Hlt)]; [now left|].
  right. exists (rev left'), s. simpl. split; [reflexivity|lia].
Qed.

(** *** The chunks as sentence groups *)

Lemma chunk_loop_groups (sentences : list string) :
  forall st : ChunkState,
    (let final := fold_left chunk_step sentences st in
     if 0 <? List.length (currentChunk final)
     then chunks final ++ [join " " (currentChunk final)]
     else chunks final) =
    chunks st ++
    List.map (join " ")
      (group_loop sentences (currentChunk st) (currentSize st)).
Proof.
  induction sentences as [|s sentences IH]; intros st; simpl.
  - destruct (0 <? List.length (currentChunk st)); simpl;
      [reflexivity|now rewrite app_nil_r].
  - rewrite IH. unfold chunk_step.
    destruct ((maxChunkSize <? currentSize st + estimateTokens s)
              && (0 <? List.length (currentChunk st))); simpl.
    + now rewrite <- app_assoc.
    + reflexivity.
Qed.

Lemma chunkText_groups (text : string) :
  chunkText text =
  List.map (join " ") (chunkGroups (splitIntoSentences text)).
Proof.
  unfold chunkText, chunkGroups.
  apply (chunk_loop_groups (splitIntoSentences text)
           {| chunks := []; currentChunk := []; currentSize := 0 |}).
Qed.

Lemma nonempty_length {A : Type} (l : list A) :
  l <> [] -> (0 <? List.length l) = true.
Proof. destruct l; [congruence|reflexivity]. Qed.

(** From a non-empty current chunk: the first chunk pushed extends it, the
    chunks are chained by their overlaps, and the sentences added, chunk
    after chunk, are the sentences read. *)
Lemma group_loop_spec (sentences : list string) :
  forall (cur : list string) (size : nat),
    cur <> [] ->
    exists fresh groups,
      group_loop sentences cur size = (cur ++ fresh) :: groups /\
      chained (cur ++ fresh) groups /\
      fresh ++ List.concat (fresh_parts (cur ++ fresh) groups) = sentences.
Proof.
  induction sentences as [|s sentences IH]; intros cur size Hcur; simpl.
  - rewrite (nonempty_length cur Hcur). exists [], [].
    rewrite app_nil_r. simpl. auto.
  - rewrite (nonempty_length cur Hcur), andb_true_r.
    destruct (maxChunkSize <? size + estimateTokens s).
    + destruct (IH (getOverlapSentences cur ++ [s])
                  (estimateTokens (join " " (getOverlapSentences cur))
                   + estimateTokens s))
        as (fresh & groups & Heq & Hch & Hrec).
      { intros H. now apply app_eq_nil in H as [_ H]. }
      exists [], (((getOverlapSentences cur ++ [s]) ++ fresh) :: groups).
      rewrite app_nil_r. split; [now rewrite Heq|]. split.
      * simpl. split; [|exact Hch].
        exists (s :: fresh). split; [discriminate|].
        now rewrite <- app_assoc.
      * simpl. unfold fresh_part at 1.
        replace (skipn (List.length (getOverlapSentences cur))
                   ((getOverlapSentences cur ++ [s]) ++ fresh))
          with (s :: fresh).
        -- simpl. now rewrite Hrec.
        -- rewrite <- app_assoc, skipn_app, skipn_all, Nat.sub_diag.
           reflexivity.
    + destruct (IH (cur ++ [s]) (size + estimateTokens s))
        as (fresh & groups & Heq & Hch & Hrec).
      { intros H. now apply app_eq_nil in H as [_ H]. }
      exists (s :: fresh), groups.
      rewrite <- app_assoc in Heq, Hch, Hrec. simpl in *.
      split; [exact Heq|]. split; [exact Hch|]. now rewrite Hrec.
Qed.

Lemma chunkGroups_spec (sentences : list string) :
  reconstruct (chunkGroups sentences) = sentences /\
  match chunkGroups sentences with
  | [] => sentences = []
  | g :: groups => chained g groups
  end.
Proof.
  unfold chunkGroups. destruct sentences as [|s sentences]; simpl.
  - auto.
  - destruct (group_loop_spec sentences [s] (estimateTokens s))
      as (fresh & groups & Heq & Hch & Hrec); [discriminate|].
    change (0 <? 0) with false. rewrite andb_false_r, Heq. simpl in *.
    split; [now rewrite Hrec|exact Hch].
Qed.

Lemma chained_nth (groups : list (list string)) :
  forall (g0 : list string) (i : nat) (g g' : list string),
    chained g0 groups ->
    nth_error (g0 :: groups) i = Some g ->
    nth_error (g0 :: groups) (S i) = Some g' ->
    continues g g'.
Proof.
  induction groups as [|g1 groups IH]; intros g0 i g g' Hch Hi Hj.
  - simpl in Hj. destruct i; discriminate.
  - destruct Hch as [Hc Hch]. destruct i as [|i].
    + simpl in Hi, Hj. injection Hi as <-. injection Hj as <-. exact Hc.
    + apply (IH g1 i g g' Hch); assumption.
Qed.

(** C9.  For every section text and every two consecutive chunks emitted
    from it, the later chunk starts with the sentences [getOverlapSentences]
    selects from the earlier one and adds at least one sentence; the
    selected sentences have cumulative estimated-token size at most the
    overlap budget of 50, and they are the sentences of the earlier chunk
    taken from its end backward until the next one would exceed the
    budget. *)
Theorem overlap_within_budget (text : string) :
  let groups := chunkGroups (splitIntoSentences text) in
  chunkText text = List.map (join " ") groups /\
  forall (i : nat) (g g' : list string),
    nth_error groups i = Some g ->
    nth_error groups (S i) = Some g' ->
    let carried := getOverlapSentences g in
    (exists fresh, fresh <> [] /\ g' = carried ++ fresh) /\
    total_tokens carried <= 50 /\
    exists kept,
      g = kept ++ carried /\
      (kept = [] \/
       exists kept' s, kept = kept' ++ [s] /\
         50 < estimateTokens s + total_tokens carried).
Proof.
  intros groups. split; [apply chunkText_groups|].
  intros i g g' Hi Hj carried.
  destruct (getOverlapSentences_spec g) as (kept & Hk & Htot & Hmax).
  split; [|split; [exact Htot|exists kept; split; assumption]].
  destruct (chunkGroups_spec (splitIntoSentences text)) as [_ Hch].
  fold groups in Hch. destruct groups as [|g0 groups'].
  - destruct i; discriminate.
  - exact (chained_nth groups' g0 i g g' Hch Hi Hj).
Qed.

(** *** Whole sentences *)

Lemma group_loop_infix (sentences : list string) :
  forall (cur : list string) (size : nat) (pre g : list string),
    In g (group_loop sentences cur size) ->
    g <> [] /\
    exists before after, pre ++ cur ++ sentences = before ++ g ++ after.
Proof.
  induction sentences as [|s sentences IH]; intros cur size pre g Hin;
    simpl in Hin.
  - destruct cur as [|c cur]; simpl in Hin; [destruct Hin|].
    destruct Hin as [<-|[]]. split; [discriminate|].
    exists pre, []. reflexivity.
  - destruct ((maxChunkSize <? size + estimateTokens s)
              && (0 <? List.length cur)) eqn:E.
    + destruct Hin as [<-|Hin].
      * apply andb_prop in E as [_ E]. split.
        -- intros ->. discriminate.
        -- exists pre, (s :: sentences). reflexivity.
      * destruct (getOverlapSentences_spec cur) as (kept & Hk & _).
        destruct (IH _ _ (pre ++ kept) g Hin) as (Hne & before & after & H).
        split; [exact Hne|]. exists before, after. rewrite <- H.
        rewrite Hk at 1. rewrite <- !app_assoc. reflexivity.
    + destruct (IH _ _ pre g Hin) as (Hne & before & after & H).
      split; [exact Hne|]. exists before, after. rewrite <- H.
      rewrite <- !app_assoc. reflexivity.
Qed.

Lemma group_loop_covers (sentences : list string) :
  forall (cur : list string) (size : nat) (s : string),
    In s cur \/ In s sentences ->
    exists g, In g (group_loop sentences cur size) /\ In s g.
Proof.
  induction sentences as [|x sentences IH]; intros cur size s Hin; simpl.
  - destruct Hin as [Hin|[]]. destruct cur as [|c cur]; [destruct Hin|].
    exists (c :: cur). split; [now left|exact Hin].
  - destruct ((maxChunkSize <? size + estimateTokens x)
              && (0 <? List.length cur)).
    + destruct Hin as [Hin|[<-|Hin]].
      * exists cur. split; [now left|exact Hin].
      * destruct (IH (getOverlapSentences cur ++ [x])
                    (estimateTokens (join " " (getOverlapSentences cur))
                     + estimateTokens x) x) as (g & Hg & Hs).
        { left. apply in_or_app. right. now left. }
        exists g. split; [now right|exact Hs].
      * destruct (IH (getOverlapSentences cur ++ [x])
                    (estimateTokens (join " " (getOverlapSentences cur))
                     + estimateTokens x) s) as (g & Hg & Hs);
          [now right|].
        exists g. split; [now right|exact Hs].
    + apply IH. destruct Hin as [Hin|[<-|Hin]].
      * left. apply in_or_app. now left.
      * left. apply in_or_app. right. now left.
      * now right.
Qed.

(** *** Token estimates grow with the text *)

Lemma starts_with_field (p : ascii -> bool) (s : string) :
  starts_with p s = true -> 1 <= List.length (snd (split_fields p s)).
Proof.
  induction s as [|c s IH]; simpl; [discriminate|].
  intros Hc. rewrite Hc.
  destruct (split_fields p s) as [field fields].
  destruct (starts_with p s); simpl in *; [now apply IH|lia].
Qed.

Lemma split_fields_app_r (p : ascii -> bool) (x y : string) :
  List.length (snd (split_fields p y)) <=
  List.length (snd (split_fields p (x ++ y))).
Proof.
  induction x as [|c x IH]; simpl; [lia|].
  destruct (split_fields p (x ++ y)) as [field fields].
  destruct (p c); [|exact IH].
  destruct (starts_with p (x ++ y)); simpl in *; lia.
Qed.

Lemma split_fields_app_l (p : ascii -> bool) (x y : string) :
  List.length (snd (split_fields p x)) <=
  List.length (snd (split_fields p (x ++ y))).
Proof.
  induction x as [|c x IH]; simpl; [lia|].
  destruct (split_fields p x) as [field fields] eqn:Ex.
  destruct (split_fields p (x ++ y)) as [field' fields'] eqn:Exy.
  simpl in IH. destruct (p c); [|exact IH].
  destruct x as [|d x].
  - simpl in *. injection Ex as <- <-. simpl.
    destruct (starts_with p y) eqn:Ey; simpl; [|lia].
    apply starts_with_field in Ey. rewrite Exy in Ey. exact Ey.
  - simpl (starts_with p (String d x ++ y)). simpl (starts_with p _).
    destruct (p d); simpl; lia.
Qed.

Lemma split_length (p : ascii -> bool) (s : string) :
  List.length (split p s) = S (List.length (snd (split_fields p s))).
Proof. unfold split. now destruct (split_fields p s). Qed.

(** [Math.ceil(n * 1.3)] on a count. *)
Lemma Math_ceil_thirteen_tenths (n : nat) :
  Math_ceil (number n * (13 # 10)) = (13 * n + 9) / 10.
Proof.
  unfold Math_ceil, number, Qceiling, Qfloor, Qmult, Qopp, inject_Z.
  cbn [Qnum Qden]. change (Z.pos (1 * 10)) with 10%Z.
  apply Nat2Z.inj. rewrite Nat2Z.inj_div.
  replace (Z.of_nat (13 * n + 9)) with (13 * Z.of_nat n + 9)%Z by lia.
  change (Z.of_nat 10) with 10%Z.
  generalize (Z.of_nat n) (Nat2Z.is_nonneg n). intros z Hz.
  rewrite Z2Nat.id; Z.to_euclidean_division_equations; lia.
Qed.

Lemma estimateTokens_within (a s b : string) :
  estimateTokens s <= estimateTokens (a ++ s ++ b)%string.
Proof.
  unfold estimateTokens. rewrite !Math_ceil_thirteen_tenths.
  apply Nat.Div0.div_le_mono. rewrite !split_length.
  pose proof (split_fields_app_l is_space s b).
  pose proof (split_fields_app_r is_space a (s ++ b)%string). lia.
Qed.

Lemma join_contains (sep s : string) (l : list string) :
  In s l -> exists a b, join sep l = (a ++ s ++ b)%string.
Proof.
  unfold join. induction l as [|x l IH]; [intros []|].
  intros [->|Hin].
  - destruct l as [|y l].
    + exists EmptyString, EmptyString. simpl. now rewrite append_nil_r.
    + exists EmptyString, (sep ++ String.concat sep (y :: l))%string.
      reflexivity.
  - destruct (IH Hin) as (a & b & H). destruct l as [|y l]; [destruct Hin|].
    exists (x ++ sep ++ a)%string, b.
    change (String.concat sep (x :: y :: l))
      with (x ++ sep ++ String.concat sep (y :: l))%string.
    rewrite H. now rewrite !append_assoc.
Qed.

(** C10.  Every chunk body [chunkText] emits is a non-empty run of
    consecutive whole sentences joined by single spaces; and a sentence
    whose estimated token count exceeds 512 is emitted whole, in a chunk
    whose estimated size exceeds 512 too. *)
Theorem sentences_emitted_whole (text : string) :
  let sentences := splitIntoSentences text in
  let groups := chunkGroups sentences in
  chunkText text = List.map (join " ") groups /\
  Forall (fun g => g <> [] /\ infix g sentences) groups /\
  (forall s, In s sentences -> exists g, In g groups /\ In s g) /\
  (forall s,
      In s sentences -> 512 < estimateTokens s ->
      exists g,
        In g groups /\ In s g /\
        In (join " " g) (chunkText text) /\
        512 < estimateTokens (join " " g)).
Proof.
  intros sentences groups.
  assert (Hcov : forall s, In s sentences ->
                           exists g, In g groups /\ In s g).
  { intros s Hs. apply group_loop_covers. now right. }
  split; [apply chunkText_groups|]. split; [|split; [exact Hcov|]].
  - rewrite Forall_forall. intros g Hg.
    destruct (group_loop_infix sentences [] 0 [] g Hg)
      as (Hne & before & after & H).
    split; [exact Hne|]. exists before, after. exact H.
  - intros s Hs Hbig. destruct (Hcov s Hs) as (g & Hg & Hsg).
    exists g. split; [exact Hg|]. split; [exact Hsg|]. split.
    + rewrite chunkText_groups. now apply in_map.
    + destruct (join_contains " " s g Hsg) as (a & b & ->).
      pose proof (estimateTokens_within a s b). lia.
Qed.

Lemma overlap_within_budget_witness :
  total_tokens (getOverlapSentences (repeat ChunkerExamples.ten_words 39))
  <= 50 /\
  exists fresh,
    fresh <> [] /\
    repeat ChunkerExamples.ten_words 9 =
    getOverlapSentences (repeat ChunkerExamples.ten_words 39) ++ fresh.
Proof.
  destruct (overlap_within_budget ChunkerExamples.long_section) as [_ H].
  destruct (H 0 (repeat ChunkerExamples.ten_words 39)
              (repeat ChunkerExamples.ten_words 9))
    as (Hfresh & Htot & _).
  - vm_compute. reflexivity.
  - vm_compute. reflexivity.
  - split; [exact Htot|exact Hfresh].
Defined.

Lemma sentences_emitted_whole_witness :
  exists g,
    In g (chunkGroups (splitIntoSentences ChunkerExamples.oversized_text)) /\
    In ChunkerExamples.oversized_sentence g /\
    In (join " " g) (chunkText ChunkerExamples.oversized_text) /\
    512 < estimateTokens (join " " g).
Proof.
  destruct (sentences_emitted_whole ChunkerExamples.oversized_text)
    as (_ & _ & _ & H).
  apply (H ChunkerExamples.oversized_sentence).
  - vm_compute. left. reflexivity.
  - vm_compute. lia.
Defined.

(** *** Chunks of a finding *)

Lemma numbered_app (finding : Finding.IAuditFinding)
  (a b : list (Section_ * string)) :
  forall n,
    numbered finding n (a ++ b) =
    numbered finding n a ++ numbered finding (n + List.length a) b.
Proof.
  induction a as [|[sec body] a IH]; intros n; simpl.
  - now rewrite Nat.add_0_r.
  - rewrite IH. now rewrite Nat.add_succ_r.
Qed.

Lemma numbered_length (finding : Finding.IAuditFinding)
  (bodies : list (Section_ * string)) :
  forall n, List.length (numbered finding n bodies) = List.length bodies.
Proof.
  induction bodies as [|[sec body] bodies IH]; intros n; simpl;
    [reflexivity|now rewrite IH].
Qed.

Lemma push_chunks_numbered (finding : Finding.IAuditFinding) (sec : Section_)
  (bodies : list string) :
  forall chunks,
    fold_left (push_chunk finding sec) bodies chunks =
    chunks ++
    numbered finding (List.length chunks) (List.map (pair sec) bodies).
Proof.
  induction bodies as [|body bodies IH]; intros chunks; simpl.
  - now rewrite app_nil_r.
  - rewrite IH. unfold push_chunk.
    rewrite length_app, <- app_assoc. simpl. now rewrite Nat.add_1_r.
Qed.

Lemma sections_numbered (finding : Finding.IAuditFinding)
  (sections : list Section_) :
  forall chunks,
    fold_left
      (fun chunks sec =>
         fold_left (push_chunk finding sec) (chunkText (content sec)) chunks)
      sections chunks =
    chunks ++
    numbered finding (List.length chunks) (section_bodies sections).
Proof.
  induction sections as [|sec sections IH]; intros chunks; simpl.
  - now rewrite app_nil_r.
  - rewrite IH, push_chunks_numbered, <- app_assoc. f_equal.
    unfold section_bodies at 2. simpl. rewrite numbered_app.
    rewrite length_app, numbered_length. reflexivity.
Qed.

Lemma processAuditFinding_numbered (finding : Finding.IAuditFinding) :
  processAuditFinding finding =
  numbered finding 0
    (section_bodies (extractSections (Finding.content finding))).
Proof. unfold processAuditFinding. apply sections_numbered. Qed.

Lemma numbered_indices (finding : Finding.IAuditFinding)
  (bodies : list (Section_ * string)) :
  forall n,
    List.map chunk_index (numbered finding n bodies) =
    seq n (List.length bodies).
Proof.
  induction bodies as [|[sec body] bodies IH]; intros n; simpl;
    [reflexivity|now rewrite IH].
Qed.

Lemma strip_header_enriched (finding : Finding.IAuditFinding)
  (sec : Section_) (body : string) (n : nat) (m : ChunkMetadata) :
  section m = name sec ->
  strip_header finding
    {| text := enrichChunkContext body finding (name sec);
       chunk_index := n;
       metadata := m |} = body.
Proof.
  intros Hm. unfold strip_header, enrichChunkContext.
  cbn [text metadata]. rewrite Hm.
  generalize (context_prefix finding (name sec)). intros prefix.
  rewrite length_append, substring_after_prefix.
  replace (String.length prefix + String.length body - String.length prefix)
    with (String.length body) by lia.
  apply substring_all.
Qed.

Lemma numbered_bodies (finding : Finding.IAuditFinding)
  (bodies : list (Section_ * string)) :
  forall n,
    List.map (strip_header finding) (numbered finding n bodies) =
    List.map snd bodies /\
    List.map (fun c => section (metadata c)) (numbered finding n bodies) =
    List.map (fun b => name (fst b)) bodies.
Proof.
  induction bodies as [|[sec body] bodies IH]; intros n;
    cbn [List.map numbered]; [now split|].
  destruct (IH (S n)) as [IH1 IH2]. rewrite IH1, IH2.
  rewrite strip_header_enriched by reflexivity. now split.
Qed.

(** *** The sentences of a body *)

Lemma all_fillers_app (a b : string) :
  all_fillers (a ++ b) = all_fillers a && all_fillers b.
Proof.
  induction a as [|c a IH]; [reflexivity|]. simpl.
  now rewrite IH, andb_assoc.
Qed.

Lemma trimStart_split (s : string) :
  exists lw, s = (lw ++ trimStart s)%string /\ all_fillers lw = true.
Proof.
  induction s as [|c s (lw & Hs & Hlw)]; simpl.
  - now exists EmptyString.
  - destruct (is_space c) eqn:E.
    + exists (String c lw). simpl. split; [now rewrite <- Hs|].
      unfold is_filler. now rewrite E, orb_true_r.
    + now exists EmptyString.
Qed.

Lemma trimEnd_split (s : string) :
  exists rw, s = (trimEnd s ++ rw)%string /\ all_fillers rw = true.
Proof.
  induction s as [|c s (rw & Hs & Hrw)]; simpl.
  - now exists EmptyString.
  - destruct (is_space c && (String.length (trimEnd s) =? 0)) eqn:E.
    + apply andb_prop in E as [Ec El]. apply Nat.eqb_eq in El.
      destruct (trimEnd s); [|discriminate]. simpl in Hs.
      exists (String c rw). simpl. split; [now rewrite <- Hs|].
      unfold is_filler. now rewrite Ec, orb_true_r.
    + exists rw. simpl. split; [now rewrite <- Hs|exact Hrw].
Qed.

Lemma trim_split (s : string) :
  exists lw rw,
    s = (lw ++ trim s ++ rw)%string /\
    all_fillers lw = true /\ all_fillers rw = true.
Proof.
  destruct (trimStart_split s) as (lw & Hs & Hlw).
  destruct (trimEnd_split (trimStart s)) as (rw & Ht & Hrw).
  exists lw, rw. unfold trim. now rewrite <- Ht.
Qed.

Lemma woven_gap (gap rest : string) (sentences : list string) :
  all_fillers gap = true -> woven rest sentences ->
  woven (gap ++ rest) sentences.
Proof.
  intros Hg H. destruct H as [g Hg'|g s rest l Hg' H].
  - apply woven_end. now rewrite all_fillers_app, Hg, Hg'.
  - rewrite <- append_assoc. apply woven_sentence; [|exact H].
    now rewrite all_fillers_app, Hg, Hg'.
Qed.

Lemma kept_cons (field : string) (fields : list string) :
  kept (field :: fields) = kept [field] ++ kept fields.
Proof.
  unfold kept. change (field :: fields) with ([field] ++ fields).
  now rewrite map_app, filter_app.
Qed.

Lemma kept_empty (fields : list string) :
  kept (EmptyString :: fields) = kept fields.
Proof. reflexivity. Qed.

(** One field of the split, put before a body already woven. *)
Lemma woven_field (x rest : string) (sentences : list string) :
  woven rest sentences -> woven (x ++ rest) (kept [x] ++ sentences).
Proof.
  intros H. destruct (trim_split x) as (lw & rw & Hx & Hlw & Hrw).
  unfold kept. cbn [List.map filter].
  rewrite Hx at 1. rewrite !append_assoc.
  destruct (trim x) as [|c t] eqn:E; simpl.
  - apply woven_gap; [exact Hlw|]. now apply woven_gap.
  - apply (woven_sentence lw (String c t)); [exact Hlw|].
    now apply woven_gap.
Qed.

Lemma starts_with_first_field (p : ascii -> bool) (s : string) :
  starts_with p s = true -> fst (split_fields p s) = EmptyString.
Proof.
  induction s as [|c s IH]; simpl; [discriminate|].
  intros Hc. rewrite Hc.
  destruct (split_fields p s) as [field fields].
  destruct (starts_with p s); simpl in *; [now apply IH|reflexivity].
Qed.

Lemma split_woven (s : string) :
  forall pre : string,
    woven (pre ++ s)
      (kept ((pre ++ fst (split_fields is_terminal s))%string
               :: snd (split_fields is_terminal s))).
Proof.
  induction s as [|c s IH]; intros pre.
  - cbn [split_fields fst snd]. rewrite append_nil_r.
    rewrite <- (append_nil_r pre) at 1.
    rewrite <- (app_nil_r (kept [pre])).
    apply woven_field. now apply woven_end.
  - cbn [split_fields].
    destruct (split_fields is_terminal s) as [field fields] eqn:E.
    cbn [fst snd] in IH.
    destruct (is_terminal c) eqn:Hc.
    + assert (Hrest : woven (String c s) (kept (field :: fields))).
      { change (String c s) with (String c EmptyString ++ s)%string.
        apply woven_gap.
        - simpl. unfold is_filler. now rewrite Hc.
        - exact (IH EmptyString). }
      destruct (starts_with is_terminal s) eqn:Hs; cbn [fst snd].
      * pose proof (starts_with_first_field is_terminal s Hs) as H0.
        rewrite E in H0. cbn [fst] in H0. subst field.
        rewrite kept_empty in Hrest.
        rewrite append_nil_r, kept_cons. now apply woven_field.
      * rewrite append_nil_r, kept_cons. now apply woven_field.
    + cbn [fst snd].
      specialize (IH (pre ++ String c EmptyString)%string).
      rewrite !append_assoc in IH. exact IH.
Qed.

(** A body is its sentences, in order, with only terminal punctuation and
    white space around them. *)
Lemma splitIntoSentences_woven (text : string) :
  woven text (splitIntoSentences text).
Proof.
  pose proof (split_woven text EmptyString) as H.
  cbn [append] in H. unfold splitIntoSentences, split.
  now destruct (split_fields is_terminal text).
Qed.

Lemma numbered_texts (finding : Finding.IAuditFinding)
  (bodies : list (Section_ * string)) :
  forall n,
    List.map text (numbered finding n bodies) =
    List.map (rendered finding) bodies.
Proof.
  induction bodies as [|[sec body] bodies IH]; intros n;
    cbn [List.map numbered]; [reflexivity|].
  now rewrite IH.
Qed.

(** C8, as amended.  The chunks of a finding are the chunks of its
    sections in section order, numbered from 0, each the rendered header
    of its section followed by a chunk body.  Every section body is its
    sentences in their order with nothing but terminal punctuation and
    white space before, between and after them; the chunk bodies of the
    section are runs of these sentences joined by single spaces; read in
    order, each chunk without the overlap it starts with, they give back
    the sentences, none missing and none repeated, and the overlap a chunk
    starts with is at most 50 estimated tokens.  The punctuation and the
    white space between sentences are not kept. *)
Theorem chunks_reconstruct_sentences (finding : Finding.IAuditFinding) :
  let sections := extractSections (Finding.content finding) in
  let bodies := section_bodies sections in
  let emitted := processAuditFinding finding in
  List.map chunk_index emitted = seq 0 (List.length bodies) /\
  List.map text emitted = List.map (rendered finding) bodies /\
  List.map (strip_header finding) emitted = List.map snd bodies /\
  List.map (fun c => section (metadata c)) emitted =
    List.map (fun b => name (fst b)) bodies /\
  forall sec, In sec sections ->
    let sentences := splitIntoSentences (content sec) in
    let groups := chunkGroups sentences in
    woven (content sec) sentences /\
    chunkText (content sec) = List.map (join " ") groups /\
    reconstruct groups = sentences /\
    forall (i : nat) (g g' : list string),
      nth_error groups i = Some g ->
      nth_error groups (S i) = Some g' ->
      g' = getOverlapSentences g ++ fresh_part g g' /\
      fresh_part g g' <> [] /\
      total_tokens (getOverlapSentences g) <= 50.
Proof.
  intros sections bodies emitted. unfold emitted.
  rewrite processAuditFinding_numbered. fold sections. fold bodies.
  split; [apply numbered_indices|].
  split; [apply numbered_texts|].
  split; [apply numbered_bodies|]. split; [apply numbered_bodies|].
  intros sec _.
  set (sentences := splitIntoSentences (content sec)).
  set (groups := chunkGroups sentences).
  split; [apply splitIntoSentences_woven|].
  split; [apply chunkText_groups|].
  destruct (chunkGroups_spec sentences) as [Hrec Hch]. fold groups in Hrec, Hch.
  split; [exact Hrec|].
  intros i g g' Hi Hj.
  assert (Hc : continues g g').
  { destruct groups as [|g0 groups']; [destruct i; discriminate|].
    exact (chained_nth groups' g0 i g g' Hch Hi Hj). }
  destruct Hc as (fresh & Hne & ->).
  destruct (getOverlapSentences_spec g) as (_ & _ & Htot & _).
  unfold fresh_part. rewrite skipn_app, skipn_all, Nat.sub_diag. simpl.
  auto.
Qed.

(** A section of 45 sentences cut into two chunks: the second starts with
    the last three sentences of the first and adds the six that were left. *)
Lemma chunks_reconstruct_sentences_witness :
  let sentences := splitIntoSentences ChunkerExamples.long_section in
  let g := repeat ChunkerExamples.ten_words 39 in
  let g' := repeat ChunkerExamples.ten_words 9 in
  woven ChunkerExamples.long_section sentences /\
  List.length sentences = 45 /\
  chunkGroups sentences = [g; g'] /\
  reconstruct [g; g'] = sentences /\
  g' = getOverlapSentences g ++ fresh_part g g' /\
  List.length (getOverlapSentences g) = 3 /\
  List.length (fresh_part g g') = 6 /\
  total_tokens (getOverlapSentences g) <= 50.
Proof.
  intros sentences g g'.
  destruct (chunks_reconstruct_sentences ChunkerExamples.long_finding)
    as (_ & _ & _ & _ & H).
  destruct (H {| name := "content";
                 content := ChunkerExamples.long_section |})
    as (Hwoven & _ & Hrec & Hnext).
  - vm_compute. left. reflexivity.
  - assert (Hg : chunkGroups sentences = [g; g'])
      by (vm_compute; reflexivity).
    change (woven ChunkerExamples.long_section sentences) in Hwoven.
    change (reconstruct (chunkGroups sentences) = sentences) in Hrec.
    rewrite Hg in Hrec.
    destruct (Hnext 0 g g') as (Hov & _ & Htot);
      [vm_compute; reflexivity|vm_compute; reflexivity|].
    split; [exact Hwoven|]. split; [vm_compute; reflexivity|].
    split; [exact Hg|]. split; [exact Hrec|]. split; [exact Hov|].
    split; [vm_compute; reflexivity|]. split; [vm_compute; reflexivity|].
    exact Htot.
Defined.

Lemma occurs_existsb (c : ascii) (s : string) :
  occurs c s -> existsb (Ascii.eqb c) (list_ascii_of_string s) = true.
Proof.
  unfold occurs. intros H. apply existsb_exists.
  exists c. split; [exact H|apply Ascii.eqb_refl].
Qed.

(** C8, as stated, fails: the full stop of the section body
    ["Check the balance. Then send!"] occurs in no chunk body; the one
    chunk emitted is ["Check the balance Then send"]. *)
Lemma chunk_bodies_drop_punctuation :
  extractSections (Finding.content ChunkerExamples.punctuated_finding) =
    [ {| name := "Description";
         content := "Check the balance. Then send!" |} ] /\
  List.map (strip_header ChunkerExamples.punctuated_finding)
    (processAuditFinding ChunkerExamples.punctuated_finding) =
    ["Check the balance Then send"%string] /\
  ~ covers "Check the balance. Then send!"
      (List.map (strip_header ChunkerExamples.punctuated_finding)
         (processAuditFinding ChunkerExamples.punctuated_finding)).
Proof.
  split; [reflexivity|]. split; [reflexivity|].
  intros H. destruct (H "."%char) as (chunk & Hin & Hocc).
  - unfold occurs. simpl. tauto.
  - destruct Hin as [<-|[]]. apply occurs_existsb in Hocc.
    vm_compute in Hocc. discriminate.
Qed.

(** *** Further properties of the chunker *)

Lemma group_loop_fits (sentences : list string) :
  forall (cur : list string) (size : nat),
    size + total_tokens sentences <= maxChunkSize ->
    cur <> [] \/ sentences <> [] ->
    group_loop sentences cur size = [cur ++ sentences].
Proof.
  induction sentences as [|s sentences IH]; intros cur size Hfit Hne; simpl.
  - destruct Hne as [Hne|Hne]; [|congruence].
    rewrite (nonempty_length cur Hne). now rewrite app_nil_r.
  - unfold total_tokens in Hfit. simpl in Hfit.
    fold (total_tokens sentences) in Hfit.
    destruct (Nat.ltb_spec maxChunkSize (size + estimateTokens s)) as [H|H];
      [lia|].
    simpl. rewrite IH.
    + now rewrite <- app_assoc.
    + lia.
    + left. intros E. now apply app_eq_nil in E as [_ E].
Qed.

(** X13.  When the estimates of a section's sentences sum to at most 512,
    [chunkText] emits exactly one chunk, the sentences joined by single
    spaces. *)
Theorem sentences_that_fit_make_one_chunk (text : string) :
  splitIntoSentences text <> [] ->
  total_tokens (splitIntoSentences text) <= 512 ->
  chunkText text = [join " " (splitIntoSentences text)].
Proof.
  intros Hne Hfit. rewrite chunkText_groups. unfold chunkGroups.
  rewrite group_loop_fits; [reflexivity|exact Hfit|now right].
Qed.

Lemma sentences_that_fit_make_one_chunk_witness :
  chunkText "Check the balance. Then send!" =
  [join " " (splitIntoSentences "Check the balance. Then send!")].
Proof.
  apply sentences_that_fit_make_one_chunk.
  - vm_compute. discriminate.
  - vm_compute. lia.
Defined.

Lemma chunkGroups_cons (s : string) (sentences : list string) :
  chunkGroups (s :: sentences) = group_loop sentences [s] (estimateTokens s).
Proof.
  unfold chunkGroups. simpl. change (0 <? 0) with false.
  now rewrite andb_false_r.
Qed.

Lemma group_loop_count (sentences : list string) :
  forall (cur : list string) (size : nat),
    cur <> [] ->
    List.length (group_loop sentences cur size) <= S (List.length sentences).
Proof.
  induction sentences as [|s sentences IH]; intros cur size Hne; simpl.
  - rewrite (nonempty_length cur Hne). simpl. lia.
  - assert (forall l : list string, l ++ [s] <> []) as Hs.
    { intros l E. now apply app_eq_nil in E as [_ E]. }
    destruct ((maxChunkSize <? size + estimateTokens s)
              && (0 <? List.length cur)); simpl.
    + pose proof (IH (getOverlapSentences cur ++ [s])
                    (estimateTokens (join " " (getOverlapSentences cur))
                     + estimateTokens s) (Hs _)). lia.
    + pose proof (IH (cur ++ [s]) (size + estimateTokens s) (Hs _)). lia.
Qed.

Lemma join_nonempty (sep : string) (l : list string) :
  l <> [] -> Forall (fun s => s <> EmptyString) l ->
  join sep l <> EmptyString.
Proof.
  unfold join. destruct l as [|x l]; [congruence|].
  intros _ H. inversion H as [|? ? Hx _]; subst.
  destruct l as [|y l]; simpl; [exact Hx|].
  destruct x; [congruence|discriminate].
Qed.

Lemma sentences_nonempty (text s : string) :
  In s (splitIntoSentences text) -> s <> EmptyString.
Proof.
  unfold splitIntoSentences. intros H. apply filter_In in H as [_ H].
  intros ->. discriminate.
Qed.

(** X14.  [chunkText] emits no chunk exactly when the text has no sentence;
    it never emits more chunks than there are sentences, and never an empty
    chunk. *)
Theorem chunks_never_empty_nor_more_than_sentences (text : string) :
  (chunkText text = [] <-> splitIntoSentences text = []) /\
  List.length (chunkText text) <= List.length (splitIntoSentences text) /\
  Forall (fun chunk => chunk <> EmptyString) (chunkText text).
Proof.
  rewrite chunkText_groups.
  set (sentences := splitIntoSentences text).
  assert (Hcount : List.length (chunkGroups sentences)
                   <= List.length sentences).
  { destruct sentences as [|s l]; [simpl; lia|].
    rewrite chunkGroups_cons. apply group_loop_count. discriminate. }
  split; [|split].
  - split.
    + intros H. destruct (chunkGroups_spec sentences) as [Hrec _].
      apply map_eq_nil in H. rewrite H in Hrec. simpl in Hrec.
      now symmetry.
    + intros ->. reflexivity.
  - now rewrite length_map.
  - rewrite Forall_forall. intros chunk Hin.
    apply in_map_iff in Hin as (g & <- & Hg).
    destruct (group_loop_infix sentences [] 0 [] g Hg)
      as (Hne & before & after & H).
    apply join_nonempty; [exact Hne|].
    rewrite Forall_forall. intros s Hs.
    apply (sentences_nonempty text). fold sentences. simpl in H. rewrite H.
    apply in_or_app. right. apply in_or_app. now left.
Qed.

(** *** Sections *)

Lemma free_of_cons (p : ascii -> bool) (c : ascii) (s : string) :
  free_of p (String c s) <-> p c = false /\ free_of p s.
Proof.
  unfold free_of, occurs. simpl. split.
  - intros H. split; [apply H; now left|].
    intros d Hd. apply H. now right.
  - intros [Hc Hs] d [<-|Hd]; [exact Hc|now apply Hs].
Qed.

Lemma match_header_not_star (c : ascii) (s : string) :
  is_star c = false -> match_header (String c s) = None.
Proof.
  intros Hc. unfold match_header. destruct s; [reflexivity|].
  now rewrite Hc.
Qed.

Lemma split_headers_without_star (s : string) :
  free_of is_star s -> split_headers s 0 = (s, []).
Proof.
  induction s as [|c s IH]; intros H; [reflexivity|].
  apply free_of_cons in H as [Hc Hs].
  cbn [split_headers]. rewrite (match_header_not_star c s Hc).
  now rewrite (IH Hs).
Qed.

Lemma extractSections_without_star (content : string) :
  free_of is_star content ->
  extractSections content = [whole_content content].
Proof.
  intros H. unfold extractSections.
  now rewrite (split_headers_without_star content H).
Qed.

(** X15.  A content without any [*] has no header: it is one section named
    ["content"] that holds the whole content, and every chunk of the
    finding is tagged with the section name ["content"]. *)
Theorem content_without_headers_is_one_section
  (finding : Finding.IAuditFinding) :
  free_of is_star (Finding.content finding) ->
  extractSections (Finding.content finding) =
    [whole_content (Finding.content finding)] /\
  List.map (strip_header finding) (processAuditFinding finding) =
    chunkText (Finding.content finding) /\
  Forall (fun chunk => section (metadata chunk) = "content"%string)
    (processAuditFinding finding).
Proof.
  intros H. split; [now apply extractSections_without_star|].
  rewrite processAuditFinding_numbered, (extractSections_without_star _ H).
  unfold section_bodies. simpl. rewrite app_nil_r.
  destruct (numbered_bodies finding
              (List.map (pair (whole_content (Finding.content finding)))
                 (chunkText (Finding.content finding))) 0) as [Hb Hs].
  split.
  - rewrite Hb, map_map. simpl. apply map_id.
  - rewrite Forall_forall. intros chunk Hin.
    apply (in_map (fun c => section (metadata c))) in Hin.
    rewrite Hs, map_map in Hin. simpl in Hin.
    apply in_map_iff in Hin as (x & <- & _). reflexivity.
Qed.

Lemma content_without_headers_is_one_section_witness :
  Forall (fun chunk => section (metadata chunk) = "content"%string)
    (processAuditFinding RetrievalExamples.bare_finding).
Proof.
  apply (content_without_headers_is_one_section
           RetrievalExamples.bare_finding).
  intros c Hc. unfold occurs in Hc. simpl in Hc.
  repeat (destruct Hc as [<-|Hc]; [reflexivity|]). destruct Hc.
Defined.

(** *** Sentences *)

Lemma free_of_empty (p : ascii -> bool) : free_of p EmptyString.
Proof. intros c []. Qed.

Lemma split_fields_free (p : ascii -> bool) (s : string) :
  free_of p (fst (split_fields p s)) /\
  Forall (free_of p) (snd (split_fields p s)).
Proof.
  induction s as [|c s IH]; simpl.
  - split; [apply free_of_empty|constructor].
  - destruct (split_fields p s) as [field fields]. simpl in IH.
    destruct IH as [Hf Hfs]. destruct (p c) eqn:Hc.
    + destruct (starts_with p s); simpl; [now split|].
      split; [apply free_of_empty|now constructor].
    + simpl. split; [|exact Hfs]. apply free_of_cons. now split.
Qed.

Lemma split_free (p : ascii -> bool) (s : string) :
  Forall (free_of p) (split p s).
Proof.
  unfold split. pose proof (split_fields_free p s) as [H1 H2].
  destruct (split_fields p s). now constructor.
Qed.

Lemma occurs_trimStart (c : ascii) (s : string) :
  occurs c (trimStart s) -> occurs c s.
Proof.
  unfold occurs. induction s as [|d s IH]; simpl; [tauto|].
  destruct (is_space d); [|exact (fun H => H)].
  intros H. right. now apply IH.
Qed.

Lemma occurs_trimEnd (c : ascii) (s : string) :
  occurs c (trimEnd s) -> occurs c s.
Proof.
  unfold occurs. induction s as [|d s IH]; simpl; [tauto|].
  destruct (is_space d && (String.length (trimEnd s) =? 0)); simpl;
    [tauto|].
  intros [H|H]; [now left|right; now apply IH].
Qed.

Lemma free_of_trim (p : ascii -> bool) (s : string) :
  free_of p s -> free_of p (trim s).
Proof.
  intros H c Hc. apply H. unfold trim in Hc.
  now apply occurs_trimStart, occurs_trimEnd.
Qed.

Lemma trimEnd_idempotent (s : string) : trimEnd (trimEnd s) = trimEnd s.
Proof.
  induction s as [|c s IH]; simpl; [reflexivity|].
  destruct (is_space c && (String.length (trimEnd s) =? 0)) eqn:E;
    [reflexivity|].
  simpl. now rewrite IH, E.
Qed.

Lemma trimStart_no_space (s : string) :
  starts_with is_space (trimStart s) = false.
Proof.
  induction s as [|c s IH]; simpl; [reflexivity|].
  destruct (is_space c) eqn:E; [exact IH|]. simpl. exact E.
Qed.

Lemma trimStart_fixed (s : string) :
  starts_with is_space s = false -> trimStart s = s.
Proof. destruct s as [|c s]; simpl; [reflexivity|]. now intros ->. Qed.

Lemma trimEnd_no_space (s : string) :
  starts_with is_space s = false ->
  starts_with is_space (trimEnd s) = false.
Proof.
  destruct s as [|c s]; simpl; [reflexivity|].
  intros E. rewrite E. simpl. exact E.
Qed.

Lemma trim_idempotent (s : string) : trim (trim s) = trim s.
Proof.
  unfold trim.
  rewrite (trimStart_fixed (trimEnd (trimStart s)))
    by apply trimEnd_no_space, trimStart_no_space.
  apply trimEnd_idempotent.
Qed.

(** X16.  Every sentence [splitIntoSentences] returns is non-empty, has no
    leading or trailing white space (trimming it again changes nothing) and
    contains none of the terminal punctuation characters [.], [!], [?]. *)
Theorem sentences_are_trimmed_and_unpunctuated (text : string) :
  Forall
    (fun s => s <> EmptyString /\ trim s = s /\ free_of is_terminal s)
    (splitIntoSentences text).
Proof.
  rewrite Forall_forall. intros s Hin.
  split; [now apply (sentences_nonempty text)|].
  unfold splitIntoSentences in Hin. apply filter_In in Hin as [Hin _].
  apply in_map_iff in Hin as (field & <- & Hf).
  split; [apply trim_idempotent|].
  apply free_of_trim.
  pose proof (split_free is_terminal text) as H.
  rewrite Forall_forall in H. now apply H.
Qed.

(** *** Sections, continued *)

Lemma span_not_star_free (s : string) :
  free_of is_star (fst (span_not_star s)).
Proof.
  induction s as [|c s IH]; simpl; [apply free_of_empty|].
  destruct (is_star c) eqn:E; simpl; [apply free_of_empty|].
  destruct (span_not_star s) as [run rest]. simpl in *.
  apply free_of_cons. now split.
Qed.

Lemma match_header_free (s captured : string) (len : nat) :
  match_header s = Some (captured, len) -> free_of is_star captured.
Proof.
  unfold match_header. destruct s as [|a [|b s]]; try discriminate.
  destruct (is_star a && is_star b); [|discriminate].
  pose proof (span_not_star_free s) as H.
  destruct (span_not_star s) as [run rest]. simpl in H.
  destruct run as [|r0 run]; [discriminate|].
  destruct rest as [|c [|d rest]]; try discriminate.
  destruct (is_star c && is_star d); [|discriminate].
  intros [= <- _]. exact H.
Qed.

Lemma split_headers_captured (s : string) :
  forall skip,
    Forall (free_of is_star)
      (captured_groups (snd (split_headers s skip))).
Proof.
  induction s as [|c s IH]; intros skip; [constructor|].
  cbn [split_headers]. destruct skip as [|n]; [|apply IH].
  destruct (match_header (String c s)) as [[captured len]|] eqn:E.
  - specialize (IH (len - 1)).
    pose proof (match_header_free _ _ _ E) as Hfree.
    destruct (split_headers s (len - 1)) as [part parts].
    cbn [snd captured_groups] in *. now constructor.
  - specialize (IH 0). destruct (split_headers s 0) as [part parts].
    exact IH.
Qed.

Lemma sections_loop_bounded (n : nat) :
  forall parts,
    List.length parts <= n ->
    Forall (free_of is_star) (captured_groups parts) ->
    Forall
      (fun sec =>
         content sec <> EmptyString /\ trim (content sec) = content sec /\
         trim (name sec) = name sec /\ free_of is_star (name sec))
      (sections_loop parts).
Proof.
  induction n as [|n IH]; intros [|sectionName [|sectionContent parts]] Hn H;
    try (simpl; constructor); simpl in Hn; try lia.
  assert (Hrest : Forall
            (fun sec =>
               content sec <> EmptyString /\
               trim (content sec) = content sec /\
               trim (name sec) = name sec /\ free_of is_star (name sec))
            (sections_loop parts)).
  { apply IH; [lia|]. simpl in H. now inversion H. }
  simpl in H. inversion H as [|? ? Hname _]; subst.
  simpl. destruct (0 <? String.length (trim sectionContent)) eqn:E;
    [|exact Hrest].
  constructor; [|exact Hrest]. simpl.
  split; [intros Heq; rewrite Heq in E; discriminate|].
  split; [apply trim_idempotent|].
  split; [apply trim_idempotent|now apply free_of_trim].
Qed.

Lemma sections_loop_spec (parts : list string) :
  Forall (free_of is_star) (captured_groups parts) ->
  Forall
    (fun sec =>
       content sec <> EmptyString /\ trim (content sec) = content sec /\
       trim (name sec) = name sec /\ free_of is_star (name sec))
    (sections_loop parts).
Proof. apply (sections_loop_bounded (List.length parts)). lia. Qed.

(** X17.  [extractSections] always returns at least one section.  Either
    it is the single fallback section ["content"] holding the whole
    content, or every section has a non-empty content without leading or
    trailing white space and a name without leading or trailing white space
    and without [*]. *)
Theorem sections_are_trimmed_or_whole_content (text : string) :
  extractSections text <> [] /\
  (extractSections text = [whole_content text] \/
   Forall
     (fun sec =>
        content sec <> EmptyString /\ trim (content sec) = content sec /\
        trim (name sec) = name sec /\ free_of is_star (name sec))
     (extractSections text)).
Proof.
  unfold extractSections.
  pose proof (split_headers_captured text 0) as H.
  destruct (split_headers text 0) as [part parts]. simpl in H.
  apply sections_loop_spec in H.
  destruct (sections_loop parts) as [|sec secs].
  - split; [discriminate|now left].
  - split; [discriminate|now right].
Qed.

(** *** Chunk sizes *)

Lemma starts_with_app (p : ascii -> bool) (x y : string) :
  x <> EmptyString -> starts_with p (x ++ y) = starts_with p x.
Proof. destruct x; [congruence|reflexivity]. Qed.

Lemma split_fields_app_le (p : ascii -> bool) (x y : string) :
  List.length (snd (split_fields p (x ++ y))) <=
  List.length (snd (split_fields p x)) + List.length (snd (split_fields p y)).
Proof.
  induction x as [|c x IH]; [simpl; lia|].
  change (String c x ++ y)%string with (String c (x ++ y)).
  cbn [split_fields].
  destruct (split_fields p (x ++ y)) as [field' fields'] eqn:Exy.
  destruct (split_fields p x) as [field fields] eqn:Ex.
  cbn [snd] in IH. destruct (p c); [|exact IH].
  destruct x as [|d x].
  - cbn [split_fields] in Ex. injection Ex as <- <-.
    cbn [starts_with List.length snd] in *.
    destruct (starts_with p (EmptyString ++ y)); cbn [snd List.length]; lia.
  - rewrite starts_with_app by discriminate.
    destruct (starts_with p (String d x)); cbn [snd List.length]; lia.
Qed.

Lemma join_snoc (sep s : string) (l : list string) :
  l <> [] -> join sep (l ++ [s]) = (join sep l ++ sep ++ s)%string.
Proof.
  unfold join. induction l as [|x l IH]; [congruence|]. intros _.
  destruct l as [|y l]; [reflexivity|].
  change (String.concat sep ((x :: y :: l) ++ [s]))
    with (x ++ sep ++ String.concat sep ((y :: l) ++ [s]))%string.
  rewrite IH by discriminate.
  change (String.concat sep (x :: y :: l))
    with (x ++ sep ++ String.concat sep (y :: l))%string.
  now rewrite !append_assoc.
Qed.

Lemma ceil_thirteen_tenths_subadditive (n m : nat) :
  (13 * (n + m) + 9) / 10 <= (13 * n + 9) / 10 + (13 * m + 9) / 10.
Proof.
  pose proof (Nat.div_mod_eq (13 * n + 9) 10).
  pose proof (Nat.mod_upper_bound (13 * n + 9) 10 ltac:(lia)).
  pose proof (Nat.div_mod_eq (13 * m + 9) 10).
  pose proof (Nat.mod_upper_bound (13 * m + 9) 10 ltac:(lia)).
  pose proof (Nat.div_mod_eq (13 * (n + m) + 9) 10).
  pose proof (Nat.mod_upper_bound (13 * (n + m) + 9) 10 ltac:(lia)).
  lia.
Qed.

Lemma estimateTokens_spaced (a s : string) :
  estimateTokens (a ++ " " ++ s)%string <=
  estimateTokens a + estimateTokens s.
Proof.
  unfold estimateTokens. rewrite !Math_ceil_thirteen_tenths, !split_length.
  pose proof (split_fields_app_le is_space a (" " ++ s)%string) as H1.
  pose proof (split_fields_app_le is_space " " s) as H2.
  change (List.length (snd (split_fields is_space " "))) with 1 in H2.
  etransitivity; [|apply ceil_thirteen_tenths_subadditive].
  apply Nat.Div0.div_le_mono. lia.
Qed.

Lemma estimateTokens_snoc (l : list string) (s : string) :
  estimateTokens (join " " (l ++ [s])) <=
  estimateTokens (join " " l) + estimateTokens s.
Proof.
  destruct l as [|x l].
  - simpl. lia.
  - rewrite join_snoc by discriminate. apply estimateTokens_spaced.
Qed.

Lemma measured_bounded (cur : list string) (size : nat) :
  cur <> [] -> measured cur size -> bounded_chunk cur.
Proof.
  intros Hne [Hest [Hsize|Hshape]]; [left|right; exact Hshape].
  specialize (Hest Hne). lia.
Qed.

Lemma group_loop_bounded (sentences : list string) :
  forall (cur : list string) (size : nat),
    measured cur size ->
    Forall bounded_chunk (group_loop sentences cur size).
Proof.
  induction sentences as [|s sentences IH]; intros cur size Hm; simpl.
  - destruct cur as [|c cur]; simpl; [constructor|].
    constructor; [|constructor]. apply (measured_bounded _ size);
      [discriminate|exact Hm].
  - destruct (Nat.ltb_spec maxChunkSize (size + estimateTokens s)) as [Hov|Hfit];
      [destruct cur as [|c cur]|]; simpl.
    + apply IH. split.
      * intros _. simpl. lia.
      * right. exists [], s. split; [reflexivity|].
        unfold total_tokens, chunkOverlap. simpl. lia.
    + constructor.
      * apply (measured_bounded _ size); [discriminate|exact Hm].
      * apply IH. split.
        -- intros _. apply estimateTokens_snoc.
        -- right. exists (getOverlapSentences (c :: cur)), s.
           split; [reflexivity|].
           now destruct (getOverlapSentences_spec (c :: cur))
             as (_ & _ & H & _).
    + apply IH. split; [|now left].
      intros _. destruct Hm as [Hest _].
      destruct cur as [|c cur]; [simpl; lia|].
      specialize (Hest ltac:(discriminate)).
      pose proof (estimateTokens_snoc (c :: cur) s). lia.
Qed.

(** X18.  A chunk exceeds the maximum of 512 estimated tokens only when it
    is a single new sentence placed after a seed of at most 50 estimated
    tokens (nothing, for the first chunk of a section, or the overlap taken
    from the chunk before): every chunk is either within the maximum or of
    that shape. *)
Theorem chunks_exceed_maximum_only_by_one_sentence (text : string) :
  let groups := chunkGroups (splitIntoSentences text) in
  chunkText text = List.map (join " ") groups /\
  Forall
    (fun g =>
       estimateTokens (join " " g) <= 512 \/
       exists seed s, g = seed ++ [s] /\ total_tokens seed <= 50)
    groups.
Proof.
  intros groups. split; [apply chunkText_groups|].
  apply group_loop_bounded. split; [congruence|].
  left. unfold maxChunkSize. lia.
Qed.
End ChunkerProps.

(** * Ingestion *)

Module IngestProps.
Import Ingest.

Lemma slice_length {A : Type} (array : list A) (i b : nat) :
  List.length (slice i (i + b) array) = Nat.min b (List.length array - i).
Proof.
  unfold slice. rewrite length_firstn, length_skipn.
  replace (i + b - i) with b by lia. reflexivity.
Qed.

Lemma slice_then_rest {A : Type} (array : list A) (i b : nat) :
  slice i (i + b) array ++ skipn (i + b) array = skipn i array.
Proof.
  unfold slice. replace (i + b - i) with b by lia.
  replace (i + b) with (b + i) by lia.
  rewrite <- skipn_skipn. apply firstn_skipn.
Qed.

Lemma batches_needed (n b : nat) :
  0 < b -> 0 < n -> (n + b - 1) / b = S ((n - b + b - 1) / b).
Proof.
  intros Hb Hn. destruct (Nat.le_gt_cases b n) as [Hle|Hlt].
  - replace (n + b - 1) with ((n - b + b - 1) + 1 * b) by lia.
    rewrite Nat.div_add by lia. lia.
  - replace (n - b + b - 1) with (b - 1) by lia.
    rewrite (Nat.div_small (b - 1)) by lia.
    replace (n + b - 1) with ((n - 1) + 1 * b) by lia.
    rewrite Nat.div_add by lia. rewrite Nat.div_small by lia. lia.
Qed.

Lemma batches_loop_spec {A : Type} (array : list A) (batchSize : nat) :
  0 < batchSize ->
  forall (fuel i : nat) (batches : list (list A)),
    List.length array - i <= fuel ->
    exists result,
      batches_loop fuel array batchSize i batches = Some result /\
      List.concat result = List.concat batches ++ skipn i array /\
      (Forall (batch_sized batchSize) batches ->
       Forall (batch_sized batchSize) result) /\
      List.length result =
        List.length batches +
        (List.length array - i + batchSize - 1) / batchSize.
Proof.
  intros Hb. induction fuel as [|fuel IH]; intros i batches Hfuel.
  - cbn [batches_loop].
    destruct (Nat.ltb_spec i (List.length array)) as [Hlt|Hge]; [lia|].
    exists batches. repeat split; auto.
    + rewrite skipn_all2 by lia. now rewrite app_nil_r.
    + replace (List.length array - i + batchSize - 1) with (batchSize - 1)
        by lia.
      rewrite Nat.div_small by lia. lia.
  - cbn [batches_loop].
    destruct (Nat.ltb_spec i (List.length array)) as [Hlt|Hge].
    + destruct (IH (i + batchSize)
                  (batches ++ [slice i (i + batchSize) array])
                  ltac:(lia)) as (result & Hres & Hcat & Hall & Hlen).
      exists result. split; [exact Hres|]. split; [|split].
      * rewrite Hcat, concat_app. cbn [List.concat]. rewrite app_nil_r.
        now rewrite <- app_assoc, slice_then_rest.
      * intros Hbatches. apply Hall. apply Forall_app. split; [exact Hbatches|].
        constructor; [|constructor]. unfold batch_sized.
        rewrite slice_length. lia.
      * rewrite Hlen, length_app. cbn [List.length].
        rewrite (batches_needed (List.length array - i) batchSize) by lia.
        replace (List.length array - (i + batchSize))
          with (List.length array - i - batchSize) by lia.
        lia.
    + exists batches. repeat split; auto.
      * rewrite skipn_all2 by lia. now rewrite app_nil_r.
      * replace (List.length array - i + batchSize - 1) with (batchSize - 1)
          by lia.
        rewrite Nat.div_small by lia. lia.
Qed.

(** X19.  With a positive batch size, [createBatches] cuts the array into
    consecutive batches: concatenated in order they give back the array,
    none is empty, none holds more than [batchSize] elements, and there are
    ceil(length / batchSize) of them. *)
Theorem batches_partition_the_array {A : Type} (array : list A)
  (batchSize fuel : nat) :
  0 < batchSize ->
  List.length array <= fuel ->
  exists batches,
    createBatches fuel array batchSize = Some batches /\
    List.concat batches = array /\
    Forall (fun batch => 0 < List.length batch <= batchSize) batches /\
    List.length batches = (List.length array + batchSize - 1) / batchSize.
Proof.
  intros Hb Hfuel.
  destruct (batches_loop_spec array batchSize Hb fuel 0 [] ltac:(lia))
    as (result & Hres & Hcat & Hall & Hlen).
  exists result. split; [exact Hres|]. split; [exact Hcat|]. split.
  - apply Hall. constructor.
  - rewrite Hlen. cbn [List.length]. now rewrite Nat.sub_0_r.
Qed.

Lemma batches_partition_the_array_witness :
  exists batches,
    createBatches 5 [1; 2; 3; 4; 5] 3 = Some batches /\
    List.concat batches = [1; 2; 3; 4; 5] /\
    Forall (fun batch => 0 < List.length batch <= 3) batches /\
    List.length batches = (List.length [1; 2; 3; 4; 5] + 3 - 1) / 3.
Proof.
  apply (batches_partition_the_array [1; 2; 3; 4; 5] 3 5); simpl; lia.
Defined.

Lemma batches_loop_stuck {A : Type} (array : list A) :
  array <> [] ->
  forall (fuel : nat) (batches : list (list A)),
    batches_loop fuel array 0 0 batches = None.
Proof.
  intros Hne. induction fuel as [|fuel IH]; intros batches; cbn [batches_loop];
    destruct array as [|x array]; try congruence; cbn [List.length Nat.ltb Nat.leb].
  - reflexivity.
  - apply IH.
Qed.

(** X20.  With a batch size of zero and at least one element, the loop of
    [createBatches] never advances: no amount of fuel makes it return. *)
Theorem zero_batch_size_never_returns {A : Type} (array : list A)
  (fuel : nat) :
  array <> [] ->
  createBatches fuel array 0 = None.
Proof. intros Hne. now apply batches_loop_stuck. Qed.

Lemma zero_batch_size_never_returns_witness :
  createBatches 1000 [1; 2; 3] 0 = None.
Proof. apply (zero_batch_size_never_returns [1; 2; 3] 1000). discriminate. Defined.

Lemma embeddings_loop_spec (generateEmbedding : string -> Embedding)
  (texts : list string) :
  forall (fuel i : nat) (results : list Embedding),
    List.length texts - i <= fuel ->
    embeddings_loop generateEmbedding fuel texts i results =
    Some (results ++ List.map generateEmbedding (skipn i texts)).
Proof.
  induction fuel as [|fuel IH]; intros i results Hfuel; cbn [embeddings_loop];
    destruct (Nat.ltb_spec i (List.length texts)) as [Hlt|Hge]; try lia.
  - rewrite skipn_all2 by lia. cbn [List.map]. now rewrite app_nil_r.
  - cbv zeta. rewrite IH by (unfold batchSize; lia).
    rewrite <- app_assoc, <- map_app, slice_then_rest. reflexivity.
  - rewrite skipn_all2 by lia. cbn [List.map]. now rewrite app_nil_r.
Qed.

(** X21.  Batching is invisible to the caller of [generateEmbeddings]: the
    result holds one embedding per text, in the order of the texts, each the
    embedding of that text alone. *)
Theorem embeddings_follow_the_texts (generateEmbedding : string -> Embedding)
  (texts : list string) (fuel : nat) :
  List.length texts <= fuel ->
  generateEmbeddings generateEmbedding fuel texts =
  Some (List.map generateEmbedding texts).
Proof.
  intros Hfuel. unfold generateEmbeddings.
  rewrite embeddings_loop_spec by lia. reflexivity.
Qed.

Lemma embeddings_follow_the_texts_witness :
  generateEmbeddings (fun text => [number (String.length text)]) 2
    ["ab"; "c"]%string =
  Some (List.map (fun text => [number (String.length text)])
          ["ab"; "c"]%string).
Proof.
  apply (embeddings_follow_the_texts
           (fun text => [number (String.length text)]) ["ab"; "c"]%string 2).
  simpl. lia.
Defined.

End IngestProps.

(** * The question-answering pipeline *)

Module PipelineProps.
Import Retrieval.

(** X22.  Whatever the chat model answers, the sources of a response are
    bounded by the request: there are at most [topK] of them (5 when the
    request gives none), [chunksUsed] is their number, and each one passes
    the allow-lists of the request. *)
Theorem sources_respect_the_request (sv : Pipeline.Services)
  (request : Pipeline.Request.RAGRequest) :
  let options :=
    withDefault Pipeline.default_options
      (Pipeline.Request.searchOptions request) in
  let response := Pipeline.query sv request in
  List.length (Pipeline.Response.sources response) <=
    withDefault 5 (topK options) /\
  Pipeline.Response.chunksUsed (Pipeline.Response.metadata response) =
    List.length (Pipeline.Response.sources response) /\
  Forall
    (fun r => satisfies (withDefault no_filters (filters options))
                (metadata r))
    (Pipeline.Response.sources response).
Proof.
  intros options response. split; [|split].
  - apply RetrievalProps.hybridSearch_length.
  - reflexivity.
  - rewrite Forall_forall. intros r Hin.
    now apply RetrievalProps.hybridSearch_satisfies in Hin.
Qed.

(** X23.  [queryByImpact] with at least one impact level answers from at
    most five sources, all of one of these levels; [queryByProtocol] with
    at least one protocol likewise answers from at most five sources, all of
    one of these protocols. *)
Theorem convenience_queries_keep_to_the_requested_values
  (sv : Pipeline.Services) (query : string) (values : list string) :
  values <> [] ->
  let byImpact := Pipeline.Response.sources
                    (Pipeline.queryByImpact sv query values) in
  let byProtocol := Pipeline.Response.sources
                      (Pipeline.queryByProtocol sv query values) in
  (List.length byImpact <= 5 /\
   Forall (fun r => In (impact (metadata r)) values) byImpact) /\
  (List.length byProtocol <= 5 /\
   Forall (fun r => In (protocol (metadata r)) values) byProtocol).
Proof.
  intros Hne byImpact byProtocol.
  destruct values as [|x values]; [congruence|].
  split; split.
  - apply (RetrievalProps.hybridSearch_length (Pipeline.vectorSearch sv)).
  - rewrite Forall_forall. intros r Hin.
    apply RetrievalProps.hybridSearch_satisfies in Hin as (H & _ & _).
    exact H.
  - apply (RetrievalProps.hybridSearch_length (Pipeline.vectorSearch sv)).
  - rewrite Forall_forall. intros r Hin.
    apply RetrievalProps.hybridSearch_satisfies in Hin as (_ & H & _).
    exact H.
Qed.

Lemma convenience_queries_keep_to_the_requested_values_witness :
  let byImpact := Pipeline.Response.sources
                    (Pipeline.queryByImpact PipelineExamples.services
                       "reentrancy" ["HIGH"; "CRITICAL"]%string) in
  let byProtocol := Pipeline.Response.sources
                      (Pipeline.queryByProtocol PipelineExamples.services
                         "reentrancy" ["HIGH"; "CRITICAL"]%string) in
  (List.length byImpact <= 5 /\
   Forall (fun r => In (impact (metadata r)) ["HIGH"; "CRITICAL"]%string)
     byImpact) /\
  (List.length byProtocol <= 5 /\
   Forall (fun r => In (protocol (metadata r)) ["HIGH"; "CRITICAL"]%string)
     byProtocol).
Proof.
  apply (convenience_queries_keep_to_the_requested_values
           PipelineExamples.services "reentrancy"
           ["HIGH"; "CRITICAL"]%string).
  discriminate.
Defined.

(** X24.  Asking [queryByImpact] for no impact level at all does not give an
    empty answer: the empty list is ignored, and the response is that of the
    same question asked with [topK] 5 and no filter. *)
Theorem query_by_no_impact_is_unfiltered (sv : Pipeline.Services)
  (query : string) :
  Pipeline.queryByImpact sv query [] =
  Pipeline.query sv
    {| Pipeline.Request.query := query;
       Pipeline.Request.conversationHistory := None;
       Pipeline.Request.searchOptions :=
         Some {| topK := Some 5; minScore := None; filters := None |};
       Pipeline.Request.systemPrompt := None |}.
Proof.
  unfold Pipeline.queryByImpact, Pipeline.query.
  cbn [Pipeline.Request.query Pipeline.Request.searchOptions
       Pipeline.Request.conversationHistory Pipeline.Request.systemPrompt
       withDefault].
  rewrite RetrievalProps.unconstrained_hybridSearch; [reflexivity|].
  repeat split.
Qed.

End PipelineProps.
